(** * Asteroids: a shallow embedding of [sprites.py] and [systems.py]

    The game keeps its numbers in Python floats.  They are idealised here as
    real numbers: rounding, infinities and NaN are not modelled, every
    comparison and every arithmetic operation is the exact one.  The integer
    counters of the world (score, lives, wave) are integers.

    Sprites are Python objects with identity, shared between the typed groups
    of the world and its [all_sprites] group.  They live in an object store
    (a list indexed by object identity) and the groups hold identities, in
    insertion order, as pygame's groups do.  The ship is the one object the
    world holds directly. *)

From Stdlib Require Import Reals ZArith List Bool Lra Lia.
Import ListNotations.
Open Scope R_scope.

(** ** Numbers *)

Definition Rltb (a b : R) : bool := if Rlt_dec a b then true else false.
Definition Rleb (a b : R) : bool := if Rle_dec a b then true else false.

(** [int(x)]: truncation toward zero, as pygame converts a float coordinate. *)
Definition trunc (x : R) : Z :=
  if Rle_dec 0 x then Int_part x else (- Int_part (- x))%Z.

(** [x % m] on floats with a positive modulus: the true modulo. *)
Definition fmod (x m : R) : R := x - m * IZR (Int_part (x / m)).

(** [math.atan2(y, x)]. *)
Definition atan2 (y x : R) : R :=
  if Rlt_dec 0 x then atan (y / x)
  else if Rlt_dec x 0 then
    (if Rle_dec 0 y then atan (y / x) + PI else atan (y / x) - PI)
  else if Rlt_dec 0 y then PI / 2
  else if Rlt_dec y 0 then - (PI / 2)
  else 0.

Definition radians (d : R) : R := d * PI / 180.
Definition degrees (r : R) : R := r * 180 / PI.
Definition tau : R := 2 * PI.

(** ** Vectors ([pygame.math.Vector2]) *)

Definition Vec : Type := (R * R)%type.

Definition vadd (a b : Vec) : Vec := (fst a + fst b, snd a + snd b).
Definition vsub (a b : Vec) : Vec := (fst a - fst b, snd a - snd b).
Definition vscale (a : Vec) (k : R) : Vec := (fst a * k, snd a * k).
Definition vlength (a : Vec) : R := sqrt (fst a * fst a + snd a * snd a).

(** [Vector2.normalize()] raises [ValueError] on a vector of length zero. *)
Definition normalize (a : Vec) : option Vec :=
  if Req_dec_T (vlength a) 0 then None else Some (vscale a (/ vlength a)).

(** ** Rectangles ([pygame.Rect], integer coordinates) *)

Record Rect := { rx : Z; ry : Z; rw : Z; rh : Z }.

Definition centerx (r : Rect) : Z := (rx r + Z.shiftr (rw r) 1)%Z.
Definition centery (r : Rect) : Z := (ry r + Z.shiftr (rh r) 1)%Z.

(** [rect.center = pos]. *)
Definition set_center (p : Vec) (r : Rect) : Rect :=
  {| rx := (trunc (fst p) - Z.shiftr (rw r) 1)%Z;
     ry := (trunc (snd p) - Z.shiftr (rh r) 1)%Z;
     rw := rw r; rh := rh r |}.

(** [pg.Rect(0, 0, r * 2, r * 2)]. *)
Definition sprite_rect (r : R) : Rect :=
  {| rx := 0; ry := 0; rw := trunc (r * 2); rh := trunc (r * 2) |}.

(** The radius [pg.sprite.collide_circle] gives a sprite that has no
    [radius] attribute: half the diagonal of its rect. *)
Definition rect_radius (r : Rect) : R :=
  0.5 * sqrt (IZR (rw r * rw r + rh r * rh r)).

(** [pg.sprite.collide_circle(left, right)], on the two rects. *)
Definition collide_circle (l r : Rect) : bool :=
  let xd := (centerx l - centerx r)%Z in
  let yd := (centery l - centery r)%Z in
  Rleb (IZR (xd * xd + yd * yd))
       ((rect_radius l + rect_radius r) * (rect_radius l + rect_radius r)).

(** ** Configuration

    [config.py] is not among the sources: its constants are the fields of a
    record that every definition below takes as a parameter.  [AST_SIZES] is
    a table keyed by the size class, [UFO_SMALL] and [UFO_BIG] are tables
    with the keys "r" and "score". *)

(** The keys "L", "M" and "S" of [AST_SIZES]. *)
Inductive Size := Large | Medium | Small.

Record Config := {
  WIDTH : R;
  HEIGHT : R;
  START_LIVES : Z;
  WAVE_DELAY : R;
  SAFE_SPAWN_TIME : R;
  UFO_SPAWN_EVERY : R;
  MAX_BULLETS : Z;
  AST_VEL_MIN : R;
  AST_VEL_MAX : R;
  AST_r : Size -> R;
  AST_score : Size -> Z;
  AST_split : Size -> list Size;
  BULLET_TTL : R;
  BULLET_RADIUS : R;
  SHIP_RADIUS : R;
  SHIP_TURN_SPEED : R;
  SHIP_THRUST : R;
  SHIP_FRICTION : R;
  SHIP_FIRE_RATE : R;
  SHIP_BULLET_SPEED : R;
  UFO_SPEED : R;
  UFO_SMALL_r : R;
  UFO_SMALL_score : Z;
  UFO_BIG_r : R;
  UFO_BIG_score : Z;
  UFO_FIRE_RATE_SMALL : R;
  UFO_FIRE_RATE_BIG : R;
  UFO_BULLET_SPEED : R
}.

(** Scores are awarded, never taken: the spec calls the score a
    non-negative integer. *)
Definition scores_nonneg (C : Config) : Prop :=
  (forall s, 0 <= AST_score C s)%Z /\
  (0 <= UFO_SMALL_score C)%Z /\ (0 <= UFO_BIG_score C)%Z.

(** ** The sources of randomness and of audio channels

    [random.random()] yields the next number of [rnd]; [rand_edge_pos()] and
    [rand_unit_vec()] of [utils.py] yield the next vector of [edge] and of
    [unitv]; [pg.mixer.find_channel()] yields the next answer of [chan]
    (a free channel, or none).  The cursors are part of the state. *)

Record Oracle := {
  rnd : nat -> R;
  edge : nat -> Vec;
  unitv : nat -> Vec;
  chan : nat -> option nat
}.

Inductive Sound := SHOT | BREAK_LARGE | BREAK_MEDIUM | FLY_SMALL | FLY_BIG.

(** What the mixer is asked to do, oldest request first. *)
Inductive AudioEvent :=
| SoundPlay (s : Sound)
| ChannelPlay (ch : nat) (s : Sound)
| ChannelStop (ch : nat).

(** ** Sprites *)

Record Bullet := {
  b_pos : Vec; b_vel : Vec; b_ttl : R; b_r : R; b_rect : Rect
}.

Record Asteroid := {
  a_pos : Vec; a_vel : Vec; a_size : Size; a_r : R;
  a_poly : list Vec; a_rect : Rect
}.

Record Ship := {
  s_pos : Vec; s_vel : Vec; s_angle : R; s_cool : R; s_invuln : R;
  s_alive : bool; s_r : R; s_rect : Rect
}.

Record UFO := {
  u_pos : Vec; u_small : bool; u_r : R; u_speed : R; u_rect : Rect;
  u_dir : Vec; u_shoot_timer : R; u_shoot_delay : R;
  u_channel : option nat
}.

Inductive Obj :=
| OBullet (b : Bullet)
| OAsteroid (a : Asteroid)
| OUfo (u : UFO).

(** A member of [all_sprites]: the ship of the world, or a stored object. *)
Inductive Ref := RShip | RObj (i : nat).

Definition obj_pos (o : Obj) : Vec :=
  match o with
  | OBullet b => b_pos b
  | OAsteroid a => a_pos a
  | OUfo u => u_pos u
  end.

Definition obj_r (o : Obj) : R :=
  match o with
  | OBullet b => b_r b
  | OAsteroid a => a_r a
  | OUfo u => u_r u
  end.

Definition obj_rect (o : Obj) : Rect :=
  match o with
  | OBullet b => b_rect b
  | OAsteroid a => a_rect a
  | OUfo u => u_rect u
  end.

(** The keys [Ship.control] reads. *)
Record Keys := { K_LEFT : bool; K_RIGHT : bool; K_UP : bool }.

(** ** The state

    The first twelve fields are the attributes of [World], in the order
    [World.__init__] sets them.  The rest is the part of the runtime the
    methods touch: the object store, the cursors into the oracle and the
    requests made to the mixer. *)

Record State := {
  ship : Ship;
  bullets : list nat;
  enemy_bullets : list nat;
  asteroids : list nat;
  ufos : list nat;
  all_sprites : list Ref;
  score : Z;
  lives : Z;
  wave : Z;
  wave_cool : R;
  safe : R;
  ufo_timer : R;
  objs : list Obj;
  rnd_i : nat;
  edge_i : nat;
  unit_i : nat;
  chan_i : nat;
  audio : list AudioEvent
}.

(** Field updates. *)

Definition set_ship (v : Ship) (st : State) : State :=
  {| ship := v; bullets := bullets st; enemy_bullets := enemy_bullets st;
     asteroids := asteroids st; ufos := ufos st;
     all_sprites := all_sprites st; score := score st; lives := lives st;
     wave := wave st; wave_cool := wave_cool st; safe := safe st;
     ufo_timer := ufo_timer st; objs := objs st; rnd_i := rnd_i st;
     edge_i := edge_i st; unit_i := unit_i st; chan_i := chan_i st;
     audio := audio st |}.

Definition set_bullets (v : list nat) (st : State) : State :=
  {| ship := ship st; bullets := v; enemy_bullets := enemy_bullets st;
     asteroids := asteroids st; ufos := ufos st;
     all_sprites := all_sprites st; score := score st; lives := lives st;
     wave := wave st; wave_cool := wave_cool st; safe := safe st;
     ufo_timer := ufo_timer st; objs := objs st; rnd_i := rnd_i st;
     edge_i := edge_i st; unit_i := unit_i st; chan_i := chan_i st;
     audio := audio st |}.

Definition set_enemy_bullets (v : list nat) (st : State) : State :=
  {| ship := ship st; bullets := bullets st; enemy_bullets := v;
     asteroids := asteroids st; ufos := ufos st;
     all_sprites := all_sprites st; score := score st; lives := lives st;
     wave := wave st; wave_cool := wave_cool st; safe := safe st;
     ufo_timer := ufo_timer st; objs := objs st; rnd_i := rnd_i st;
     edge_i := edge_i st; unit_i := unit_i st; chan_i := chan_i st;
     audio := audio st |}.

Definition set_asteroids (v : list nat) (st : State) : State :=
  {| ship := ship st; bullets := bullets st;
     enemy_bullets := enemy_bullets st; asteroids := v; ufos := ufos st;
     all_sprites := all_sprites st; score := score st; lives := lives st;
     wave := wave st; wave_cool := wave_cool st; safe := safe st;
     ufo_timer := ufo_timer st; objs := objs st; rnd_i := rnd_i st;
     edge_i := edge_i st; unit_i := unit_i st; chan_i := chan_i st;
     audio := audio st |}.

Definition set_ufos (v : list nat) (st : State) : State :=
  {| ship := ship st; bullets := bullets st;
     enemy_bullets := enemy_bullets st; asteroids := asteroids st; ufos := v;
     all_sprites := all_sprites st; score := score st; lives := lives st;
     wave := wave st; wave_cool := wave_cool st; safe := safe st;
     ufo_timer := ufo_timer st; objs := objs st; rnd_i := rnd_i st;
     edge_i := edge_i st; unit_i := unit_i st; chan_i := chan_i st;
     audio := audio st |}.

Definition set_all_sprites (v : list Ref) (st : State) : State :=
  {| ship := ship st; bullets := bullets st;
     enemy_bullets := enemy_bullets st; asteroids := asteroids st;
     ufos := ufos st; all_sprites := v; score := score st; lives := lives st;
     wave := wave st; wave_cool := wave_cool st; safe := safe st;
     ufo_timer := ufo_timer st; objs := objs st; rnd_i := rnd_i st;
     edge_i := edge_i st; unit_i := unit_i st; chan_i := chan_i st;
     audio := audio st |}.

Definition set_score (v : Z) (st : State) : State :=
  {| ship := ship st; bullets := bullets st;
     enemy_bullets := enemy_bullets st; asteroids := asteroids st;
     ufos := ufos st; all_sprites := all_sprites st; score := v;
     lives := lives st; wave := wave st; wave_cool := wave_cool st;
     safe := safe st; ufo_timer := ufo_timer st; objs := objs st;
     rnd_i := rnd_i st; edge_i := edge_i st; unit_i := unit_i st;
     chan_i := chan_i st; audio := audio st |}.

Definition set_lives (v : Z) (st : State) : State :=
  {| ship := ship st; bullets := bullets st;
     enemy_bullets := enemy_bullets st; asteroids := asteroids st;
     ufos := ufos st; all_sprites := all_sprites st; score := score st;
     lives := v; wave := wave st; wave_cool := wave_cool st; safe := safe st;
     ufo_timer := ufo_timer st; objs := objs st; rnd_i := rnd_i st;
     edge_i := edge_i st; unit_i := unit_i st; chan_i := chan_i st;
     audio := audio st |}.

Definition set_wave (v : Z) (st : State) : State :=
  {| ship := ship st; bullets := bullets st;
     enemy_bullets := enemy_bullets st; asteroids := asteroids st;
     ufos := ufos st; all_sprites := all_sprites st; score := score st;
     lives := lives st; wave := v; wave_cool := wave_cool st;
     safe := safe st; ufo_timer := ufo_timer st; objs := objs st;
     rnd_i := rnd_i st; edge_i := edge_i st; unit_i := unit_i st;
     chan_i := chan_i st; audio := audio st |}.

Definition set_wave_cool (v : R) (st : State) : State :=
  {| ship := ship st; bullets := bullets st;
     enemy_bullets := enemy_bullets st; asteroids := asteroids st;
     ufos := ufos st; all_sprites := all_sprites st; score := score st;
     lives := lives st; wave := wave st; wave_cool := v; safe := safe st;
     ufo_timer := ufo_timer st; objs := objs st; rnd_i := rnd_i st;
     edge_i := edge_i st; unit_i := unit_i st; chan_i := chan_i st;
     audio := audio st |}.

Definition set_safe (v : R) (st : State) : State :=
  {| ship := ship st; bullets := bullets st;
     enemy_bullets := enemy_bullets st; asteroids := asteroids st;
     ufos := ufos st; all_sprites := all_sprites st; score := score st;
     lives := lives st; wave := wave st; wave_cool := wave_cool st;
     safe := v; ufo_timer := ufo_timer st; objs := objs st;
     rnd_i := rnd_i st; edge_i := edge_i st; unit_i := unit_i st;
     chan_i := chan_i st; audio := audio st |}.

Definition set_ufo_timer (v : R) (st : State) : State :=
  {| ship := ship st; bullets := bullets st;
     enemy_bullets := enemy_bullets st; asteroids := asteroids st;
     ufos := ufos st; all_sprites := all_sprites st; score := score st;
     lives := lives st; wave := wave st; wave_cool := wave_cool st;
     safe := safe st; ufo_timer := v; objs := objs st; rnd_i := rnd_i st;
     edge_i := edge_i st; unit_i := unit_i st; chan_i := chan_i st;
     audio := audio st |}.

Definition set_objs (v : list Obj) (st : State) : State :=
  {| ship := ship st; bullets := bullets st;
     enemy_bullets := enemy_bullets st; asteroids := asteroids st;
     ufos := ufos st; all_sprites := all_sprites st; score := score st;
     lives := lives st; wave := wave st; wave_cool := wave_cool st;
     safe := safe st; ufo_timer := ufo_timer st; objs := v;
     rnd_i := rnd_i st; edge_i := edge_i st; unit_i := unit_i st;
     chan_i := chan_i st; audio := audio st |}.

Definition set_rnd_i (v : nat) (st : State) : State :=
  {| ship := ship st; bullets := bullets st;
     enemy_bullets := enemy_bullets st; asteroids := asteroids st;
     ufos := ufos st; all_sprites := all_sprites st; score := score st;
     lives := lives st; wave := wave st; wave_cool := wave_cool st;
     safe := safe st; ufo_timer := ufo_timer st; objs := objs st; rnd_i := v;
     edge_i := edge_i st; unit_i := unit_i st; chan_i := chan_i st;
     audio := audio st |}.

Definition set_edge_i (v : nat) (st : State) : State :=
  {| ship := ship st; bullets := bullets st;
     enemy_bullets := enemy_bullets st; asteroids := asteroids st;
     ufos := ufos st; all_sprites := all_sprites st; score := score st;
     lives := lives st; wave := wave st; wave_cool := wave_cool st;
     safe := safe st; ufo_timer := ufo_timer st; objs := objs st;
     rnd_i := rnd_i st; edge_i := v; unit_i := unit_i st;
     chan_i := chan_i st; audio := audio st |}.

Definition set_unit_i (v : nat) (st : State) : State :=
  {| ship := ship st; bullets := bullets st;
     enemy_bullets := enemy_bullets st; asteroids := asteroids st;
     ufos := ufos st; all_sprites := all_sprites st; score := score st;
     lives := lives st; wave := wave st; wave_cool := wave_cool st;
     safe := safe st; ufo_timer := ufo_timer st; objs := objs st;
     rnd_i := rnd_i st; edge_i := edge_i st; unit_i := v;
     chan_i := chan_i st; audio := audio st |}.

Definition set_chan_i (v : nat) (st : State) : State :=
  {| ship := ship st; bullets := bullets st;
     enemy_bullets := enemy_bullets st; asteroids := asteroids st;
     ufos := ufos st; all_sprites := all_sprites st; score := score st;
     lives := lives st; wave := wave st; wave_cool := wave_cool st;
     safe := safe st; ufo_timer := ufo_timer st; objs := objs st;
     rnd_i := rnd_i st; edge_i := edge_i st; unit_i := unit_i st;
     chan_i := v; audio := audio st |}.

Definition set_audio (v : list AudioEvent) (st : State) : State :=
  {| ship := ship st; bullets := bullets st;
     enemy_bullets := enemy_bullets st; asteroids := asteroids st;
     ufos := ufos st; all_sprites := all_sprites st; score := score st;
     lives := lives st; wave := wave st; wave_cool := wave_cool st;
     safe := safe st; ufo_timer := ufo_timer st; objs := objs st;
     rnd_i := rnd_i st; edge_i := edge_i st; unit_i := unit_i st;
     chan_i := chan_i st; audio := v |}.

Notation "'let?' p ':=' e 'in' k" :=
  (match e with Some p => k | None => None end)
  (at level 10, p pattern, e at level 200, k at level 200, only parsing).

(** ** The object store and the groups *)

Definition get_obj (i : nat) (st : State) : option Obj := nth_error (objs st) i.

Fixpoint list_put {A} (i : nat) (x : A) (l : list A) : list A :=
  match l, i with
  | [], _ => []
  | _ :: t, O => x :: t
  | h :: t, S j => h :: list_put j x t
  end.

Definition put_obj (i : nat) (o : Obj) (st : State) : State :=
  set_objs (list_put i o (objs st)) st.

(** A new object: its identity is the next free index of the store. *)
Definition alloc (o : Obj) (st : State) : nat * State :=
  (length (objs st), set_objs (objs st ++ [o]) st).

Definition remove_id (i : nat) (g : list nat) : list nat :=
  filter (fun j => negb (Nat.eqb j i)) g.

Definition remove_ref (i : nat) (g : list Ref) : list Ref :=
  filter (fun r => match r with RShip => true | RObj j => negb (Nat.eqb j i) end) g.

(** [pg.sprite.Sprite.kill]: the sprite leaves every group it is in. *)
Definition Sprite_kill (i : nat) (st : State) : State :=
  set_all_sprites (remove_ref i (all_sprites st))
    (set_ufos (remove_id i (ufos st))
       (set_asteroids (remove_id i (asteroids st))
          (set_enemy_bullets (remove_id i (enemy_bullets st))
             (set_bullets (remove_id i (bullets st)) st)))).

Definition play (s : Sound) (st : State) : State :=
  set_audio (audio st ++ [SoundPlay s]) st.

Definition channel_stop (ch : nat) (st : State) : State :=
  set_audio (audio st ++ [ChannelStop ch]) st.

Definition channel_play (ch : nat) (s : Sound) (st : State) : State :=
  set_audio (audio st ++ [ChannelPlay ch s]) st.

(** How often the mixer was asked to stop channel [ch]. *)
Definition stops (ch : nat) (log : list AudioEvent) : nat :=
  length (filter (fun e => match e with ChannelStop c => Nat.eqb c ch | _ => false end) log).

(** sprites.py, [UFO.kill]. *)
Definition UFO_kill (i : nat) (u : UFO) (st : State) : State :=
  let st1 := match u_channel u with
             | Some ch => channel_stop ch st
             | None => st
             end in
  Sprite_kill i st1.

(** [sprite.kill()], dispatched on the class of the object. *)
Definition kill (i : nat) (st : State) : State :=
  match get_obj i st with
  | Some (OUfo u) => UFO_kill i u st
  | Some _ => Sprite_kill i st
  | None => st
  end.

Section Game.

Variable C : Config.
Variable Src : Oracle.

(** ** utils.py *)

(** Modelled from the spec: [utils.wrap_pos] is not among the sources; it
    "maps each coordinate modulo the arena width/height", a true modulo. *)
Definition wrap_pos (p : Vec) : Vec :=
  (fmod (fst p) (WIDTH C), fmod (snd p) (HEIGHT C)).

(** Modelled from the spec: [utils.angle_to_vec] is not among the sources; it
    is the "unit vector from angle measured so that 0 degrees points along
    +x", the angle in degrees. *)
Definition angle_to_vec (deg : R) : Vec :=
  (cos (radians deg), sin (radians deg)).

(** Modelled from the spec: [utils.rand_edge_pos] is not among the sources;
    the next vector of the oracle stands for its result. *)
Definition rand_edge_pos (st : State) : Vec * State :=
  (edge Src (edge_i st), set_edge_i (S (edge_i st)) st).

(** Modelled from the spec: [utils.rand_unit_vec] is not among the sources;
    the next vector of the oracle stands for its result. *)
Definition rand_unit_vec (st : State) : Vec * State :=
  (unitv Src (unit_i st), set_unit_i (S (unit_i st)) st).

(** [random.uniform(a, b)] is [a + (b - a) * random()]. *)
Definition uniform (a b : R) (st : State) : R * State :=
  (a + (b - a) * rnd Src (rnd_i st), set_rnd_i (S (rnd_i st)) st).

(** [pg.mixer.find_channel()]. *)
Definition find_channel (st : State) : option nat * State :=
  (chan Src (chan_i st), set_chan_i (S (chan_i st)) st).

(** ** sprites.py, [Bullet] *)

Definition Bullet_init (pos vel : Vec) : Bullet :=
  {| b_pos := pos; b_vel := vel; b_ttl := BULLET_TTL C;
     b_r := BULLET_RADIUS C; b_rect := sprite_rect (BULLET_RADIUS C) |}.

(** [Bullet.update], up to the test of the time to live. *)
Definition Bullet_move (dt : R) (b : Bullet) : Bullet :=
  {| b_pos := wrap_pos (vadd (b_pos b) (vscale (b_vel b) dt));
     b_vel := b_vel b; b_ttl := b_ttl b - dt; b_r := b_r b;
     b_rect := b_rect b |}.

Definition Bullet_set_rect (b : Bullet) : Bullet :=
  {| b_pos := b_pos b; b_vel := b_vel b; b_ttl := b_ttl b; b_r := b_r b;
     b_rect := set_center (b_pos b) (b_rect b) |}.

Definition Bullet_update (dt : R) (i : nat) (b : Bullet) (st : State) : State :=
  let b1 := Bullet_move dt b in
  let st1 := put_obj i (OBullet b1) st in
  let st2 := if Rleb (b_ttl b1) 0 then kill i st1 else st1 in
  put_obj i (OBullet (Bullet_set_rect b1)) st2.

(** ** sprites.py, [Asteroid] *)

Definition poly_steps (size : Size) : nat :=
  match size with Large => 12 | Medium => 10 | Small => 8 end.

Fixpoint poly_points (r : R) (steps : nat) (range : list nat) (st : State)
  : list Vec * State :=
  match range with
  | [] => ([], st)
  | i :: rest =>
      let ang := INR i * (360 / INR steps) in
      let (jitter, st1) := uniform 0.75 1.2 st in
      let radius := r * jitter in
      let vec := (cos (radians ang), sin (radians ang)) in
      let (pts, st2) := poly_points r steps rest st1 in
      (vscale vec radius :: pts, st2)
  end.

Definition make_poly (size : Size) (r : R) (st : State) : list Vec * State :=
  poly_points r (poly_steps size) (seq 0 (poly_steps size)) st.

Definition Asteroid_init (pos vel : Vec) (size : Size) (st : State)
  : Asteroid * State :=
  let r := AST_r C size in
  let (poly, st1) := make_poly size r st in
  ({| a_pos := pos; a_vel := vel; a_size := size; a_r := r;
      a_poly := poly; a_rect := sprite_rect r |}, st1).

Definition Asteroid_update (dt : R) (a : Asteroid) : Asteroid :=
  let pos := wrap_pos (vadd (a_pos a) (vscale (a_vel a) dt)) in
  {| a_pos := pos; a_vel := a_vel a; a_size := a_size a; a_r := a_r a;
     a_poly := a_poly a; a_rect := set_center pos (a_rect a) |}.

(** ** sprites.py, [Ship] *)

Definition Ship_init (pos : Vec) : Ship :=
  {| s_pos := pos; s_vel := (0, 0); s_angle := -90; s_cool := 0;
     s_invuln := 0; s_alive := true; s_r := SHIP_RADIUS C;
     s_rect := sprite_rect (SHIP_RADIUS C) |}.

Definition Ship_control (keys : Keys) (dt : R) (s : Ship) : Ship :=
  let a1 := if K_LEFT keys then s_angle s - SHIP_TURN_SPEED C * dt
            else s_angle s in
  let a2 := if K_RIGHT keys then a1 + SHIP_TURN_SPEED C * dt else a1 in
  let v1 := if K_UP keys
            then vadd (s_vel s)
                   (vscale (vscale (angle_to_vec a2) (SHIP_THRUST C)) dt)
            else s_vel s in
  {| s_pos := s_pos s; s_vel := vscale v1 (SHIP_FRICTION C); s_angle := a2;
     s_cool := s_cool s; s_invuln := s_invuln s; s_alive := s_alive s;
     s_r := s_r s; s_rect := s_rect s |}.

(** [Ship.fire]: the bullet, if any, and the ship afterwards. *)
Definition Ship_fire (s : Ship) : option Bullet * Ship :=
  if Rltb 0 (s_cool s) then (None, s)
  else
    let direction := angle_to_vec (s_angle s) in
    let pos := vadd (s_pos s) (vscale direction (s_r s + 6)) in
    let vel := vadd (s_vel s) (vscale direction (SHIP_BULLET_SPEED C)) in
    (Some (Bullet_init pos vel),
     {| s_pos := s_pos s; s_vel := s_vel s; s_angle := s_angle s;
        s_cool := SHIP_FIRE_RATE C; s_invuln := s_invuln s;
        s_alive := s_alive s; s_r := s_r s; s_rect := s_rect s |}).

Definition Ship_hyperspace (s : Ship) (st : State) : Ship * State :=
  let (x, st1) := uniform 0 (WIDTH C) st in
  let (y, st2) := uniform 0 (HEIGHT C) st1 in
  ({| s_pos := (x, y); s_vel := (0, 0); s_angle := s_angle s;
      s_cool := s_cool s; s_invuln := 1; s_alive := s_alive s;
      s_r := s_r s; s_rect := s_rect s |}, st2).

Definition Ship_update (dt : R) (s : Ship) : Ship :=
  let cool := if Rltb 0 (s_cool s) then s_cool s - dt else s_cool s in
  let invuln := if Rltb 0 (s_invuln s) then s_invuln s - dt
                else s_invuln s in
  let pos := wrap_pos (vadd (s_pos s) (vscale (s_vel s) dt)) in
  {| s_pos := pos; s_vel := s_vel s; s_angle := s_angle s; s_cool := cool;
     s_invuln := invuln; s_alive := s_alive s; s_r := s_r s;
     s_rect := set_center pos (s_rect s) |}.

(** ** sprites.py, [UFO] *)

(** [UFO.__init__]; no result when [normalize] raises. *)
Definition UFO_init (pos : Vec) (small : bool) (target_pos : option Vec)
  (st : State) : option (UFO * State) :=
  let r := if small then UFO_SMALL_r C else UFO_BIG_r C in
  let? (dir, st1) :=
    match small, target_pos with
    | true, Some target =>
        let desired := vsub target pos in
        let? desired1 :=
          if Rltb 0 (vlength desired) then normalize desired
          else Some (1, 0) in
        let (jx, sta) := uniform (-0.2) 0.2 st in
        let (jy, stb) := uniform (-0.2) 0.2 sta in
        let? dir := normalize (fst desired1 + jx, snd desired1 + jy) in
        Some (dir, stb)
    | _, _ =>
        let direction_x := if Rltb (fst pos) (WIDTH C / 2) then 1 else -1 in
        let (direction_y, sta) := uniform (-0.5) 0.5 st in
        let? dir := normalize (direction_x, direction_y) in
        Some (dir, sta)
    end in
  let (timer, st2) := uniform 0 1 st1 in
  let delay := if small then UFO_FIRE_RATE_SMALL C
               else UFO_FIRE_RATE_BIG C in
  let (channel, st3) := find_channel st2 in
  let st4 := match channel with
             | Some ch => channel_play ch (if small then FLY_SMALL else FLY_BIG) st3
             | None => st3
             end in
  Some ({| u_pos := pos; u_small := small; u_r := r; u_speed := UFO_SPEED C;
           u_rect := sprite_rect r; u_dir := dir; u_shoot_timer := timer;
           u_shoot_delay := delay; u_channel := channel |}, st4).

Definition UFO_update (dt : R) (u : UFO) : UFO :=
  let pos := wrap_pos (vadd (u_pos u) (vscale (vscale (u_dir u) (u_speed u)) dt)) in
  {| u_pos := pos; u_small := u_small u; u_r := u_r u; u_speed := u_speed u;
     u_rect := set_center pos (u_rect u); u_dir := u_dir u;
     u_shoot_timer := if Rltb 0 (u_shoot_timer u) then u_shoot_timer u - dt
                      else u_shoot_timer u;
     u_shoot_delay := u_shoot_delay u; u_channel := u_channel u |}.

(** [UFO.fire]: the bullet, if any, and the UFO afterwards. *)
Definition UFO_fire (target_pos : option Vec) (u : UFO) (st : State)
  : option Bullet * UFO * State :=
  if Rltb 0 (u_shoot_timer u) then (None, u, st)
  else
    let u1 := {| u_pos := u_pos u; u_small := u_small u; u_r := u_r u;
                 u_speed := u_speed u; u_rect := u_rect u; u_dir := u_dir u;
                 u_shoot_timer := u_shoot_delay u;
                 u_shoot_delay := u_shoot_delay u;
                 u_channel := u_channel u |} in
    let (angle, st1) :=
      match u_small u, target_pos with
      | true, Some target =>
          let diff := vsub target (u_pos u) in
          let angle := degrees (atan2 (snd diff) (fst diff)) in
          let (j, sta) := uniform (-5) 5 st in
          (angle + j, sta)
      | _, _ => uniform 0 360 st
      end in
    let direction := angle_to_vec angle in
    let spawn_pos := vadd (u_pos u) (vscale direction (u_r u + 10)) in
    let vel := vscale direction (UFO_BULLET_SPEED C) in
    (Some (Bullet_init spawn_pos vel), u1, st1).

(** ** pygame's collision helpers

    A group is iterated through a snapshot of its members
    ([AbstractGroup.sprites()]); the group itself is read again at every
    call. *)

(** [pg.sprite.spritecollide(sprite, group, True, collided)]: every member
    of the snapshot that collides is killed and reported. *)
Fixpoint spritecollide_kill (collided : Obj -> bool) (snap : list nat)
  (st : State) : list nat * State :=
  match snap with
  | [] => ([], st)
  | i :: rest =>
      match get_obj i st with
      | Some o =>
          if collided o then
            let (crashed, st1) := spritecollide_kill collided rest (kill i st) in
            (i :: crashed, st1)
          else spritecollide_kill collided rest st
      | None => spritecollide_kill collided rest st
      end
  end.

(** [pg.sprite.spritecollide(sprite, group, False, collided)]. *)
Definition spritecollide_keep (collided : Obj -> bool) (snap : list nat)
  (st : State) : list nat :=
  filter (fun i => match get_obj i st with
                   | Some o => collided o
                   | None => false
                   end) snap.

(** [pg.sprite.groupcollide(groupa, groupb, dokilla, dokillb, collided)],
    over the snapshot [snapa] of [groupa]: the dictionary it returns, as
    the list of its items in insertion order. *)
Fixpoint groupcollide (collided : Obj -> Obj -> bool)
  (groupb : State -> list nat) (dokilla dokillb : bool)
  (snapa : list nat) (st : State) : list (nat * list nat) * State :=
  match snapa with
  | [] => ([], st)
  | ia :: rest =>
      match get_obj ia st with
      | Some oa =>
          let (collision, st1) :=
            if dokillb then spritecollide_kill (collided oa) (groupb st) st
            else (spritecollide_keep (collided oa) (groupb st) st, st) in
          match collision with
          | [] => groupcollide collided groupb dokilla dokillb rest st1
          | _ :: _ =>
              let st2 := if dokilla then kill ia st1 else st1 in
              let (crashed, st3) :=
                groupcollide collided groupb dokilla dokillb rest st2 in
              ((ia, collision) :: crashed, st3)
          end
      | None => groupcollide collided groupb dokilla dokillb rest st
      end
  end.

(** ** systems.py, [World] *)

Definition center : Vec := (WIDTH C / 2, HEIGHT C / 2).

Definition spawn_asteroid (pos vel : Vec) (size : Size) (st : State) : State :=
  let (asteroid, st1) := Asteroid_init pos vel size st in
  let (i, st2) := alloc (OAsteroid asteroid) st1 in
  set_all_sprites (all_sprites st2 ++ [RObj i])
    (set_asteroids (asteroids st2 ++ [i]) st2).

(** The rejection loop of [start_wave]: [fuel] bounds the number of
    candidates that may be rejected. *)
Fixpoint reject_near (fuel : nat) (pos : Vec) (st : State)
  : option (Vec * State) :=
  if Rltb (vlength (vsub pos (s_pos (ship st)))) 150 then
    match fuel with
    | O => None
    | S fuel' => let (pos', st') := rand_edge_pos st in
                 reject_near fuel' pos' st'
    end
  else Some (pos, st).

(** One turn of the loop of [start_wave]. *)
Definition start_wave_step (fuel : nat) (st : State) : option State :=
  let (pos0, st0) := rand_edge_pos st in
  let? (pos, st1) := reject_near fuel pos0 st0 in
  let (ang, st2) := uniform 0 tau st1 in
  let (speed, st3) := uniform (AST_VEL_MIN C) (AST_VEL_MAX C) st2 in
  let vel := vscale (cos ang, sin ang) speed in
  Some (spawn_asteroid pos vel Large st3).

Fixpoint repeat_step (n : nat) (f : State -> option State) (st : State)
  : option State :=
  match n with
  | O => Some st
  | S n' => let? st1 := f st in repeat_step n' f st1
  end.

Definition start_wave (fuel : nat) (st : State) : option State :=
  let st1 := set_wave (wave st + 1) st in
  let count := (3 + wave st1)%Z in
  repeat_step (Z.to_nat count) (start_wave_step fuel) st1.

(** [World.__init__]: the attributes are set anew; the object store, the
    oracle cursors and the mixer are the runtime's and go on. *)
Definition World_init (fuel : nat) (st : State) : option State :=
  start_wave fuel
    {| ship := Ship_init center;
       bullets := []; enemy_bullets := []; asteroids := []; ufos := [];
       all_sprites := [RShip];
       score := 0; lives := START_LIVES C; wave := 0;
       wave_cool := WAVE_DELAY C; safe := SAFE_SPAWN_TIME C;
       ufo_timer := UFO_SPAWN_EVERY C;
       objs := objs st; rnd_i := rnd_i st; edge_i := edge_i st;
       unit_i := unit_i st; chan_i := chan_i st; audio := audio st |}.

Definition spawn_ufo (st : State) : option State :=
  let (s0, st1) := uniform 0 1 st in
  let small := Rltb s0 0.5 in
  let (y, st2) := uniform 0 (HEIGHT C) st1 in
  let (x0, st3) := uniform 0 1 st2 in
  let x := if Rltb x0 0.5 then 0 else WIDTH C in
  let target_pos := if s_alive (ship st3) then s_pos (ship st3) else center in
  let? (ufo, st4) := UFO_init (x, y) small (Some target_pos) st3 in
  let (i, st5) := alloc (OUfo ufo) st4 in
  Some (set_all_sprites (all_sprites st5 ++ [RObj i])
          (set_ufos (ufos st5 ++ [i]) st5)).

Definition try_fire (st : State) : State :=
  if (MAX_BULLETS C <=? Z.of_nat (length (bullets st)))%Z then st
  else
    match Ship_fire (ship st) with
    | (None, _) => st
    | (Some bullet, ship1) =>
        let st1 := set_ship ship1 st in
        let (i, st2) := alloc (OBullet bullet) st1 in
        play SHOT
          (set_all_sprites (all_sprites st2 ++ [RObj i])
             (set_bullets (bullets st2 ++ [i]) st2))
    end.

Definition Ship_set_pos_vel (pos vel : Vec) (s : Ship) : Ship :=
  {| s_pos := pos; s_vel := vel; s_angle := s_angle s; s_cool := s_cool s;
     s_invuln := s_invuln s; s_alive := s_alive s; s_r := s_r s;
     s_rect := s_rect s |}.

Definition Ship_set_invuln (v : R) (s : Ship) : Ship :=
  {| s_pos := s_pos s; s_vel := s_vel s; s_angle := s_angle s;
     s_cool := s_cool s; s_invuln := v; s_alive := s_alive s; s_r := s_r s;
     s_rect := s_rect s |}.

Definition Ship_set_alive (v : bool) (s : Ship) : Ship :=
  {| s_pos := s_pos s; s_vel := s_vel s; s_angle := s_angle s;
     s_cool := s_cool s; s_invuln := s_invuln s; s_alive := v; s_r := s_r s;
     s_rect := s_rect s |}.

Definition Ship_set_angle (v : R) (s : Ship) : Ship :=
  {| s_pos := s_pos s; s_vel := s_vel s; s_angle := v; s_cool := s_cool s;
     s_invuln := s_invuln s; s_alive := s_alive s; s_r := s_r s;
     s_rect := s_rect s |}.

(** [World.hyperspace]. *)
Definition hyperspace (st : State) : State :=
  if negb (s_alive (ship st)) then st
  else
    let (x, st1) := uniform 0 (WIDTH C) st in
    let (y, st2) := uniform 0 (HEIGHT C) st1 in
    set_ship (Ship_set_pos_vel (x, y) (0, 0) (ship st2)) st2.

(** The branch of [ship_die] that respawns the ship. *)
Definition respawn (st : State) : State :=
  let s1 := Ship_set_pos_vel center (0, 0) (ship st) in
  let s2 := Ship_set_angle (-90) s1 in
  let s3 := Ship_set_invuln (SAFE_SPAWN_TIME C) s2 in
  let st1 := set_safe (SAFE_SPAWN_TIME C) (set_ship s3 st) in
  set_ship (Ship_set_alive true (ship st1)) st1.

(** The state of [ship_die] when it tests [self.lives >= 0]. *)
Definition mark_dead (st : State) : State :=
  let st1 := play BREAK_LARGE st in
  let st2 := set_lives (lives st1 - 1) st1 in
  set_ship (Ship_set_alive false (ship st2)) st2.

Definition ship_die (fuel : nat) (st : State) : option State :=
  if negb (s_alive (ship st)) then Some st
  else
    let st1 := mark_dead st in
    if (0 <=? lives st1)%Z then Some (respawn st1)
    else World_init fuel st1.

Definition split_asteroid (i : nat) (asteroid : Asteroid) (st : State) : State :=
  let st1 := match a_size asteroid with
             | Large => play BREAK_LARGE st
             | _ => play BREAK_MEDIUM st
             end in
  let st2 := set_score (score st1 + AST_score C (a_size asteroid)) st1 in
  let split_sizes := AST_split C (a_size asteroid) in
  let pos := a_pos asteroid in
  let st3 := kill i st2 in
  fold_left
    (fun s size =>
       let (dirv, s1) := rand_unit_vec s in
       let (u, s2) := uniform (AST_VEL_MIN C) (AST_VEL_MAX C) s1 in
       let speed := u * 1.2 in
       spawn_asteroid pos (vscale dirv speed) size s2)
    split_sizes st3.

(** [split_asteroid] on the members of a list that are asteroids. *)
Fixpoint split_all (ids : list nat) (st : State) : State :=
  match ids with
  | [] => st
  | i :: rest =>
      match get_obj i st with
      | Some (OAsteroid a) => split_all rest (split_asteroid i a st)
      | _ => split_all rest st
      end
  end.

(** 1. Player bullets vs asteroids. *)
Definition bullet_hits (a b : Obj) : bool :=
  Rltb (vlength (vsub (obj_pos a) (obj_pos b))) (obj_r a).

Definition bullets_vs_asteroids (st : State) : State :=
  let (hits, st1) :=
    groupcollide bullet_hits bullets false true (asteroids st) st in
  split_all (map fst hits) st1.

(** 2. Collisions that kill the player. *)
Definition touches (s : Ship) (o : Obj) : bool :=
  Rltb (vlength (vsub (obj_pos o) (s_pos s))) (obj_r o + s_r s).

(** [for sprite in group: if dist < sprite.r + ship.r: ship_die(); break]. *)
Fixpoint ship_vs_sprites (fuel : nat) (snap : list nat) (st : State)
  : option State :=
  match snap with
  | [] => Some st
  | i :: rest =>
      match get_obj i st with
      | Some o =>
          if touches (ship st) o then ship_die fuel st
          else ship_vs_sprites fuel rest st
      | None => ship_vs_sprites fuel rest st
      end
  end.

Definition ship_vs_enemy_bullets (fuel : nat) (st : State) : option State :=
  let (hits, st1) :=
    spritecollide_kill
      (fun o => collide_circle (s_rect (ship st)) (obj_rect o))
      (enemy_bullets st) st in
  match hits with
  | [] => Some st1
  | _ :: _ => ship_die fuel st1
  end.

Definition ship_collisions (fuel : nat) (st : State) : option State :=
  if Rleb (s_invuln (ship st)) 0 && Rleb (safe st) 0 then
    let? st1 := ship_vs_sprites fuel (asteroids st) st in
    let? st2 := if s_alive (ship st1)
                then ship_vs_sprites fuel (ufos st1) st1
                else Some st1 in
    if s_alive (ship st2) then ship_vs_enemy_bullets fuel st2
    else Some st2
  else Some st.

(** 3. Player bullets vs UFOs. *)
Fixpoint ufo_vs_bullets (iu : nat) (ufo : UFO) (snap : list nat) (st : State)
  : State :=
  match snap with
  | [] => st
  | ib :: rest =>
      match get_obj ib st with
      | Some (OBullet bullet) =>
          if Rltb (vlength (vsub (u_pos ufo) (b_pos bullet)))
                  (u_r ufo + b_r bullet)
          then
            let sc := if u_small ufo then UFO_SMALL_score C
                      else UFO_BIG_score C in
            let st1 := set_score (score st + sc) st in
            let st2 := UFO_kill iu ufo st1 in
            let st3 := kill ib st2 in
            ufo_vs_bullets iu ufo rest st3
          else ufo_vs_bullets iu ufo rest st
      | _ => ufo_vs_bullets iu ufo rest st
      end
  end.

Fixpoint bullets_vs_ufos_loop (snap : list nat) (st : State) : State :=
  match snap with
  | [] => st
  | iu :: rest =>
      match get_obj iu st with
      | Some (OUfo ufo) =>
          bullets_vs_ufos_loop rest (ufo_vs_bullets iu ufo (bullets st) st)
      | _ => bullets_vs_ufos_loop rest st
      end
  end.

Definition bullets_vs_ufos (st : State) : State :=
  bullets_vs_ufos_loop (ufos st) st.

(** 4. UFOs vs asteroids. *)
Definition crashes_into (u a : Obj) : bool :=
  Rltb (vlength (vsub (obj_pos u) (obj_pos a))) (obj_r u + obj_r a).

Fixpoint crash_loop (crashes : list (nat * list nat)) (st : State) : State :=
  match crashes with
  | [] => st
  | (iu, asteroids_hit) :: rest =>
      let st1 := match get_obj iu st with
                 | Some (OUfo ufo) =>
                     match u_channel ufo with
                     | Some ch => channel_stop ch st
                     | None => st
                     end
                 | _ => st
                 end in
      crash_loop rest (split_all asteroids_hit st1)
  end.

Definition ufos_vs_asteroids (st : State) : State :=
  let (crashes, st1) :=
    groupcollide crashes_into asteroids true false (ufos st) st in
  crash_loop crashes st1.

Definition handle_collisions (fuel : nat) (st : State) : option State :=
  let st1 := bullets_vs_asteroids st in
  let? st2 := ship_collisions fuel st1 in
  let st3 := bullets_vs_ufos st2 in
  Some (ufos_vs_asteroids st3).

(** [sprite.update(dt)], dispatched on the class of the sprite. *)
Definition sprite_update (dt : R) (r : Ref) (st : State) : State :=
  match r with
  | RShip => set_ship (Ship_update dt (ship st)) st
  | RObj i =>
      match get_obj i st with
      | Some (OBullet b) => Bullet_update dt i b st
      | Some (OAsteroid a) => put_obj i (OAsteroid (Asteroid_update dt a)) st
      | Some (OUfo u) => put_obj i (OUfo (UFO_update dt u)) st
      | None => st
      end
  end.

(** [self.all_sprites.update(dt)]. *)
Definition sprites_update (dt : R) (st : State) : State :=
  fold_left (fun s r => sprite_update dt r s) (all_sprites st) st.

(** The loop of [update] over the UFOs. *)
Fixpoint ufos_fire (player_pos : option Vec) (snap : list nat) (st : State)
  : State :=
  match snap with
  | [] => st
  | i :: rest =>
      match get_obj i st with
      | Some (OUfo ufo) =>
          let '(bullet, ufo1, st1) := UFO_fire player_pos ufo st in
          let st2 := put_obj i (OUfo ufo1) st1 in
          let st3 :=
            match bullet with
            | Some b =>
                let (ib, sta) := alloc (OBullet b) st2 in
                set_all_sprites (all_sprites sta ++ [RObj ib])
                  (set_enemy_bullets (enemy_bullets sta ++ [ib]) sta)
            | None => st2
            end in
          ufos_fire player_pos rest st3
      | _ => ufos_fire player_pos rest st
      end
  end.

(** [update] up to the call of [handle_collisions]. *)
Definition update_begin (dt : R) (keys : Keys) (st : State) : option State :=
  let st1 := set_ship (Ship_control keys dt (ship st)) st in
  let st2 := sprites_update dt st1 in
  let player_pos := if s_alive (ship st2) then Some (s_pos (ship st2))
                    else None in
  let st3 := ufos_fire player_pos (ufos st2) st2 in
  let st4 :=
    if Rltb 0 (safe st3)
    then set_ship (Ship_set_invuln 0.5 (ship st3))
           (set_safe (safe st3 - dt) st3)
    else set_ship (Ship_set_invuln (Rmax (s_invuln (ship st3) - dt) 0)
                     (ship st3)) st3 in
  let st5 := set_ufo_timer (ufo_timer st4 - dt) st4 in
  if Rleb (ufo_timer st5) 0 then
    let? st6 := spawn_ufo st5 in
    Some (set_ufo_timer (UFO_SPAWN_EVERY C) st6)
  else Some st5.

(** The end of [update]: the progression of the waves. *)
Definition wave_progress (fuel : nat) (dt : R) (st : State) : option State :=
  match asteroids st with
  | [] =>
      if Rleb (wave_cool st) 0 then
        let? st1 := start_wave fuel st in
        Some (set_wave_cool (WAVE_DELAY C) st1)
      else Some (set_wave_cool (wave_cool st - dt) st)
  | _ :: _ => Some st
  end.

(** [World.update]. *)
Definition update (fuel : nat) (dt : R) (keys : Keys) (st : State)
  : option State :=
  let? st1 := update_begin dt keys st in
  let? st2 := handle_collisions fuel st1 in
  wave_progress fuel dt st2.

End Game.

(** ** Vocabulary of the statements *)

(** The attributes of the world that only [update], [ship_die] and
    [start_wave] write. *)
Definition core (st : State) : Ship * Z * Z * R * R * R :=
  (ship st, lives st, wave st, wave_cool st, safe st, ufo_timer st).

(** The integer attributes of the world. *)
Definition counters (st : State) : Z * Z * Z :=
  (score st, lives st, wave st).

(** [st'] is [st] with the asteroids [l] added, as new objects, and with
    more of the oracle used. *)
Definition adds_asteroids (l : list nat) (st st' : State) : Prop :=
  core st' = core st /\ score st' = score st /\
  bullets st' = bullets st /\ enemy_bullets st' = enemy_bullets st /\
  ufos st' = ufos st /\ audio st' = audio st /\
  asteroids st' = asteroids st ++ l /\
  all_sprites st' = all_sprites st ++ map RObj l /\
  (exists ext, objs st' = objs st ++ ext) /\
  Forall (fun i => (length (objs st) <= i)%nat /\
                   exists a, get_obj i st' = Some (OAsteroid a)) l.

(** The test of the first collision pass, on two stored objects. *)
Definition hit_at (st : State) (ia ib : nat) : bool :=
  match get_obj ia st, get_obj ib st with
  | Some oa, Some ob => bullet_hits oa ob
  | _, _ => false
  end.

(** The score of the asteroid stored at [i], if an asteroid is stored
    there. *)
Definition ast_score_at (C : Config) (st : State) (i : nat) : Z :=
  match get_obj i st with
  | Some (OAsteroid a) => AST_score C (a_size a)
  | _ => 0%Z
  end.

Definition sumZ (l : list Z) : Z := fold_right Z.add 0%Z l.

(** [ch.stop()] when the UFO has a channel. *)
Definition stop_engine (u : UFO) (st : State) : State :=
  match u_channel u with
  | Some ch => channel_stop ch st
  | None => st
  end.

(** Among any [fuel + 1] successive edge positions of the oracle, one is at
    least 150 away from [p]: the rejection loop of [start_wave] ends within
    [fuel] rejections. *)
Definition far_within (Src : Oracle) (fuel : nat) (p : Vec) : Prop :=
  forall i, exists k, (k <= fuel)%nat /\
                      ~ vlength (vsub (edge Src (i + k)) p) < 150.

(** The world as [World.__init__] leaves it. *)
Definition fresh (C : Config) (st : State) : Prop :=
  score st = 0%Z /\ lives st = START_LIVES C /\ wave st = 1%Z /\
  ship st = Ship_init C (center C) /\
  bullets st = [] /\ enemy_bullets st = [] /\ ufos st = [] /\
  length (asteroids st) = 4%nat /\
  all_sprites st = RShip :: map RObj (asteroids st) /\
  wave_cool st = WAVE_DELAY C /\ safe st = SAFE_SPAWN_TIME C /\
  ufo_timer st = UFO_SPAWN_EVERY C.

(** A run of [update] over the frames [(dt, keys)]. *)
Fixpoint updates (C : Config) (Src : Oracle) (fuel : nat)
  (frames : list (R * Keys)) (st : State) : option State :=
  match frames with
  | [] => Some st
  | (dt, keys) :: rest =>
      let? st1 := update C Src fuel dt keys st in
      updates C Src fuel rest st1
  end.

(** Every sprite of [all_sprites] other than the ship is in one of the
    typed groups, and conversely. *)
Definition groups_agree (st : State) : Prop :=
  forall i,
    In (RObj i) (all_sprites st) <->
    In i (bullets st) \/ In i (enemy_bullets st) \/
    In i (asteroids st) \/ In i (ufos st).

(** The score of a UFO. *)
Definition ufo_score (C : Config) (u : UFO) : Z :=
  if u_small u then UFO_SMALL_score C else UFO_BIG_score C.

(** The test of the third collision pass. *)
Definition shot_by (u : UFO) (o : Obj) : bool :=
  match o with
  | OBullet b =>
      Rltb (vlength (vsub (u_pos u) (b_pos b))) (u_r u + b_r b)
  | _ => false
  end.

(** ** The groups as pygame keeps them *)

(** The class of a stored sprite. *)
Inductive Class := KBullet | KAsteroid | KUfo.

Definition class_of (o : Obj) : Class :=
  match o with
  | OBullet _ => KBullet
  | OAsteroid _ => KAsteroid
  | OUfo _ => KUfo
  end.

Definition class_at (st : State) (i : nat) : option Class :=
  option_map class_of (get_obj i st).

(** The typed groups of the world. *)
Inductive Group := GBullets | GEnemyBullets | GAsteroids | GUfos.

Definition members (g : Group) (st : State) : list nat :=
  match g with
  | GBullets => bullets st
  | GEnemyBullets => enemy_bullets st
  | GAsteroids => asteroids st
  | GUfos => ufos st
  end.

Definition group_class (g : Group) : Class :=
  match g with
  | GBullets | GEnemyBullets => KBullet
  | GAsteroids => KAsteroid
  | GUfos => KUfo
  end.

(** Every group holds stored sprites of its class only. *)
Definition groups_typed (st : State) : Prop :=
  forall g i, In i (members g st) -> class_at st i = Some (group_class g).

(** The groups of a world are sets of sprites, and [all_sprites] is the ship
    with the members of the typed groups: no sprite is twice in a group, no
    sprite is in two typed groups, every member of a typed group is a stored
    sprite of the class of the group. *)
Definition world_ok (st : State) : Prop :=
  In RShip (all_sprites st) /\ NoDup (all_sprites st) /\
  groups_agree st /\ groups_typed st /\
  (forall g, NoDup (members g st)) /\
  (forall g g' i, In i (members g st) -> In i (members g' st) -> g = g').

(** What the world shows in its head-up display stays in range and the
    ship is alive. *)
Definition hud_ok (C : Config) (st : State) : Prop :=
  s_alive (ship st) = true /\
  (0 <= lives st <= START_LIVES C)%Z /\ (1 <= wave st)%Z.

(** The groups [update] adds sprites to: all but [bullets]. *)
Definition not_bullets (g : Group) : Prop := g <> GBullets.

(** One change of the sprites of the world that leaves [core] alone: none,
    a sprite killed, a stored sprite replaced by one of its class, a new
    sprite added to a group of its class, one of the groups [grows]
    names. *)
Inductive step_in (grows : Group -> Prop) (st st' : State) : Prop :=
| step_same :
    (forall g, members g st' = members g st) ->
    all_sprites st' = all_sprites st -> objs st' = objs st ->
    core st' = core st -> step_in grows st st'
| step_kill (i : nat) :
    (forall g, members g st' = remove_id i (members g st)) ->
    all_sprites st' = remove_ref i (all_sprites st) ->
    objs st' = objs st ->
    core st' = core st -> step_in grows st st'
| step_put (i : nat) (o o' : Obj) :
    get_obj i st = Some o -> class_of o' = class_of o ->
    (forall g, members g st' = members g st) ->
    all_sprites st' = all_sprites st ->
    objs st' = list_put i o' (objs st) ->
    core st' = core st -> step_in grows st st'
| step_add (g : Group) (o : Obj) :
    grows g ->
    class_of o = group_class g ->
    members g st' = members g st ++ [length (objs st)] ->
    (forall g', g' <> g -> members g' st' = members g' st) ->
    all_sprites st' = all_sprites st ++ [RObj (length (objs st))] ->
    objs st' = objs st ++ [o] ->
    core st' = core st -> step_in grows st st'.

Inductive evolves_in (grows : Group -> Prop) : State -> State -> Prop :=
| evolves_refl st : evolves_in grows st st
| evolves_step st st1 st2 :
    step_in grows st st1 -> evolves_in grows st1 st2 ->
    evolves_in grows st st2.

(** The calls a game makes on its world. *)
Inductive Call :=
| CallUpdate (dt : R) (keys : Keys)
| CallTryFire
| CallHyperspace.

Definition call (C : Config) (Src : Oracle) (fuel : nat) (c : Call)
  (st : State) : option State :=
  match c with
  | CallUpdate dt keys => update C Src fuel dt keys st
  | CallTryFire => Some (try_fire C st)
  | CallHyperspace => Some (hyperspace C Src st)
  end.

Fixpoint calls (C : Config) (Src : Oracle) (fuel : nat) (cs : list Call)
  (st : State) : option State :=
  match cs with
  | [] => Some st
  | c :: rest =>
      let? st1 := call C Src fuel c st in
      calls C Src fuel rest st1
  end.

(** The random numbers are those of [random.random()]. *)
Definition rnd_unit (Src : Oracle) : Prop := forall n, 0 <= rnd Src n <= 1.

(** The test of the third collision pass on the sprite stored at [ib]. *)
Definition shot_at (st : State) (u : UFO) (ib : nat) : bool :=
  match get_obj ib st with
  | Some o => shot_by u o
  | None => false
  end.

(** The player bullets within reach of the UFO [u]. *)
Definition shots_on (st : State) (u : UFO) : list nat :=
  filter (shot_at st u) (bullets st).

(** An asteroid as [start_wave] makes it for a ship at [p]. *)
Definition wave_asteroid (C : Config) (Src : Oracle) (p : Vec)
  (a : Asteroid) : Prop :=
  a_size a = Large /\ a_r a = AST_r C Large /\
  150 <= vlength (vsub (a_pos a) p) /\
  (rnd_unit Src -> 0 <= AST_VEL_MIN C <= AST_VEL_MAX C ->
   AST_VEL_MIN C <= vlength (a_vel a) <= AST_VEL_MAX C).

(** A piece of size [size] as [split_asteroid] makes it of [parent]. *)
Definition piece_of (C : Config) (Src : Oracle) (parent : Asteroid)
  (size : Size) (a : Asteroid) : Prop :=
  a_size a = size /\ a_r a = AST_r C size /\ a_pos a = a_pos parent /\
  (rnd_unit Src -> (forall n, vlength (unitv Src n) = 1) ->
   0 <= AST_VEL_MIN C <= AST_VEL_MAX C ->
   AST_VEL_MIN C * 1.2 <= vlength (a_vel a) <= AST_VEL_MAX C * 1.2).

(** The UFO stored at [i], if any, fires at its next call of [fire]. *)
Definition ufo_ready (st : State) (i : nat) : bool :=
  match get_obj i st with
  | Some (OUfo u) => negb (Rltb 0 (u_shoot_timer u))
  | _ => false
  end.

(** A bullet as its constructor leaves it: its rect is at the origin. *)
Definition unplaced_bullet (C : Config) (b : Bullet) : Prop :=
  b_ttl b = BULLET_TTL C /\ b_r b = BULLET_RADIUS C /\
  b_rect b = sprite_rect (BULLET_RADIUS C) /\
  rx (b_rect b) = 0%Z /\ ry (b_rect b) = 0%Z.

(** A position inside the arena. *)
Definition in_arena (C : Config) (p : Vec) : Prop :=
  0 <= fst p < WIDTH C /\ 0 <= snd p < HEIGHT C.

(** The test of the loops of the second collision pass on the sprite
    stored at [i]. *)
Definition touched (st : State) (i : nat) : bool :=
  match get_obj i st with
  | Some o => touches (ship st) o
  | None => false
  end.

(** [collide_circle] of the ship and the sprite stored at [i]. *)
Definition circles_meet (st : State) (i : nat) : bool :=
  match get_obj i st with
  | Some o => collide_circle (s_rect (ship st)) (obj_rect o)
  | None => false
  end.

(** The asteroids the UFO stored at [iu] overlaps. *)
Definition crashed_by (st : State) (iu : nat) : list nat :=
  match get_obj iu st with
  | Some ou => spritecollide_keep (crashes_into ou) (asteroids st) st
  | None => []
  end.

(** The world holds no more player bullets than [MAX_BULLETS]. *)
Definition capped (C : Config) (st : State) : Prop :=
  (Z.of_nat (length (bullets st)) <= MAX_BULLETS C)%Z.

(** ** Closed examples

    A configuration with the customary values of the game, for the examples
    that need concrete numbers.  No general theorem depends on it. *)

Definition example_config : Config :=
  {| WIDTH := 960; HEIGHT := 720; START_LIVES := 3%Z; WAVE_DELAY := 2;
     SAFE_SPAWN_TIME := 2; UFO_SPAWN_EVERY := 15; MAX_BULLETS := 4%Z;
     AST_VEL_MIN := 30; AST_VEL_MAX := 90;
     AST_r := fun s => match s with Large => 46 | Medium => 24 | Small => 12 end;
     AST_score := fun s => match s with Large => 20 | Medium => 50 | Small => 100 end%Z;
     AST_split := fun s => match s with
                           | Large => [Medium; Medium]
                           | Medium => [Small; Small]
                           | Small => []
                           end;
     BULLET_TTL := 1; BULLET_RADIUS := 2; SHIP_RADIUS := 15;
     SHIP_TURN_SPEED := 220; SHIP_THRUST := 220; SHIP_FRICTION := 0.995;
     SHIP_FIRE_RATE := 0.2; SHIP_BULLET_SPEED := 420; UFO_SPEED := 80;
     UFO_SMALL_r := 12; UFO_SMALL_score := 1000%Z;
     UFO_BIG_r := 18; UFO_BIG_score := 200%Z;
     UFO_FIRE_RATE_SMALL := 0.8; UFO_FIRE_RATE_BIG := 1.2;
     UFO_BULLET_SPEED := 260 |}.

(** An oracle: every random number is 1/2, every edge position is the
    corner (0, 0), every unit vector is (1, 0), and the mixer has a free
    channel at every request. *)
Definition example_oracle : Oracle :=
  {| rnd := fun _ => 0.5; edge := fun _ => (0, 0); unitv := fun _ => (1, 0);
     chan := fun n => Some n |}.

(** A ship at rest in the middle of the arena, both timers at [t]. *)
Definition ship_at_rest (t : R) : Ship :=
  {| s_pos := (480, 360); s_vel := (0, 0); s_angle := -90; s_cool := t;
     s_invuln := t; s_alive := true; s_r := 15;
     s_rect := set_center (480, 360) (sprite_rect 15) |}.

Definition no_keys : Keys :=
  {| K_LEFT := false; K_RIGHT := false; K_UP := false |}.

(** The last asteroid is gone and the wave delay has run out. *)
Definition st_wave_due : State :=
  {| ship := ship_at_rest 0; bullets := []; enemy_bullets := [];
     asteroids := []; ufos := []; all_sprites := [RShip];
     score := 70; lives := 2; wave := 2; wave_cool := 0; safe := 0;
     ufo_timer := 15; objs := []; rnd_i := 0; edge_i := 0; unit_i := 0;
     chan_i := 0; audio := [] |}.

(** [st_wave_due] after the first part of [update], with [dt] = 1/8 and no
    key pressed. *)
Definition st_wave_due_1 : State :=
  set_ufo_timer (15 - 1 / 8)
    (set_ship
       (Ship_set_invuln (Rmax (0 - 1 / 8) 0)
          (Ship_update example_config (1 / 8)
             (Ship_control example_config no_keys (1 / 8) (ship_at_rest 0))))
       st_wave_due).

(** A silhouette as the constructor of an asteroid draws it. *)
Definition example_poly (size : Size) : list Vec :=
  fst (make_poly example_oracle size (AST_r example_config size) st_wave_due).

Arguments example_poly : simpl never.

(** An asteroid at [pos]. *)
Definition example_asteroid (pos vel : Vec) (size : Size) : Asteroid :=
  {| a_pos := pos; a_vel := vel; a_size := size;
     a_r := AST_r example_config size; a_poly := example_poly size;
     a_rect := set_center pos (sprite_rect (AST_r example_config size)) |}.

(** A big UFO at [pos] that flies to the right, [timer] seconds before its
    next shot, with the engine sound on channel [ch]. *)
Definition example_ufo (pos : Vec) (timer : R) (ch : nat) : UFO :=
  {| u_pos := pos; u_small := false; u_r := 18; u_speed := 80;
     u_rect := set_center pos (sprite_rect 18); u_dir := (1, 0);
     u_shoot_timer := timer; u_shoot_delay := 1.2; u_channel := Some ch |}.

(** A world late in the first wave: three of its four asteroids were shot
    to dust (3 large, 6 medium and 12 small ones: 1560 points); the last
    one, object 0, drifts to the right at speed 40, and a big UFO, object 1,
    has its engine on channel 7.  The ship rests in the middle of the arena
    with no protection left. *)
Definition st_contact (asteroid_pos ufo_pos : Vec) (shoot_timer timer : R)
  (n_lives : Z) : State :=
  {| ship := ship_at_rest 0; bullets := []; enemy_bullets := [];
     asteroids := [0%nat]; ufos := [1%nat];
     all_sprites := [RShip; RObj 0; RObj 1];
     score := 1560; lives := n_lives; wave := 1; wave_cool := 2; safe := 0;
     ufo_timer := timer;
     objs := [OAsteroid (example_asteroid asteroid_pos (40, 0) Large);
              OUfo (example_ufo ufo_pos shoot_timer 7)];
     rnd_i := 0; edge_i := 0; unit_i := 0; chan_i := 0;
     audio := [ChannelPlay 7 FLY_BIG] |}.

(** The last life; the asteroid is 5 to the left of the ship, the UFO is
    far away. *)
Definition st_last_life : State :=
  st_contact (475, 360) (100, 100) (1 / 2) 15 0.

(** Three lives; the asteroid is 5 and the UFO 10 to the left of the
    ship. *)
Definition st_overlap : State :=
  st_contact (475, 360) (470, 360) (1 / 2) 15 3.

(** [st_overlap] at the collisions of its frame, but with the ship still in
    its safe window. *)
Definition st_safe_crash : State :=
  set_safe 1 (st_contact (480, 360) (480, 360) (3 / 8) 15 3).

(** A player bullet, object 1, in the middle of a large asteroid,
    object 0. *)
Definition st_shot : State :=
  {| ship := ship_at_rest 0; bullets := [1%nat]; enemy_bullets := [];
     asteroids := [0%nat]; ufos := [];
     all_sprites := [RShip; RObj 0; RObj 1];
     score := 0; lives := 3; wave := 1; wave_cool := 2; safe := 1;
     ufo_timer := 15;
     objs := [OAsteroid (example_asteroid (200, 100) (40, 0) Large);
              OBullet {| b_pos := (200, 100); b_vel := (0, -420);
                         b_ttl := 1 / 2; b_r := 2;
                         b_rect := set_center (200, 100) (sprite_rect 2) |}];
     rnd_i := 0; edge_i := 0; unit_i := 0; chan_i := 0; audio := [] |}.

(** An oracle whose edge positions alternate between two opposite corners
    of the arena of [example_config]: whatever the place of the ship, one
    of any two successive positions is far from it. *)
Definition spread_oracle : Oracle :=
  {| rnd := fun _ => 0.5;
     edge := fun n => if Nat.even n then (0, 0) else (960, 720);
     unitv := fun _ => (1, 0);
     chan := fun n => Some n |}.

(** [st_wave_due] with the ship protected for [t] seconds more. *)
Definition st_invulnerable (t : R) : State :=
  set_ship (ship_at_rest t) st_wave_due.

(** A big UFO, object 0, with two player bullets, objects 1 and 2, in the
    middle of it. *)
Definition st_two_shots : State :=
  {| ship := ship_at_rest 0; bullets := [1%nat; 2%nat]; enemy_bullets := [];
     asteroids := []; ufos := [0%nat];
     all_sprites := [RShip; RObj 0; RObj 1; RObj 2];
     score := 0; lives := 3; wave := 1; wave_cool := 2; safe := 0;
     ufo_timer := 15;
     objs := [OUfo (example_ufo (100, 100) 1 7);
              OBullet {| b_pos := (100, 100); b_vel := (0, -420);
                         b_ttl := 1 / 2; b_r := 2;
                         b_rect := set_center (100, 100) (sprite_rect 2) |};
              OBullet {| b_pos := (100, 100); b_vel := (420, 0);
                         b_ttl := 1 / 4; b_r := 2;
                         b_rect := set_center (100, 100) (sprite_rect 2) |}];
     rnd_i := 0; edge_i := 0; unit_i := 0; chan_i := 0;
     audio := [ChannelPlay 7 FLY_BIG] |}.

(** * Properties

    ** Comparisons *)

Lemma Rltb_true a b : a < b -> Rltb a b = true.
Proof. intro H. unfold Rltb. destruct (Rlt_dec a b); [reflexivity | contradiction]. Qed.

Lemma Rltb_false a b : ~ a < b -> Rltb a b = false.
Proof. intro H. unfold Rltb. destruct (Rlt_dec a b); [contradiction | reflexivity]. Qed.

Lemma Rleb_true a b : a <= b -> Rleb a b = true.
Proof. intro H. unfold Rleb. destruct (Rle_dec a b); [reflexivity | contradiction]. Qed.

Lemma Rleb_false a b : ~ a <= b -> Rleb a b = false.
Proof. intro H. unfold Rleb. destruct (Rle_dec a b); [contradiction | reflexivity]. Qed.

Lemma Rltb_spec a b : Rltb a b = true <-> a < b.
Proof. unfold Rltb. destruct (Rlt_dec a b); split; auto; discriminate. Qed.

Lemma Rleb_spec a b : Rleb a b = true <-> a <= b.
Proof. unfold Rleb. destruct (Rle_dec a b); split; auto; discriminate. Qed.


(** ** The ship *)

(** C6, as the spec states it, fails: a timer smaller than [dt] ends
    below zero.  With both timers at 1/4 and [dt] = 1/2, [Ship.update]
    leaves both at -1/4. *)
Lemma Ship_update_not_clamped :
  s_cool (Ship_update example_config (1/2) (ship_at_rest (1/4))) < 0 /\
  s_invuln (Ship_update example_config (1/2) (ship_at_rest (1/4))) < 0.
Proof.
  unfold Ship_update; simpl.
  rewrite (Rltb_true 0 (1/4)) by lra. lra.
Qed.

(** C6, amended: [Ship.update(dt)] subtracts [dt] from the fire cooldown
    and from the invulnerability timer while the timer is positive and
    leaves a timer that is not positive as it is.  Nothing is clamped: for
    [dt >= 0] a timer that starts non-negative ends at [-dt] or above, and it ends
    non-negative when it starts at zero or at [dt] or more. *)
Theorem Ship_update_timers (C : Config) (dt : R) (s : Ship) :
  0 <= dt ->
  (0 < s_cool s -> s_cool (Ship_update C dt s) = s_cool s - dt) /\
  (s_cool s <= 0 -> s_cool (Ship_update C dt s) = s_cool s) /\
  (0 < s_invuln s -> s_invuln (Ship_update C dt s) = s_invuln s - dt) /\
  (s_invuln s <= 0 -> s_invuln (Ship_update C dt s) = s_invuln s) /\
  (0 <= s_cool s -> - dt <= s_cool (Ship_update C dt s)) /\
  (0 <= s_invuln s -> - dt <= s_invuln (Ship_update C dt s)) /\
  (s_cool s = 0 \/ dt <= s_cool s -> 0 <= s_cool (Ship_update C dt s)) /\
  (s_invuln s = 0 \/ dt <= s_invuln s -> 0 <= s_invuln (Ship_update C dt s)).
Proof.
  intro Hdt. unfold Ship_update; simpl.
  unfold Rltb.
  destruct (Rlt_dec 0 (s_cool s)); destruct (Rlt_dec 0 (s_invuln s));
    repeat split; intros;
    try match goal with H : _ \/ _ |- _ => destruct H end; lra.
Qed.

Lemma Ship_update_timers_witness :
  s_cool (Ship_update example_config (1/2) (ship_at_rest (1/4))) =
  s_cool (ship_at_rest (1/4)) - 1/2.
Proof.
  destruct (Ship_update_timers example_config (1/2) (ship_at_rest (1/4)))
    as [H _]; [lra | ].
  apply H. simpl. lra.
Defined.

(** C8: [Ship.fire()] returns a bullet exactly when the cooldown is not
    positive.  The bullet then starts [r + 6] ahead of the ship along its
    facing, its velocity is the ship's plus the muzzle velocity along the
    facing, and the cooldown becomes [SHIP_FIRE_RATE]; nothing else of the
    ship changes.  While the cooldown is positive there is no bullet and the
    ship, and through [try_fire] the world, stay as they are. *)
Theorem Ship_fire_spec (C : Config) (s : Ship) :
  ((exists b, fst (Ship_fire C s) = Some b) <-> s_cool s <= 0) /\
  (s_cool s <= 0 ->
   exists b s',
     Ship_fire C s = (Some b, s') /\
     b_pos b = vadd (s_pos s) (vscale (angle_to_vec (s_angle s)) (s_r s + 6)) /\
     b_vel b = vadd (s_vel s)
                 (vscale (angle_to_vec (s_angle s)) (SHIP_BULLET_SPEED C)) /\
     b_ttl b = BULLET_TTL C /\ b_r b = BULLET_RADIUS C /\
     s_cool s' = SHIP_FIRE_RATE C /\
     s_pos s' = s_pos s /\ s_vel s' = s_vel s /\ s_angle s' = s_angle s /\
     s_invuln s' = s_invuln s /\ s_alive s' = s_alive s /\ s_r s' = s_r s /\
     s_rect s' = s_rect s) /\
  (0 < s_cool s -> Ship_fire C s = (None, s)) /\
  (forall st, 0 < s_cool (ship st) -> try_fire C st = st).
Proof.
  unfold Ship_fire, Rltb.
  destruct (Rlt_dec 0 (s_cool s)) as [Hpos | Hnpos].
  - split; [ | split; [ | split ] ].
    + split; [intros [b Hb]; discriminate | intro; lra].
    + intro; lra.
    + reflexivity.
    + intros st Hst. unfold try_fire, Ship_fire.
      rewrite (Rltb_true _ _ Hst). destruct (_ <=? _)%Z; reflexivity.
  - split; [ | split; [ | split ] ].
    + split; [intro; lra | intro; eexists; reflexivity].
    + intro. do 2 eexists. split; [reflexivity | ]. simpl. tauto.
    + intro; lra.
    + intros st Hst. unfold try_fire, Ship_fire.
      rewrite (Rltb_true _ _ Hst). destruct (_ <=? _)%Z; reflexivity.
Qed.

Lemma Ship_fire_spec_witness :
  exists b s',
    Ship_fire example_config (ship_at_rest 0) = (Some b, s') /\
    s_cool s' = SHIP_FIRE_RATE example_config.
Proof.
  destruct (Ship_fire_spec example_config (ship_at_rest 0))
    as (_ & H & _).
  destruct H as (b & s' & H1 & _ & _ & _ & _ & H2 & _); [simpl; lra | ].
  exists b, s'. split; assumption.
Defined.

(** ** What the helpers leave alone *)

Lemma kill_core i st : core (kill i st) = core st.
Proof.
  unfold kill. destruct (get_obj i st) as [[b|a|u]|]; try reflexivity.
  unfold UFO_kill. destruct (u_channel u); reflexivity.
Qed.

Lemma kill_score i st : score (kill i st) = score st.
Proof.
  unfold kill. destruct (get_obj i st) as [[b|a|u]|]; try reflexivity.
  unfold UFO_kill. destruct (u_channel u); reflexivity.
Qed.

Lemma kill_objs i st : objs (kill i st) = objs st.
Proof.
  unfold kill. destruct (get_obj i st) as [[b|a|u]|]; try reflexivity.
  unfold UFO_kill. destruct (u_channel u); reflexivity.
Qed.

Lemma get_obj_kill i j st : get_obj j (kill i st) = get_obj j st.
Proof. unfold get_obj. now rewrite kill_objs. Qed.

Lemma spritecollide_kill_frame f snap st :
  core (snd (spritecollide_kill f snap st)) = core st /\
  score (snd (spritecollide_kill f snap st)) = score st /\
  objs (snd (spritecollide_kill f snap st)) = objs st.
Proof.
  revert st. induction snap as [|i rest IH]; intro st; simpl; auto.
  destruct (get_obj i st) as [o|]; auto.
  destruct (f o); auto.
  specialize (IH (kill i st)).
  destruct (spritecollide_kill f rest (kill i st)) as [cr st1]. simpl in *.
  rewrite kill_core, kill_score, kill_objs in IH. exact IH.
Qed.

Lemma groupcollide_frame f gb ka kb snap st :
  core (snd (groupcollide f gb ka kb snap st)) = core st /\
  score (snd (groupcollide f gb ka kb snap st)) = score st /\
  objs (snd (groupcollide f gb ka kb snap st)) = objs st.
Proof.
  revert st. induction snap as [|i rest IH]; intro st; simpl; auto.
  destruct (get_obj i st) as [o|]; auto.
  destruct kb.
  - pose proof (spritecollide_kill_frame (f o) (gb st) st) as Hs.
    destruct (spritecollide_kill (f o) (gb st) st) as [col st1].
    simpl in Hs. destruct Hs as (Hc & Hsc & Ho).
    destruct col as [|c col].
    + rewrite <- Hc, <- Hsc, <- Ho. apply IH.
    + specialize (IH (if ka then kill i st1 else st1)).
      destruct (groupcollide f gb ka true rest _) as [cr st3]. simpl in *.
      destruct ka; [rewrite kill_core, kill_score, kill_objs in IH | ];
        rewrite Hc, Hsc, Ho in IH; exact IH.
  - destruct (spritecollide_keep (f o) (gb st) st) as [|c col]; [apply IH | ].
    specialize (IH (if ka then kill i st else st)).
    destruct (groupcollide f gb ka false rest _) as [cr st3]. simpl in *.
    destruct ka; [rewrite kill_core, kill_score, kill_objs in IH | ];
      exact IH.
Qed.

(** ** Adding asteroids *)

Lemma adds_asteroids_refl st : adds_asteroids [] st st.
Proof.
  unfold adds_asteroids. rewrite !app_nil_r. repeat split; auto.
  exists []. now rewrite app_nil_r.
Qed.

Lemma adds_asteroids_trans l1 l2 st st1 st2 :
  adds_asteroids l1 st st1 -> adds_asteroids l2 st1 st2 ->
  adds_asteroids (l1 ++ l2) st st2.
Proof.
  intros (A1 & A2 & A3 & A4 & A5 & A6 & A7 & A8 & [e1 A9] & A10)
         (B1 & B2 & B3 & B4 & B5 & B6 & B7 & B8 & [e2 B9] & B10).
  unfold adds_asteroids.
  rewrite B1, B2, B3, B4, B5, B6, B7, B8, A7, A8, map_app, !app_assoc.
  repeat split; auto.
  - exists (e1 ++ e2). now rewrite B9, A9, app_assoc.
  - apply Forall_app. split.
    + eapply Forall_impl; [ | exact A10]. intros i [Hi [a Ha]]. split; [exact Hi | ].
      exists a. unfold get_obj in *. rewrite B9.
      rewrite nth_error_app1; [exact Ha | ].
      apply nth_error_Some. congruence.
    + eapply Forall_impl; [ | exact B10]. intros i [Hi Ha]. split; [ | exact Ha].
      rewrite A9, length_app in Hi. lia.
Qed.

Lemma poly_points_snd Src r steps range st :
  snd (poly_points Src r steps range st)
  = set_rnd_i (length range + rnd_i st) st.
Proof.
  revert st. induction range as [|i rest IH]; intro st; simpl.
  - destruct st; reflexivity.
  - specialize (IH (set_rnd_i (S (rnd_i st)) st)).
    destruct (poly_points Src r steps rest _) as [pts st2]. simpl in *.
    rewrite IH. unfold set_rnd_i; simpl. f_equal. lia.
Qed.

Lemma spawn_asteroid_eq C Src pos vel size st :
  exists a,
    spawn_asteroid C Src pos vel size st
    = set_all_sprites (all_sprites st ++ [RObj (length (objs st))])
        (set_asteroids (asteroids st ++ [length (objs st)])
           (set_objs (objs st ++ [OAsteroid a])
              (set_rnd_i (poly_steps size + rnd_i st) st))) /\
    a_pos a = pos /\ a_vel a = vel /\ a_size a = size /\
    a_r a = AST_r C size.
Proof.
  unfold spawn_asteroid, Asteroid_init, make_poly.
  pose proof (poly_points_snd Src (AST_r C size) (poly_steps size)
                (seq 0 (poly_steps size)) st) as H.
  destruct (poly_points Src _ _ _ st) as [poly st1]. simpl in H. subst st1.
  rewrite length_seq. eexists. split; [reflexivity | ]. simpl. auto.
Qed.

Lemma nth_error_snoc {A} (l : list A) (x : A) :
  nth_error (l ++ [x]) (length l) = Some x.
Proof. rewrite nth_error_app2, Nat.sub_diag by lia. reflexivity. Qed.

Lemma spawn_asteroid_adds C Src pos vel size st :
  adds_asteroids [length (objs st)] st (spawn_asteroid C Src pos vel size st).
Proof.
  destruct (spawn_asteroid_eq C Src pos vel size st) as (a & -> & _).
  unfold adds_asteroids; simpl. repeat split; auto.
  - eexists; reflexivity.
  - constructor; [ | constructor]. split; [lia | ].
    exists a. unfold get_obj; simpl. apply nth_error_snoc.
Qed.

Lemma uniform_adds Src a b st : adds_asteroids [] st (snd (uniform Src a b st)).
Proof.
  unfold adds_asteroids; simpl. rewrite !app_nil_r. repeat split; auto.
  exists []. now rewrite app_nil_r.
Qed.

Lemma rand_edge_pos_adds Src st :
  adds_asteroids [] st (snd (rand_edge_pos Src st)).
Proof.
  unfold adds_asteroids; simpl. rewrite !app_nil_r. repeat split; auto.
  exists []. now rewrite app_nil_r.
Qed.

Lemma rand_unit_vec_adds Src st :
  adds_asteroids [] st (snd (rand_unit_vec Src st)).
Proof.
  unfold adds_asteroids; simpl. rewrite !app_nil_r. repeat split; auto.
  exists []. now rewrite app_nil_r.
Qed.

Lemma adds_asteroids_ship l st st' :
  adds_asteroids l st st' -> ship st' = ship st.
Proof. intros (H & _). unfold core in H. congruence. Qed.

(** ** The rejection loop *)

Lemma reject_near_adds Src fuel pos st pos' st' :
  reject_near Src fuel pos st = Some (pos', st') ->
  adds_asteroids [] st st' /\
  ~ vlength (vsub pos' (s_pos (ship st))) < 150.
Proof.
  revert pos st. induction fuel as [|fuel IH]; intros pos st; simpl.
  - destruct (Rltb _ 150) eqn:E; [discriminate | ].
    intro H; injection H as <- <-. split; [apply adds_asteroids_refl | ].
    intro Hlt. apply Rltb_true in Hlt. congruence.
  - destruct (Rltb _ 150) eqn:E.
    + intro H. apply IH in H. simpl in H. destruct H as [H1 H2].
      split; [ | exact H2].
      apply (adds_asteroids_trans [] [] _ _ _ (rand_edge_pos_adds Src st) H1).
    + intro H; injection H as <- <-. split; [apply adds_asteroids_refl | ].
      intro Hlt. apply Rltb_true in Hlt. congruence.
Qed.

Lemma reject_near_total Src fuel pos st :
  (~ vlength (vsub pos (s_pos (ship st))) < 150 \/
   exists k, (k < fuel)%nat /\
     ~ vlength (vsub (edge Src (edge_i st + k)) (s_pos (ship st))) < 150) ->
  exists r, reject_near Src fuel pos st = Some r.
Proof.
  revert pos st. induction fuel as [|fuel IH]; intros pos st H; simpl.
  - destruct H as [H | (k & Hk & _)]; [ | lia].
    rewrite (Rltb_false _ _ H). eexists; reflexivity.
  - destruct (Rltb _ 150) eqn:E; [ | eexists; reflexivity].
    destruct H as [H | (k & Hk & H)].
    + apply Rltb_false in H. congruence.
    + apply IH. simpl. destruct k as [|k].
      * left. now rewrite Nat.add_0_r in H.
      * right. exists k. split; [lia | ].
        replace (edge_i st + S k)%nat with (S (edge_i st + k)) in H by lia.
        exact H.
Qed.

(** ** Starting a wave *)

Lemma start_wave_step_adds C Src fuel st st' :
  start_wave_step C Src fuel st = Some st' ->
  exists i, adds_asteroids [i] st st'.
Proof.
  unfold start_wave_step. simpl.
  destruct (reject_near Src fuel _ _) as [[pos st1]|] eqn:E; [ | discriminate].
  apply reject_near_adds in E. destruct E as [E _]. simpl.
  intro H; injection H as <-.
  eexists.
  apply (adds_asteroids_trans [] [_] _ _ _ (rand_edge_pos_adds Src st)).
  apply (adds_asteroids_trans [] [_] _ _ _ E).
  apply (adds_asteroids_trans [] [_] _ _ _ (uniform_adds Src 0 tau st1)).
  apply (adds_asteroids_trans [] [_] _ _ _
           (uniform_adds Src (AST_VEL_MIN C) (AST_VEL_MAX C)
              (snd (uniform Src 0 tau st1)))).
  apply spawn_asteroid_adds.
Qed.

Lemma start_wave_step_total C Src fuel st :
  far_within Src fuel (s_pos (ship st)) ->
  exists st', start_wave_step C Src fuel st = Some st'.
Proof.
  intro Hfar. unfold start_wave_step. simpl.
  destruct (reject_near_total Src fuel (edge Src (edge_i st))
              (set_edge_i (S (edge_i st)) st)) as [[pos st1] ->].
  - simpl. destruct (Hfar (edge_i st)) as (k & Hk & Hk').
    destruct k as [|k].
    + left. now rewrite Nat.add_0_r in Hk'.
    + right. exists k. split; [lia | ].
      replace (edge_i st + S k)%nat with (S (edge_i st + k)) in Hk' by lia.
      exact Hk'.
  - eexists; reflexivity.
Qed.

Lemma repeat_step_adds C Src fuel n st st' :
  repeat_step n (start_wave_step C Src fuel) st = Some st' ->
  exists l, length l = n /\ adds_asteroids l st st'.
Proof.
  revert st. induction n as [|n IH]; intro st; simpl.
  - intro H; injection H as <-. exists []. split; [reflexivity | ].
    apply adds_asteroids_refl.
  - destruct (start_wave_step C Src fuel st) as [st1|] eqn:E; [ | discriminate].
    intro H. apply IH in H. destruct H as (l & Hl & Hadd).
    apply start_wave_step_adds in E. destruct E as [i Hi].
    exists ([i] ++ l). split; [simpl; lia | ].
    eapply adds_asteroids_trans; eassumption.
Qed.

Lemma repeat_step_total C Src fuel n st :
  far_within Src fuel (s_pos (ship st)) ->
  exists st', repeat_step n (start_wave_step C Src fuel) st = Some st'.
Proof.
  revert st. induction n as [|n IH]; intros st Hfar; simpl.
  - eexists; reflexivity.
  - destruct (start_wave_step_total C Src fuel st Hfar) as [st1 E].
    rewrite E. apply IH.
    apply start_wave_step_adds in E. destruct E as [i Hi].
    now rewrite (adds_asteroids_ship _ _ _ Hi).
Qed.

Lemma start_wave_adds C Src fuel st st' :
  start_wave C Src fuel st = Some st' ->
  exists l, length l = Z.to_nat (3 + (wave st + 1)) /\
            adds_asteroids l (set_wave (wave st + 1) st) st'.
Proof. unfold start_wave. simpl. apply repeat_step_adds. Qed.

Lemma start_wave_total C Src fuel st :
  far_within Src fuel (s_pos (ship st)) ->
  exists st', start_wave C Src fuel st = Some st'.
Proof. intro H. unfold start_wave. apply repeat_step_total. exact H. Qed.

Lemma World_init_fresh C Src fuel st st' :
  World_init C Src fuel st = Some st' ->
  fresh C st' /\ audio st' = audio st /\
  (exists ext, objs st' = objs st ++ ext) /\
  Forall (fun i => (length (objs st) <= i)%nat /\
                   exists a, get_obj i st' = Some (OAsteroid a))
         (asteroids st').
Proof.
  unfold World_init. intro H. apply start_wave_adds in H.
  destruct H as (l & Hl & Hadd). simpl in Hl.
  destruct Hadd as (A1 & A2 & A3 & A4 & A5 & A6 & A7 & A8 & A9 & A10).
  simpl in *. unfold core in A1. simpl in A1.
  injection A1 as ? ? ? ? ? ?.
  unfold fresh. rewrite A7, A8.
  repeat split; auto.
Qed.

Lemma World_init_total C Src fuel st :
  far_within Src fuel (center C) ->
  exists st', World_init C Src fuel st = Some st'.
Proof. intro H. unfold World_init. apply start_wave_total. exact H. Qed.

(** ** Death of the ship *)

Lemma sqrt_not_lt x c : 0 <= c -> c * c <= x -> ~ sqrt x < c.
Proof.
  intros Hc Hx Hlt.
  assert (H : sqrt (c * c) <= sqrt x) by (apply sqrt_le_1_alt; exact Hx).
  rewrite sqrt_square in H by exact Hc. lra.
Qed.

Lemma example_far fuel : far_within example_oracle fuel (center example_config).
Proof.
  intro i. exists 0%nat. split; [lia | ].
  unfold vlength, vsub, center; simpl.
  apply sqrt_not_lt; lra.
Qed.

Lemma filter_ship_objs (l : list nat) :
  filter (fun r => match r with RShip => true | RObj _ => false end)
         (map RObj l) = [].
Proof. induction l; simpl; auto. Qed.

Lemma respawn_eq C st :
  respawn C (mark_dead st)
  = set_ship
      {| s_pos := center C; s_vel := (0, 0); s_angle := -90;
         s_cool := s_cool (ship st); s_invuln := SAFE_SPAWN_TIME C;
         s_alive := true; s_r := s_r (ship st); s_rect := s_rect (ship st) |}
      (set_safe (SAFE_SPAWN_TIME C)
         (set_lives (lives st - 1) (play BREAK_LARGE st))).
Proof. reflexivity. Qed.

(** C4: when the ship dies and the decrement makes [lives] negative, the
    world is initialised anew: score, lives and wave are those of a new
    world (0, [START_LIVES], 1), the groups are rebuilt (no bullets, no
    UFOs, the asteroids of the first wave as new objects) and
    [all_sprites] holds exactly one ship.  When [lives] stays at zero or
    above, the ship comes back alive at the center of the arena with zero
    velocity, facing -90 degrees as a new ship does, with
    [SAFE_SPAWN_TIME] of invulnerability and of safe time; the score and
    the groups are untouched. *)
Theorem ship_die_spec (C : Config) (Src : Oracle) (fuel : nat) (st : State) :
  s_alive (ship st) = true ->
  ((lives st - 1 < 0)%Z -> far_within Src fuel (center C) ->
   exists st',
     ship_die C Src fuel st = Some st' /\
     fresh C st' /\
     (forall st0 w0, World_init C Src fuel st0 = Some w0 ->
        score st' = score w0 /\ lives st' = lives w0 /\ wave st' = wave w0) /\
     Forall (fun i => (length (objs st) <= i)%nat /\
                      exists a, get_obj i st' = Some (OAsteroid a))
            (asteroids st') /\
     filter (fun r => match r with RShip => true | RObj _ => false end)
            (all_sprites st') = [RShip] /\
     s_alive (ship st') = true) /\
  ((0 <= lives st - 1)%Z ->
   exists st',
     ship_die C Src fuel st = Some st' /\
     lives st' = (lives st - 1)%Z /\
     s_pos (ship st') = center C /\ s_vel (ship st') = (0, 0) /\
     s_angle (ship st') = -90 /\
     s_angle (ship st') = s_angle (Ship_init C (center C)) /\
     s_invuln (ship st') = SAFE_SPAWN_TIME C /\
     safe st' = SAFE_SPAWN_TIME C /\ s_alive (ship st') = true /\
     score st' = score st /\ wave st' = wave st /\
     bullets st' = bullets st /\ enemy_bullets st' = enemy_bullets st /\
     asteroids st' = asteroids st /\ ufos st' = ufos st /\
     all_sprites st' = all_sprites st /\ objs st' = objs st).
Proof.
  intro Halive. unfold ship_die. rewrite Halive. simpl. split.
  - intros Hneg Hfar.
    destruct (Z.leb_spec 0 (lives st - 1)) as [Hle | _]; [lia | ].
    destruct (World_init_total C Src fuel (mark_dead st) Hfar) as [st' E].
    exists st'. split; [exact E | ].
    pose proof (World_init_fresh C Src fuel _ _ E) as (Hf & _ & Hobj & Hnew).
    split; [exact Hf | ].
    destruct Hf as (F1 & F2 & F3 & F4 & F5 & F6 & F7 & F8 & F9 & _).
    split; [ | split; [exact Hnew | split] ].
    + intros st0 w0 H.
      pose proof (World_init_fresh C Src fuel _ _ H) as ((G1 & G2 & G3 & _) & _).
      repeat split; congruence.
    + rewrite F9. simpl. now rewrite filter_ship_objs.
    + rewrite F4. reflexivity.
  - intro Hle.
    destruct (Z.leb_spec 0 (lives st - 1)) as [_ | Hlt]; [ | lia].
    eexists. split; [reflexivity | ]. rewrite respawn_eq. simpl.
    repeat split.
Qed.

Lemma ship_die_spec_witness :
  exists st',
    ship_die example_config example_oracle 0
      {| ship := ship_at_rest 0; bullets := []; enemy_bullets := [];
         asteroids := []; ufos := []; all_sprites := [RShip];
         score := 70; lives := 0; wave := 2; wave_cool := 2; safe := 0;
         ufo_timer := 15; objs := []; rnd_i := 0; edge_i := 0; unit_i := 0;
         chan_i := 0; audio := [] |} = Some st' /\
    fresh example_config st'.
Proof.
  destruct (ship_die_spec example_config example_oracle 0
      {| ship := ship_at_rest 0; bullets := []; enemy_bullets := [];
         asteroids := []; ufos := []; all_sprites := [RShip];
         score := 70; lives := 0; wave := 2; wave_cool := 2; safe := 0;
         ufo_timer := 15; objs := []; rnd_i := 0; edge_i := 0; unit_i := 0;
         chan_i := 0; audio := [] |}) as [H _]; [reflexivity | ].
  destruct H as (st' & H1 & H2 & _); [simpl; lia | apply example_far | ].
  exists st'. split; assumption.
Defined.

(** ** Evaluation on concrete states *)

Lemma fmod_small x m : 0 <= x < m -> fmod x m = x.
Proof.
  intros [H0 Hm]. unfold fmod.
  assert (Hz : 0%Z = Int_part (x / m)).
  { apply Int_part_spec. simpl.
    assert (0 <= x / m)
      by (unfold Rdiv; apply Rmult_le_pos;
          [lra | left; apply Rinv_0_lt_compat; lra]).
    assert (x / m < 1).
    { unfold Rdiv. apply Rmult_lt_reg_r with m; [lra | ].
      rewrite Rmult_assoc, Rinv_l by lra. lra. }
    lra. }
  rewrite <- Hz. simpl. lra.
Qed.

Ltac rbool :=
  repeat match goal with
  | |- context [Rltb ?a ?b] =>
      first [ rewrite (Rltb_true a b) by (simpl; lra)
            | rewrite (Rltb_false a b) by (simpl; lra) ]
  | |- context [Rleb ?a ?b] =>
      first [ rewrite (Rleb_true a b) by (simpl; lra)
            | rewrite (Rleb_false a b) by (simpl; lra) ]
  end.

(** ** Collisions when a group is empty *)

Lemma bullets_vs_asteroids_none C Src st :
  asteroids st = [] -> bullets_vs_asteroids C Src st = st.
Proof. intro H. unfold bullets_vs_asteroids. rewrite H. reflexivity. Qed.

Lemma bullets_vs_ufos_none C st : ufos st = [] -> bullets_vs_ufos C st = st.
Proof. intro H. unfold bullets_vs_ufos. rewrite H. reflexivity. Qed.

Lemma ufos_vs_asteroids_none C Src st :
  ufos st = [] -> ufos_vs_asteroids C Src st = st.
Proof. intro H. unfold ufos_vs_asteroids. rewrite H. reflexivity. Qed.

Lemma ship_vs_enemy_bullets_none C Src fuel st :
  enemy_bullets st = [] -> ship_vs_enemy_bullets C Src fuel st = Some st.
Proof. intro H. unfold ship_vs_enemy_bullets. rewrite H. reflexivity. Qed.

Lemma ship_collisions_none C Src fuel st :
  asteroids st = [] -> ufos st = [] -> enemy_bullets st = [] ->
  ship_collisions C Src fuel st = Some st.
Proof.
  intros Ha Hu He. unfold ship_collisions.
  destruct (_ && _); [ | reflexivity].
  rewrite Ha. simpl. rewrite Hu.
  destruct (s_alive (ship st)) eqn:E; simpl; rewrite E; [ | reflexivity].
  now apply ship_vs_enemy_bullets_none.
Qed.

Lemma handle_collisions_none C Src fuel st :
  asteroids st = [] -> ufos st = [] -> enemy_bullets st = [] ->
  handle_collisions C Src fuel st = Some st.
Proof.
  intros Ha Hu He. unfold handle_collisions.
  rewrite bullets_vs_asteroids_none by exact Ha.
  rewrite ship_collisions_none by assumption.
  rewrite bullets_vs_ufos_none by exact Hu.
  now rewrite ufos_vs_asteroids_none.
Qed.

(** ** Waves *)

(** C7: when no asteroid is left after the collisions of a frame,
    [update] counts the wave delay down by [dt] while it is positive; once
    it is zero or less, [update] starts a wave: the wave number grows by
    one, the group holds 3 plus the new wave number asteroids, and the
    delay is set to [WAVE_DELAY] again.  While asteroids remain, the end of
    the frame changes nothing. *)
Theorem wave_progression (C : Config) (Src : Oracle) (fuel : nat) (dt : R)
  (keys : Keys) (st st1 st2 : State) :
  update_begin C Src dt keys st = Some st1 ->
  handle_collisions C Src fuel st1 = Some st2 ->
  (asteroids st2 = [] -> wave_cool st2 <= 0 ->
   far_within Src fuel (s_pos (ship st2)) ->
   exists st',
     update C Src fuel dt keys st = Some st' /\
     wave st' = (wave st2 + 1)%Z /\
     length (asteroids st') = Z.to_nat (3 + wave st') /\
     wave_cool st' = WAVE_DELAY C /\
     score st' = score st2 /\ lives st' = lives st2) /\
  (asteroids st2 = [] -> 0 < wave_cool st2 ->
   update C Src fuel dt keys st
   = Some (set_wave_cool (wave_cool st2 - dt) st2)) /\
  (asteroids st2 <> [] -> update C Src fuel dt keys st = Some st2).
Proof.
  intros E1 E2. unfold update. rewrite E1, E2. unfold wave_progress.
  split; [ | split].
  - intros Ha Hc Hfar. rewrite Ha, (Rleb_true _ _ Hc).
    destruct (start_wave_total C Src fuel st2 Hfar) as [st3 E3].
    rewrite E3. eexists. split; [reflexivity | ].
    apply start_wave_adds in E3. destruct E3 as (l & Hl & Hadd).
    destruct Hadd as (A1 & A2 & _ & _ & _ & _ & A7 & _).
    unfold core in A1. simpl in A1, A2, A7. injection A1 as ? ? ? ? ? ?.
    cbn [set_wave_cool wave wave_cool score lives asteroids].
    rewrite A7, Ha, H1. cbn [app]. repeat split; congruence.
  - intros Ha Hc. rewrite Ha, Rleb_false by lra. reflexivity.
  - intro Ha. destruct (asteroids st2); [contradiction | reflexivity].
Qed.

Lemma update_begin_wave_due :
  update_begin example_config example_oracle (1/8) no_keys st_wave_due
  = Some st_wave_due_1.
Proof.
  unfold update_begin, st_wave_due_1, st_wave_due, sprites_update.
  simpl. rbool. simpl. rbool. reflexivity.
Qed.

Lemma wave_progression_witness :
  exists st',
    update example_config example_oracle 0 (1/8) no_keys st_wave_due
    = Some st' /\
    wave st' = 3%Z /\ length (asteroids st') = 6%nat.
Proof.
  pose proof update_begin_wave_due as E1.
  pose proof (handle_collisions_none example_config example_oracle 0%nat
                st_wave_due_1 eq_refl eq_refl eq_refl) as E2.
  destruct (wave_progression example_config example_oracle 0 (1/8) no_keys
              st_wave_due _ _ E1 E2) as (H & _ & _).
  destruct H as (st' & H1 & H2 & H3 & _).
  - reflexivity.
  - simpl. lra.
  - intro i. exists 0%nat. split; [lia | ].
    unfold vlength, vsub, wrap_pos; simpl.
    rewrite !fmod_small by lra.
    apply sqrt_not_lt; lra.
  - exists st'. split; [exact H1 | ]. split; [exact H2 | ].
    rewrite H3, H2. reflexivity.
Defined.

(** ** The hyperspace jump *)

(** C5: [World.hyperspace] does nothing when the ship is dead.  When the
    ship is alive it moves the ship to a position drawn by
    [uniform(0, WIDTH)] and [uniform(0, HEIGHT)] and zeroes its velocity,
    and that is all: the invulnerability timer keeps the value it had,
    where [Ship.hyperspace], which [World.hyperspace] does not call, sets it
    to 1. *)
Theorem hyperspace_spec (C : Config) (Src : Oracle) (st : State) :
  (s_alive (ship st) = false -> hyperspace C Src st = st) /\
  (s_alive (ship st) = true ->
   s_pos (ship (hyperspace C Src st))
   = (0 + (WIDTH C - 0) * rnd Src (rnd_i st),
      0 + (HEIGHT C - 0) * rnd Src (S (rnd_i st))) /\
   s_vel (ship (hyperspace C Src st)) = (0, 0) /\
   s_invuln (ship (hyperspace C Src st)) = s_invuln (ship st) /\
   s_invuln (fst (Ship_hyperspace C Src (ship st) st)) = 1).
Proof.
  unfold hyperspace. split; intro H; rewrite H; simpl; auto.
Qed.

Lemma hyperspace_spec_witness :
  s_invuln (ship (hyperspace example_config example_oracle st_wave_due)) = 0.
Proof.
  destruct (hyperspace_spec example_config example_oracle st_wave_due)
    as [_ H].
  destruct H as (_ & _ & H & _); [reflexivity | ].
  rewrite H. reflexivity.
Defined.

(** ** The score through the collisions *)

Lemma play_frame s st :
  core (play s st) = core st /\ score (play s st) = score st.
Proof. split; reflexivity. Qed.

Lemma split_children_adds C Src pos sizes st :
  exists l,
    length l = length sizes /\
    adds_asteroids l st
      (fold_left
         (fun s size =>
            let (dirv, s1) := rand_unit_vec Src s in
            let (u, s2) := uniform Src (AST_VEL_MIN C) (AST_VEL_MAX C) s1 in
            spawn_asteroid C Src pos (vscale dirv (u * 1.2)) size s2)
         sizes st).
Proof.
  revert st. induction sizes as [|size rest IH]; intro st; simpl.
  - exists []. split; [reflexivity | apply adds_asteroids_refl].
  - match goal with |- context [fold_left _ rest ?s] =>
      destruct (IH s) as (l & Hl & Hadd) end.
    eexists (_ :: l). split; [simpl; now rewrite Hl | ].
    change (?x :: l) with ([x] ++ l).
    eapply adds_asteroids_trans; [ | exact Hadd].
    apply (adds_asteroids_trans [] [_] _ _ _ (rand_unit_vec_adds Src st)).
    apply (adds_asteroids_trans [] [_] _ _ _
             (uniform_adds Src (AST_VEL_MIN C) (AST_VEL_MAX C)
                (snd (rand_unit_vec Src st)))).
    apply spawn_asteroid_adds.
Qed.

Lemma split_asteroid_frame C Src i a st :
  score (split_asteroid C Src i a st) = (score st + AST_score C (a_size a))%Z /\
  core (split_asteroid C Src i a st) = core st.
Proof.
  unfold split_asteroid. cbv zeta.
  match goal with |- context [fold_left ?f ?l ?s] =>
    destruct (split_children_adds C Src (a_pos a) l s) as (ch & _ & Hadd) end.
  destruct Hadd as (A1 & A2 & _). rewrite A1, A2, kill_core, kill_score.
  destruct (a_size a); split; reflexivity.
Qed.

Section Scores.

Variable C : Config.
Variable Src : Oracle.
Hypothesis Hscores : scores_nonneg C.

Lemma split_all_score ids st :
  (score st <= score (split_all C Src ids st))%Z /\
  core (split_all C Src ids st) = core st.
Proof.
  revert st. induction ids as [|i rest IH]; intro st; simpl.
  - split; [lia | reflexivity].
  - destruct (get_obj i st) as [[b|a|u]|]; try apply IH.
    destruct (IH (split_asteroid C Src i a st)) as [H1 H2].
    destruct (split_asteroid_frame C Src i a st) as [H3 H4].
    destruct Hscores as (Ha & _). specialize (Ha (a_size a)).
    split; [lia | congruence].
Qed.

Lemma bullets_vs_asteroids_score st :
  (score st <= score (bullets_vs_asteroids C Src st))%Z /\
  core (bullets_vs_asteroids C Src st) = core st.
Proof.
  unfold bullets_vs_asteroids.
  pose proof (groupcollide_frame bullet_hits bullets false true
                (asteroids st) st) as (H1 & H2 & _).
  destruct (groupcollide _ _ _ _ _ st) as [hits st1]. simpl in *.
  destruct (split_all_score (map fst hits) st1) as [H3 H4].
  split; [lia | congruence].
Qed.

Lemma UFO_kill_frame i u st :
  score (UFO_kill i u st) = score st /\ core (UFO_kill i u st) = core st.
Proof. unfold UFO_kill. destruct (u_channel u); split; reflexivity. Qed.

Lemma ufo_vs_bullets_score iu u snap st :
  (score st <= score (ufo_vs_bullets C iu u snap st))%Z /\
  core (ufo_vs_bullets C iu u snap st) = core st.
Proof.
  revert st. induction snap as [|ib rest IH]; intro st; simpl.
  - split; [lia | reflexivity].
  - destruct (get_obj ib st) as [[b|a|u']|]; try apply IH.
    destruct (Rltb _ _); [ | apply IH].
    match goal with |- context [ufo_vs_bullets C iu u rest ?s] =>
      destruct (IH s) as [H1 H2]; rewrite H2;
      rewrite kill_score in H1; rewrite kill_core end.
    destruct (UFO_kill_frame iu u (set_score
      (score st + (if u_small u then UFO_SMALL_score C else UFO_BIG_score C))
      st)) as [H3 H4].
    rewrite H3 in H1. rewrite H4. simpl in H1.
    destruct Hscores as (_ & Hs & Hb).
    split; [destruct (u_small u); lia | reflexivity].
Qed.

Lemma bullets_vs_ufos_score st :
  (score st <= score (bullets_vs_ufos C st))%Z /\
  core (bullets_vs_ufos C st) = core st.
Proof.
  unfold bullets_vs_ufos. generalize (ufos st) as snap.
  intro snap. revert st. induction snap as [|iu rest IH]; intro st; simpl.
  - split; [lia | reflexivity].
  - destruct (get_obj iu st) as [[b|a|u]|]; try apply IH.
    destruct (IH (ufo_vs_bullets C iu u (bullets st) st)) as [H1 H2].
    destruct (ufo_vs_bullets_score iu u (bullets st) st) as [H3 H4].
    split; [lia | congruence].
Qed.

Lemma crash_loop_score crashes st :
  (score st <= score (crash_loop C Src crashes st))%Z /\
  core (crash_loop C Src crashes st) = core st.
Proof.
  revert st. induction crashes as [|[iu hit] rest IH]; intro st; simpl.
  - split; [lia | reflexivity].
  - match goal with |- context [split_all C Src hit ?s] =>
      destruct (IH (split_all C Src hit s)) as [H1 H2];
      destruct (split_all_score hit s) as [H3 H4];
      assert (H5 : score s = score st /\ core s = core st)
    end.
    { destruct (get_obj iu st) as [[b|a|u]|]; auto.
      destruct (u_channel u); auto. }
    destruct H5 as [H5 H6]. split; [lia | congruence].
Qed.

Lemma ufos_vs_asteroids_score st :
  (score st <= score (ufos_vs_asteroids C Src st))%Z /\
  core (ufos_vs_asteroids C Src st) = core st.
Proof.
  unfold ufos_vs_asteroids.
  pose proof (groupcollide_frame crashes_into asteroids true false
                (ufos st) st) as (H1 & H2 & _).
  destruct (groupcollide _ _ _ _ _ st) as [crashes st1]. simpl in *.
  destruct (crash_loop_score crashes st1) as [H3 H4].
  split; [lia | congruence].
Qed.

End Scores.

(** ** After a reset nothing else happens in the frame *)

Lemma fresh_alive C st : fresh C st -> s_alive (ship st) = true.
Proof. intros (_ & _ & _ & H & _). rewrite H. reflexivity. Qed.

Lemma fresh_asteroids C st : fresh C st -> asteroids st <> [].
Proof.
  intros (_ & _ & _ & _ & _ & _ & _ & H & _) E. rewrite E in H. discriminate.
Qed.

Lemma after_reset_quiet C Src fuel dt st :
  fresh C st ->
  ship_vs_sprites C Src fuel (ufos st) st = Some st /\
  ship_vs_enemy_bullets C Src fuel st = Some st /\
  bullets_vs_ufos C st = st /\
  ufos_vs_asteroids C Src st = st /\
  wave_progress C Src fuel dt st = Some st.
Proof.
  intro Hf. pose proof (fresh_asteroids C st Hf) as Hne.
  destruct Hf as (_ & _ & _ & _ & _ & He & Hu & _).
  split; [rewrite Hu; reflexivity | ].
  split; [now apply ship_vs_enemy_bullets_none | ].
  split; [now apply bullets_vs_ufos_none | ].
  split; [now apply ufos_vs_asteroids_none | ].
  unfold wave_progress. destruct (asteroids st); [contradiction | reflexivity].
Qed.

Lemma ship_die_cases C Src fuel st st' :
  ship_die C Src fuel st = Some st' ->
  (score st' = score st /\ (lives st - 1 <= lives st' <= lives st)%Z) \/
  fresh C st'.
Proof.
  unfold ship_die. destruct (s_alive (ship st)); simpl.
  - destruct (Z.leb_spec 0 (lives st - 1)).
    + intro E; injection E as <-. left. simpl. split; [reflexivity | lia].
    + intro E. right. now apply World_init_fresh in E.
  - intro E; injection E as <-. left. split; [reflexivity | lia].
Qed.

Lemma ship_vs_sprites_cases C Src fuel snap st st' :
  ship_vs_sprites C Src fuel snap st = Some st' ->
  (score st' = score st /\ (lives st - 1 <= lives st' <= lives st)%Z) \/
  fresh C st'.
Proof.
  induction snap as [|i rest IH]; simpl.
  - intro E; injection E as <-. left. split; [reflexivity | lia].
  - destruct (get_obj i st) as [o|]; [ | exact IH].
    destruct (touches (ship st) o); [apply ship_die_cases | exact IH].
Qed.

Lemma ship_vs_enemy_bullets_cases C Src fuel st st' :
  ship_vs_enemy_bullets C Src fuel st = Some st' ->
  (score st' = score st /\ (lives st - 1 <= lives st' <= lives st)%Z) \/
  fresh C st'.
Proof.
  unfold ship_vs_enemy_bullets.
  match goal with |- context [spritecollide_kill ?f ?l st] =>
    pose proof (spritecollide_kill_frame f l st) as (Hc & Hs & _);
    destruct (spritecollide_kill f l st) as [hits st1] end.
  simpl in Hc, Hs. unfold core in Hc. injection Hc as _ Hl _ _ _ _.
  destruct hits.
  - intro E; injection E as <-. left. split; [exact Hs | lia].
  - intro E. apply ship_die_cases in E. rewrite Hs, Hl in E. exact E.
Qed.

(** What the death checks of one frame can do to score and lives. *)
Lemma ship_collisions_cases C Src fuel st st' :
  ship_collisions C Src fuel st = Some st' ->
  (score st' = score st /\ (lives st - 3 <= lives st' <= lives st)%Z) \/
  fresh C st'.
Proof.
  unfold ship_collisions. destruct (_ && _).
  2:{ intro E; injection E as <-. left. split; [reflexivity | lia]. }
  destruct (ship_vs_sprites C Src fuel (asteroids st) st) as [st1|] eqn:E1;
    [ | discriminate].
  apply ship_vs_sprites_cases in E1.
  destruct E1 as [[S1 L1] | F1].
  - destruct (if s_alive (ship st1) then _ else _) as [st2|] eqn:E2;
      [ | discriminate].
    assert (H2 : (score st2 = score st1 /\
                  (lives st1 - 1 <= lives st2 <= lives st1)%Z) \/
                 fresh C st2).
    { destruct (s_alive (ship st1)).
      - now apply ship_vs_sprites_cases in E2.
      - injection E2 as <-. left. split; [reflexivity | lia]. }
    destruct H2 as [[S2 L2] | F2].
    + intro E3.
      assert (H3 : (score st' = score st2 /\
                    (lives st2 - 1 <= lives st' <= lives st2)%Z) \/
                   fresh C st').
      { destruct (s_alive (ship st2)).
        - now apply ship_vs_enemy_bullets_cases in E3.
        - injection E3 as <-. left. split; [reflexivity | lia]. }
      destruct H3 as [[S3 L3] | F3]; [left | now right].
      split; [congruence | lia].
    + rewrite (fresh_alive C st2 F2).
      destruct (after_reset_quiet C Src fuel 0 st2 F2) as (_ & -> & _).
      intro E; injection E as <-. now right.
  - rewrite (fresh_alive C st1 F1).
    destruct (after_reset_quiet C Src fuel 0 st1 F1) as (-> & Q & _).
    rewrite (fresh_alive C st1 F1), Q.
    intro E; injection E as <-. now right.
Qed.

Lemma handle_collisions_cases C Src fuel st st' :
  scores_nonneg C ->
  handle_collisions C Src fuel st = Some st' ->
  ((score st <= score st')%Z /\ (lives st - 3 <= lives st' <= lives st)%Z) \/
  fresh C st'.
Proof.
  intros Hs. unfold handle_collisions.
  destruct (bullets_vs_asteroids_score C Src Hs st) as [H1 K1].
  destruct (ship_collisions C Src fuel _) as [st2|] eqn:E2; [ | discriminate].
  intro E; injection E as <-.
  apply ship_collisions_cases in E2. destruct E2 as [[S2 L2] | F2].
  - left.
    destruct (bullets_vs_ufos_score C Hs st2) as [H3 K3].
    destruct (ufos_vs_asteroids_score C Src Hs (bullets_vs_ufos C st2))
      as [H4 K4].
    unfold core in K1, K3, K4.
    injection K1 as _ K1 _ _ _ _. injection K3 as _ K3 _ _ _ _.
    injection K4 as _ K4 _ _ _ _.
    split; lia.
  - right.
    destruct (after_reset_quiet C Src fuel 0 st2 F2) as (_ & _ & -> & -> & _).
    exact F2.
Qed.

(** ** The first part of [update] leaves the counters alone *)

Lemma kill_counters i st : counters (kill i st) = counters st.
Proof.
  unfold kill. destruct (get_obj i st) as [[b|a|u]|]; try reflexivity.
  unfold UFO_kill. destruct (u_channel u); reflexivity.
Qed.

Lemma Bullet_update_counters C dt i b st :
  counters (Bullet_update C dt i b st) = counters st.
Proof.
  unfold Bullet_update. cbv zeta.
  destruct (Rleb _ 0); [ | reflexivity].
  change (counters (kill i (put_obj i (OBullet (Bullet_move C dt b)) st))
          = counters st).
  now rewrite kill_counters.
Qed.

Lemma sprite_update_counters C dt r st :
  counters (sprite_update C dt r st) = counters st.
Proof.
  destruct r as [|i]; simpl; [reflexivity | ].
  destruct (get_obj i st) as [[b|a|u]|]; try reflexivity.
  apply Bullet_update_counters.
Qed.

Lemma sprites_update_counters C dt st :
  counters (sprites_update C dt st) = counters st.
Proof.
  unfold sprites_update. generalize (all_sprites st) as l.
  intro l. revert st. induction l as [|r l IH]; intro st; simpl.
  - reflexivity.
  - rewrite IH. apply sprite_update_counters.
Qed.

Lemma UFO_fire_counters C Src target u st :
  counters (snd (UFO_fire C Src target u st)) = counters st.
Proof.
  unfold UFO_fire. destruct (Rltb 0 _); [reflexivity | ].
  destruct (u_small u), target; reflexivity.
Qed.

Lemma ufos_fire_counters C Src target snap st :
  counters (ufos_fire C Src target snap st) = counters st.
Proof.
  revert st. induction snap as [|i rest IH]; intro st; simpl.
  - reflexivity.
  - destruct (get_obj i st) as [[b|a|u]|]; try apply IH.
    pose proof (UFO_fire_counters C Src target u st) as H.
    destruct (UFO_fire C Src target u st) as [[bullet u1] st1].
    simpl in H. rewrite IH. destruct bullet; exact H.
Qed.

Lemma UFO_init_counters C Src pos small target st u st' :
  UFO_init C Src pos small target st = Some (u, st') ->
  counters st' = counters st.
Proof.
  unfold UFO_init.
  destruct small, target as [t|]; simpl;
    repeat match goal with
      | |- context [normalize ?v] => destruct (normalize v)
      | |- context [if ?b then _ else _] => destruct b
      | |- context [chan ?s ?i] => destruct (chan s i)
      end; simpl;
    try discriminate; intro E; injection E as <- <-; reflexivity.
Qed.

Lemma spawn_ufo_counters C Src st st' :
  spawn_ufo C Src st = Some st' -> counters st' = counters st.
Proof.
  unfold spawn_ufo. simpl.
  match goal with |- context [UFO_init ?a ?b ?c ?d ?e ?s] =>
    destruct (UFO_init a b c d e s) as [[u st4]|] eqn:E; [ | discriminate]
  end.
  apply UFO_init_counters in E. simpl in E.
  intro H; injection H as <-. exact E.
Qed.

Lemma update_begin_counters C Src dt keys st st' :
  update_begin C Src dt keys st = Some st' -> counters st' = counters st.
Proof.
  unfold update_begin. cbv zeta.
  set (st2 := sprites_update C dt _).
  set (st3 := ufos_fire C Src _ (ufos st2) st2).
  assert (H3 : counters st3 = counters st).
  { unfold st3. rewrite ufos_fire_counters. unfold st2.
    now rewrite sprites_update_counters. }
  clearbody st3.
  match goal with |- context [if Rleb (ufo_timer ?s) 0 then _ else _] =>
    assert (H5 : counters s = counters st)
      by (destruct (Rltb 0 (safe st3)); exact H3);
    generalize dependent s end.
  intros st5 H5. destruct (Rleb _ 0).
  - destruct (spawn_ufo C Src st5) as [st6|] eqn:E; [ | discriminate].
    apply spawn_ufo_counters in E. intro H; injection H as <-.
    change (counters st6 = counters st). congruence.
  - intro H; injection H as <-. exact H5.
Qed.

Lemma wave_progress_counters C Src fuel dt st st' :
  wave_progress C Src fuel dt st = Some st' ->
  score st' = score st /\ lives st' = lives st.
Proof.
  unfold wave_progress. destruct (asteroids st).
  - destruct (Rleb _ 0).
    + destruct (start_wave C Src fuel st) as [st1|] eqn:E; [ | discriminate].
      apply start_wave_adds in E. destruct E as (l & _ & A1 & A2 & _).
      unfold core in A1. injection A1 as _ A1 _ _ _ _.
      intro H; injection H as <-. simpl in *. split; congruence.
    + intro H; injection H as <-. split; reflexivity.
  - intro H; injection H as <-. split; reflexivity.
Qed.

(** ** One frame of the example worlds *)

Ltac rfields := repeat (f_equal; try lra).

Lemma ship_at_rest_frame :
  Ship_update example_config (1 / 8)
    (Ship_control example_config no_keys (1 / 8) (ship_at_rest 0))
  = ship_at_rest 0.
Proof.
  unfold Ship_update, Ship_control, ship_at_rest, wrap_pos, vadd, vscale.
  simpl. rbool.
  replace (480 + 0 * 0.995 * (1 / 8)) with 480 by lra.
  replace (360 + 0 * 0.995 * (1 / 8)) with 360 by lra.
  rewrite !fmod_small by lra. unfold set_center; simpl. rfields.
Qed.

Lemma example_asteroid_frame x y :
  0 <= x + 5 < 960 -> 0 <= y < 720 ->
  Asteroid_update example_config (1 / 8) (example_asteroid (x, y) (40, 0) Large)
  = example_asteroid (x + 5, y) (40, 0) Large.
Proof.
  intros Hx Hy.
  unfold Asteroid_update, example_asteroid, wrap_pos, vadd, vscale. simpl.
  replace (x + 40 * (1 / 8)) with (x + 5) by lra.
  replace (y + 0 * (1 / 8)) with y by lra.
  rewrite !fmod_small by lra. reflexivity.
Qed.

Lemma example_ufo_frame x y t ch :
  0 <= x + 10 < 960 -> 0 <= y < 720 -> 0 < t ->
  UFO_update example_config (1 / 8) (example_ufo (x, y) t ch)
  = example_ufo (x + 10, y) (t - 1 / 8) ch.
Proof.
  intros Hx Hy Ht.
  unfold UFO_update, example_ufo, wrap_pos, vadd, vscale. simpl.
  rewrite (Rltb_true 0 t) by exact Ht.
  replace (x + 1 * 80 * (1 / 8)) with (x + 10) by lra.
  replace (y + 0 * 80 * (1 / 8)) with y by lra.
  rewrite !fmod_small by lra. reflexivity.
Qed.

Lemma example_ufo_holds_fire target p t ch st :
  0 < t ->
  UFO_fire example_config example_oracle target (example_ufo p t ch) st
  = (None, example_ufo p t ch, st).
Proof. intro Ht. unfold UFO_fire. simpl. now rewrite (Rltb_true 0 t). Qed.

Lemma sprites_update_contact ax ux uy t w n :
  0 <= ax + 5 < 960 -> 0 <= ux + 10 < 960 -> 0 <= uy < 720 -> 0 < t ->
  sprites_update example_config (1 / 8)
    (set_ship
       (Ship_control example_config no_keys (1 / 8)
          (ship (st_contact (ax, 360) (ux, uy) t w n)))
       (st_contact (ax, 360) (ux, uy) t w n))
  = st_contact (ax + 5, 360) (ux + 10, uy) (t - 1 / 8) w n.
Proof.
  intros Ha Hux Huy Ht.
  unfold st_contact, sprites_update.
  cbn -[Ship_update Ship_control Asteroid_update UFO_update
        example_asteroid example_ufo].
  rewrite ship_at_rest_frame.
  rewrite example_asteroid_frame by lra.
  rewrite example_ufo_frame by lra.
  reflexivity.
Qed.

Lemma ufos_fire_contact target a u t w n :
  0 < t ->
  ufos_fire example_config example_oracle target
    (ufos (st_contact a u t w n)) (st_contact a u t w n)
  = st_contact a u t w n.
Proof.
  intro Ht. unfold st_contact.
  cbn -[UFO_fire example_asteroid example_ufo].
  rewrite example_ufo_holds_fire by exact Ht.
  reflexivity.
Qed.

Lemma update_begin_contact ax ux uy n :
  0 <= ax + 5 < 960 -> 0 <= ux + 10 < 960 -> 0 <= uy < 720 ->
  update_begin example_config example_oracle (1 / 8) no_keys
    (st_contact (ax, 360) (ux, uy) (1 / 2) 15 n)
  = Some (st_contact (ax + 5, 360) (ux + 10, uy) (1 / 2 - 1 / 8)
            (15 - 1 / 8) n).
Proof.
  intros Ha Hux Huy.
  unfold update_begin. cbv zeta.
  rewrite sprites_update_contact by lra.
  rewrite ufos_fire_contact by lra.
  unfold st_contact.
  cbn -[example_asteroid example_ufo Rmax]. rbool.
  cbn -[example_asteroid example_ufo Rmax]. rbool.
  rewrite Rmax_right by lra.
  reflexivity.
Qed.

Lemma vlength_zero (p q : Vec) :
  fst p = fst q -> snd p = snd q -> vlength (vsub p q) = 0.
Proof.
  intros H1 H2. unfold vlength, vsub. simpl. rewrite H1, H2.
  replace (_ + _) with 0 by lra. apply sqrt_0.
Qed.

Lemma touches_same_place (s : Ship) (o : Obj) :
  fst (obj_pos o) = fst (s_pos s) -> snd (obj_pos o) = snd (s_pos s) ->
  0 < obj_r o + s_r s -> touches s o = true.
Proof.
  intros H1 H2 H3. unfold touches. apply Rltb_true.
  now rewrite vlength_zero.
Qed.

Lemma groupcollide_no_targets f gb ka snap st :
  gb st = [] -> groupcollide f gb ka true snap st = ([], st).
Proof.
  intro H. induction snap as [|i rest IH]; simpl; [reflexivity | ].
  destruct (get_obj i st); [ | exact IH].
  rewrite H. simpl. exact IH.
Qed.

Lemma bullets_vs_asteroids_no_bullets C Src st :
  bullets st = [] -> bullets_vs_asteroids C Src st = st.
Proof.
  intro H. unfold bullets_vs_asteroids.
  now rewrite groupcollide_no_targets.
Qed.

Lemma bullets_vs_ufos_no_bullets C st :
  bullets st = [] -> bullets_vs_ufos C st = st.
Proof.
  intro H. unfold bullets_vs_ufos. generalize (ufos st) as snap.
  induction snap as [|i rest IH]; simpl; [reflexivity | ].
  destruct (get_obj i st) as [[b|a|u]|]; try exact IH.
  rewrite H. simpl. exact IH.
Qed.

Lemma ship_die_reset C Src fuel st :
  s_alive (ship st) = true -> (lives st - 1 < 0)%Z ->
  ship_die C Src fuel st = World_init C Src fuel (mark_dead st).
Proof.
  intros Ha Hl. unfold ship_die. rewrite Ha. simpl.
  destruct (Z.leb_spec 0 (lives st - 1)); [lia | reflexivity].
Qed.

Lemma ship_die_respawn C Src fuel st :
  s_alive (ship st) = true -> (0 <= lives st - 1)%Z ->
  ship_die C Src fuel st = Some (respawn C (mark_dead st)).
Proof.
  intros Ha Hl. unfold ship_die. rewrite Ha. simpl.
  destruct (Z.leb_spec 0 (lives st - 1)); [reflexivity | lia].
Qed.

(** The death checks of [st_last_life]: the asteroid reaches the ship, the
    ship has no life left, the world starts anew. *)
Lemma ship_collisions_last_life ux uy t w :
  exists st',
    ship_collisions example_config example_oracle 0
      (st_contact (480, 360) (ux, uy) t w 0) = Some st' /\
    fresh example_config st' /\
    audio st' = [ChannelPlay 7 FLY_BIG; SoundPlay BREAK_LARGE] /\
    Forall (fun i => (2 <= i)%nat) (asteroids st') /\
    exists ext,
      objs st' = objs (st_contact (480, 360) (ux, uy) t w 0) ++ ext.
Proof.
  unfold ship_collisions, st_contact.
  cbn -[example_asteroid example_ufo ship_die]. rbool.
  cbn -[example_asteroid example_ufo ship_die].
  rewrite touches_same_place by (simpl; lra).
  rewrite ship_die_reset by (simpl; (reflexivity || lia)).
  match goal with |- context [World_init ?c ?o ?f ?s] =>
    destruct (World_init_total c o f s (example_far f)) as [st' E];
    pose proof (World_init_fresh c o f s st' E) as (Hf & Ha & Ho & Hn) end.
  rewrite E. cbn -[ship_vs_sprites ship_vs_enemy_bullets].
  rewrite (fresh_alive _ _ Hf).
  destruct (after_reset_quiet example_config example_oracle 0 0 st' Hf)
    as (-> & Q & _).
  cbn -[ship_vs_enemy_bullets]. rewrite (fresh_alive _ _ Hf), Q.
  exists st'. split; [reflexivity | ]. split; [exact Hf | ].
  split; [exact Ha | ]. split; [ | exact Ho].
  eapply Forall_impl; [ | exact Hn]. intros i [Hi _]. exact Hi.
Qed.

Lemma update_last_life :
  exists st',
    update example_config example_oracle 0 (1 / 8) no_keys st_last_life
    = Some st' /\
    fresh example_config st' /\
    audio st' = [ChannelPlay 7 FLY_BIG; SoundPlay BREAK_LARGE] /\
    Forall (fun i => (2 <= i)%nat) (asteroids st') /\
    exists u, get_obj 1 st' = Some (OUfo u) /\ u_channel u = Some 7%nat.
Proof.
  unfold update, st_last_life.
  rewrite update_begin_contact by lra.
  replace (475 + 5) with 480 by lra.
  unfold handle_collisions.
  rewrite bullets_vs_asteroids_no_bullets by reflexivity.
  destruct (ship_collisions_last_life (100 + 10) 100 (1 / 2 - 1 / 8)
              (15 - 1 / 8)) as (st' & E & Hf & Ha & Hn & ext & Ho).
  rewrite E.
  destruct (after_reset_quiet example_config example_oracle 0 (1 / 8) st' Hf)
    as (_ & _ & -> & -> & ->).
  exists st'. split; [reflexivity | ]. split; [exact Hf | ].
  split; [exact Ha | ]. split; [exact Hn | ].
  eexists. unfold get_obj. rewrite Ho. simpl. split; reflexivity.
Qed.

(** ** Score and lives over a frame *)

Lemma update_cases C Src fuel dt keys st st' :
  scores_nonneg C ->
  update C Src fuel dt keys st = Some st' ->
  ((score st <= score st')%Z /\ (lives st - 3 <= lives st' <= lives st)%Z) \/
  fresh C st'.
Proof.
  intros Hs. unfold update.
  destruct (update_begin C Src dt keys st) as [st1|] eqn:E1; [ | discriminate].
  destruct (handle_collisions C Src fuel st1) as [st2|] eqn:E2;
    [ | discriminate].
  intro E3.
  apply update_begin_counters in E1. unfold counters in E1.
  injection E1 as S1 L1 _.
  apply (handle_collisions_cases C Src fuel st1 st2 Hs) in E2.
  destruct E2 as [[S2 L2] | F2].
  - left. apply wave_progress_counters in E3. destruct E3 as [S3 L3].
    split; lia.
  - right.
    destruct (after_reset_quiet C Src fuel dt st2 F2) as (_ & _ & _ & _ & Q).
    rewrite Q in E3. injection E3 as <-. exact F2.
Qed.

(** C3, as the spec states it, fails: the ship of [st_last_life] dies in
    the next frame with no life left, the world starts anew and the score
    falls from 1560 to 0. *)
Lemma score_lost_on_reset :
  exists st',
    update example_config example_oracle 0 (1 / 8) no_keys st_last_life
    = Some st' /\
    (score st' < score st_last_life)%Z.
Proof.
  destruct update_last_life as (st' & E & Hf & _).
  exists st'. split; [exact E | ].
  destruct Hf as (-> & _). simpl. lia.
Qed.

(** C3, amended: over one [World.update] the score does not decrease,
    unless the frame resets the world (the ship dies with no life left):
    then the world is the initial one and the score is 0.  Over any
    sequence of updates the score stays a non-negative integer. *)
Theorem score_monotone_until_reset (C : Config) (Src : Oracle) (fuel : nat) :
  scores_nonneg C ->
  (forall dt keys st st',
     update C Src fuel dt keys st = Some st' ->
     (score st <= score st')%Z \/ fresh C st') /\
  (forall frames st st',
     (0 <= score st)%Z ->
     updates C Src fuel frames st = Some st' ->
     (0 <= score st')%Z).
Proof.
  intro Hs. split.
  - intros dt keys st st' E.
    destruct (update_cases C Src fuel dt keys st st' Hs E) as [[H _] | H];
      [left | right]; exact H.
  - induction frames as [|[dt keys] rest IH]; intros st st' H0; simpl.
    + intro E; injection E as <-. exact H0.
    + destruct (update C Src fuel dt keys st) as [st1|] eqn:E1;
        [ | discriminate].
      apply IH.
      destruct (update_cases C Src fuel dt keys st st1 Hs E1)
        as [[H _] | (H & _)]; lia.
Qed.

Lemma example_scores_nonneg : scores_nonneg example_config.
Proof.
  unfold scores_nonneg; simpl. repeat split; try lia.
  intros []; lia.
Qed.

Lemma score_monotone_until_reset_witness :
  exists st',
    update example_config example_oracle 0 (1 / 8) no_keys st_last_life
    = Some st' /\
    ((score st_last_life <= score st')%Z \/ fresh example_config st').
Proof.
  destruct update_last_life as (st' & E & _).
  exists st'. split; [exact E | ].
  destruct (score_monotone_until_reset example_config example_oracle 0
              example_scores_nonneg) as [H _].
  exact (H _ _ _ _ E).
Defined.

(** ** Splitting an asteroid *)

Lemma kill_asteroid i a st :
  get_obj i st = Some (OAsteroid a) -> kill i st = Sprite_kill i st.
Proof. intro H. unfold kill. now rewrite H. Qed.

Lemma split_asteroid_adds C Src i a st :
  get_obj i st = Some (OAsteroid a) ->
  exists l,
    length l = length (AST_split C (a_size a)) /\
    adds_asteroids l
      (Sprite_kill i
         (set_score (score st + AST_score C (a_size a))
            (play (match a_size a with
                   | Large => BREAK_LARGE
                   | _ => BREAK_MEDIUM
                   end) st)))
      (split_asteroid C Src i a st).
Proof.
  intro Hi. unfold split_asteroid. cbv zeta.
  destruct (a_size a);
    rewrite (kill_asteroid i a) by exact Hi;
    match goal with |- context [fold_left ?f ?l ?s] =>
      destruct (split_children_adds C Src (a_pos a) l s) as (ch & Hl & Hadd)
    end;
    exists ch; (split; [exact Hl | exact Hadd]).
Qed.

Lemma stops_app ch l1 l2 :
  stops ch (l1 ++ l2) = (stops ch l1 + stops ch l2)%nat.
Proof. unfold stops. now rewrite filter_app, length_app. Qed.

(** ** Two deaths in one frame *)

Lemma ship_vs_sprites_hit C Src fuel i rest st o :
  get_obj i st = Some o -> touches (ship st) o = true ->
  ship_vs_sprites C Src fuel (i :: rest) st = ship_die C Src fuel st.
Proof. intros H1 H2. simpl. now rewrite H1, H2. Qed.

(** The ship touches an asteroid, comes back in the middle of the arena,
    where a UFO is: it dies again, in the same pass. *)
Lemma ship_collisions_two_deaths C Src fuel st ia oa ra iu ou ru :
  s_invuln (ship st) <= 0 -> safe st <= 0 ->
  s_alive (ship st) = true -> (0 <= lives st - 2)%Z ->
  asteroids st = ia :: ra -> get_obj ia st = Some oa ->
  touches (ship st) oa = true ->
  ufos st = iu :: ru -> get_obj iu st = Some ou ->
  touches (ship (respawn C (mark_dead st))) ou = true ->
  enemy_bullets st = [] ->
  ship_collisions C Src fuel st
  = Some (respawn C (mark_dead (respawn C (mark_dead st)))).
Proof.
  intros Hi Hs Halive Hl Ha Hoa Hta Hu Hou Htu He.
  unfold ship_collisions.
  rewrite (Rleb_true _ _ Hi), (Rleb_true _ _ Hs). simpl andb. cbv iota.
  rewrite Ha, (ship_vs_sprites_hit C Src fuel ia ra st oa Hoa Hta).
  rewrite ship_die_respawn by (assumption || lia).
  change (s_alive (ship (respawn C (mark_dead st)))) with true. cbv iota.
  change (ufos (respawn C (mark_dead st))) with (ufos st). rewrite Hu.
  rewrite (ship_vs_sprites_hit C Src fuel iu ru
             (respawn C (mark_dead st)) ou Hou Htu).
  rewrite ship_die_respawn by (reflexivity || (simpl; lia)).
  change (s_alive (ship (respawn C (mark_dead (respawn C (mark_dead st))))))
    with true. cbv iota.
  apply ship_vs_enemy_bullets_none. exact He.
Qed.

(** ** A UFO crashes into an asteroid *)

Lemma groupcollide_keep_one f gb ia st oa c cs :
  get_obj ia st = Some oa ->
  spritecollide_keep (f oa) (gb st) st = c :: cs ->
  groupcollide f gb true false [ia] st = ([(ia, c :: cs)], kill ia st).
Proof. intros H1 H2. simpl. now rewrite H1, H2. Qed.

Lemma crash_loop_one C Src iu hit st u :
  get_obj iu st = Some (OUfo u) ->
  crash_loop C Src [(iu, hit)] st = split_all C Src hit (stop_engine u st).
Proof.
  intros H1. simpl. rewrite H1. unfold stop_engine.
  destruct (u_channel u); reflexivity.
Qed.

Lemma split_all_one C Src i a st :
  get_obj i st = Some (OAsteroid a) ->
  split_all C Src [i] st = split_asteroid C Src i a st.
Proof. intro H. unfold split_all. now rewrite H. Qed.

Lemma kill_ufo i u st :
  get_obj i st = Some (OUfo u) ->
  kill i st = Sprite_kill i (stop_engine u st).
Proof.
  intros H1. unfold kill, UFO_kill, stop_engine. rewrite H1.
  destruct (u_channel u); reflexivity.
Qed.

Lemma get_obj_stop_engine i u st :
  get_obj i (stop_engine u st) = get_obj i st.
Proof. unfold stop_engine. destruct (u_channel u); reflexivity. Qed.

(** One UFO over one asteroid: the UFO is killed, which stops its engine,
    the engine is stopped once more, and the asteroid is split. *)
Lemma ufos_vs_asteroids_crash C Src st iu u ia a :
  ufos st = [iu] -> asteroids st = [ia] ->
  get_obj iu st = Some (OUfo u) ->
  get_obj ia st = Some (OAsteroid a) ->
  crashes_into (OUfo u) (OAsteroid a) = true ->
  ufos_vs_asteroids C Src st
  = split_asteroid C Src ia a
      (stop_engine u (Sprite_kill iu (stop_engine u st))).
Proof.
  intros Hu Ha Hou Hoa Hcr.
  unfold ufos_vs_asteroids. rewrite Hu.
  rewrite (groupcollide_keep_one crashes_into asteroids iu st (OUfo u) ia []).
  - rewrite (kill_ufo iu u st Hou).
    rewrite (crash_loop_one C Src iu [ia] _ u).
    + apply split_all_one.
      rewrite get_obj_stop_engine.
      change (get_obj ia (Sprite_kill iu (stop_engine u st)))
        with (get_obj ia (stop_engine u st)).
      now rewrite get_obj_stop_engine.
    + change (get_obj iu (Sprite_kill iu (stop_engine u st)))
        with (get_obj iu (stop_engine u st)).
      now rewrite get_obj_stop_engine.
  - exact Hou.
  - unfold spritecollide_keep. rewrite Ha. unfold filter.
    now rewrite Hoa, Hcr.
Qed.

Lemma core_lives st st' : core st' = core st -> lives st' = lives st.
Proof. unfold core. intro H. now injection H. Qed.

Lemma crashes_same_place (u a : Obj) :
  fst (obj_pos u) = fst (obj_pos a) -> snd (obj_pos u) = snd (obj_pos a) ->
  0 < obj_r u + obj_r a -> crashes_into u a = true.
Proof.
  intros H1 H2 H3. unfold crashes_into. apply Rltb_true.
  now rewrite vlength_zero.
Qed.

(** ** The frame of [st_overlap] *)

Lemma update_overlap :
  exists st',
    update example_config example_oracle 0 (1 / 8) no_keys st_overlap
    = Some st' /\
    lives st' = 1%Z /\ score st' = 1580%Z /\ bullets st' = [] /\
    ufos st' = [] /\ ~ In (RObj 1) (all_sprites st') /\
    audio st' = [ChannelPlay 7 FLY_BIG; SoundPlay BREAK_LARGE;
                 SoundPlay BREAK_LARGE; ChannelStop 7; ChannelStop 7;
                 SoundPlay BREAK_LARGE].
Proof.
  unfold update, st_overlap.
  rewrite update_begin_contact by lra.
  set (S1 := st_contact (475 + 5, 360) (470 + 10, 360) (1 / 2 - 1 / 8)
               (15 - 1 / 8) 3).
  unfold handle_collisions.
  rewrite bullets_vs_asteroids_no_bullets by reflexivity.
  rewrite (ship_collisions_two_deaths example_config example_oracle 0 S1
             0%nat (OAsteroid (example_asteroid (475 + 5, 360) (40, 0) Large))
             [] 1%nat (OUfo (example_ufo (470 + 10, 360) (1 / 2 - 1 / 8) 7))
             []);
    [ | simpl; lra | simpl; lra | reflexivity | simpl; lia
      | reflexivity | reflexivity | apply touches_same_place; simpl; lra
      | reflexivity | reflexivity | apply touches_same_place; simpl; lra
      | reflexivity ].
  set (S2 := respawn example_config
               (mark_dead (respawn example_config (mark_dead S1)))).
  rewrite bullets_vs_ufos_no_bullets by reflexivity.
  rewrite (ufos_vs_asteroids_crash example_config example_oracle S2
             1%nat (example_ufo (470 + 10, 360) (1 / 2 - 1 / 8) 7)
             0%nat (example_asteroid (475 + 5, 360) (40, 0) Large));
    [ | reflexivity | reflexivity | reflexivity | reflexivity
      | apply crashes_same_place; simpl; lra ].
  change (stop_engine (example_ufo (470 + 10, 360) (1 / 2 - 1 / 8) 7))
    with (channel_stop 7).
  set (S3 := channel_stop 7 (Sprite_kill 1 (channel_stop 7 S2))).
  destruct (split_asteroid_adds example_config example_oracle 0
              (example_asteroid (475 + 5, 360) (40, 0) Large) S3 eq_refl)
    as (l & Hl & Hadd).
  destruct Hadd as (A1 & A2 & A3 & _ & A5 & A6 & A7 & A8 & _ & A10).
  set (S4 := split_asteroid example_config example_oracle 0 _ S3) in *.
  assert (Hne : asteroids S4 <> []).
  { rewrite A7. destruct l; [discriminate | ]. intro E.
    apply app_eq_nil in E. destruct E; discriminate. }
  unfold wave_progress. destruct (asteroids S4) as [|i rest] eqn:Ea;
    [contradiction | ].
  exists S4. split; [reflexivity | ].
  apply core_lives in A1.
  split; [rewrite A1; reflexivity | ].
  split; [rewrite A2; reflexivity | ].
  split; [rewrite A3; reflexivity | ].
  split; [rewrite A5; reflexivity | ].
  split; [ | rewrite A6; reflexivity].
  rewrite A8. intro Hin. apply in_app_or in Hin.
  destruct Hin as [Hin | Hin].
  - simpl in Hin. destruct Hin as [Hin | []]. discriminate.
  - apply in_map_iff in Hin. destruct Hin as (i' & Hi' & Hin).
    injection Hi' as ->.
    rewrite Forall_forall in A10. apply A10 in Hin. destruct Hin as [Hin _].
    simpl in Hin. lia.
Qed.

(** ** Where the code departs from the spec *)

(** C2: in the frame of [st_overlap] the ship touches the asteroid, comes
    back alive in the middle of the arena, where the UFO is, and dies a
    second time in the same pass over the death checks: [lives] goes from 3
    to 1 in one [update]. *)
Theorem ship_dies_twice_in_one_frame :
  lives st_overlap = 3%Z /\
  exists st',
    update example_config example_oracle 0 (1 / 8) no_keys st_overlap
    = Some st' /\
    lives st' = 1%Z.
Proof.
  split; [reflexivity | ].
  destruct update_overlap as (st' & E & Hl & _).
  exists st'. split; assumption.
Qed.

(** C1: the engine channel of a UFO is not released once on every path.
    In the frame of [st_last_life] the world is reset: the UFO, object 1
    with channel 7, is in no group any more and its channel was never
    stopped.  In the frame of [st_overlap] the UFO crashes into the
    asteroid: it leaves the groups and its channel is stopped twice, once
    by [UFO.kill] and once by the loop over the crashes. *)
Theorem ufo_channel_release_counts :
  (stops 7 (audio st_last_life) = 0%nat /\
   exists st' u,
     update example_config example_oracle 0 (1 / 8) no_keys st_last_life
     = Some st' /\
     get_obj 1 st' = Some (OUfo u) /\ u_channel u = Some 7%nat /\
     ufos st' = [] /\ ~ In (RObj 1) (all_sprites st') /\
     stops 7 (audio st') = 0%nat) /\
  (stops 7 (audio st_overlap) = 0%nat /\
   exists st',
     update example_config example_oracle 0 (1 / 8) no_keys st_overlap
     = Some st' /\
     ufos st' = [] /\ ~ In (RObj 1) (all_sprites st') /\
     stops 7 (audio st') = 2%nat).
Proof.
  split; (split; [reflexivity | ]).
  - destruct update_last_life as (st' & E & Hf & Ha & Hn & u & Hu & Hch).
    exists st', u. split; [exact E | ]. split; [exact Hu | ].
    split; [exact Hch | ].
    pose proof Hf as (_ & _ & _ & _ & _ & _ & F7 & _ & F9 & _).
    split; [exact F7 | ]. split; [ | rewrite Ha; reflexivity].
    rewrite F9. intros [Hin | Hin]; [discriminate | ].
    apply in_map_iff in Hin. destruct Hin as (i & Hi & Hin).
    injection Hi as ->.
    rewrite Forall_forall in Hn. apply Hn in Hin. lia.
  - destruct update_overlap as (st' & E & _ & _ & _ & Hu & Hs & Ha).
    exists st'. split; [exact E | ]. split; [exact Hu | ].
    split; [exact Hs | ]. rewrite Ha. reflexivity.
Qed.

(** ** Bullets against asteroids *)

Lemma kill_groups i o st :
  get_obj i st = Some o ->
  bullets (kill i st) = remove_id i (bullets st) /\
  asteroids (kill i st) = remove_id i (asteroids st) /\
  all_sprites (kill i st) = remove_ref i (all_sprites st).
Proof.
  intro H. unfold kill. rewrite H.
  destruct o as [b|a|u]; try (repeat split; reflexivity).
  unfold UFO_kill. destruct (u_channel u); repeat split; reflexivity.
Qed.

Lemma remove_ref_gone i g : ~ In (RObj i) (remove_ref i g).
Proof.
  unfold remove_ref. intro H. apply filter_In in H. destruct H as [_ H].
  now rewrite Nat.eqb_refl in H.
Qed.

Lemma remove_ref_subset i r g : In r (remove_ref i g) -> In r g.
Proof. unfold remove_ref. intro H. now apply filter_In in H. Qed.

Lemma kill_all_sprites_subset i r st :
  In r (all_sprites (kill i st)) -> In r (all_sprites st).
Proof.
  destruct (get_obj i st) as [o|] eqn:E.
  - destruct (kill_groups i o st E) as (_ & _ & ->). apply remove_ref_subset.
  - unfold kill. now rewrite E.
Qed.

Lemma filter_filter {A} (p q : A -> bool) l :
  filter p (filter q l) = filter (fun x => q x && p x) l.
Proof.
  induction l as [|x l IH]; simpl; [reflexivity | ].
  destruct (q x); simpl; [destruct (p x) | ]; now rewrite IH.
Qed.

(** What [spritecollide] with [dokill] reports and removes. *)
Lemma spritecollide_kill_spec f snap st :
  fst (spritecollide_kill f snap st)
  = filter (fun i => match get_obj i st with
                     | Some o => f o
                     | None => false
                     end) snap /\
  bullets (snd (spritecollide_kill f snap st))
  = filter (fun j => negb (existsb (Nat.eqb j)
                             (fst (spritecollide_kill f snap st))))
      (bullets st) /\
  (forall i, In i (fst (spritecollide_kill f snap st)) ->
             ~ In (RObj i) (all_sprites (snd (spritecollide_kill f snap st)))) /\
  (forall r, In r (all_sprites (snd (spritecollide_kill f snap st))) ->
             In r (all_sprites st)).
Proof.
  revert st. induction snap as [|i rest IH]; intro st; simpl.
  - repeat split; auto.
    induction (bullets st) as [|x l IHl]; simpl; [reflexivity | now rewrite <- IHl].
  - destruct (get_obj i st) as [o|] eqn:E; [ | apply IH].
    destruct (f o); [ | apply IH].
    specialize (IH (kill i st)).
    destruct (spritecollide_kill f rest (kill i st)) as [cr st1] eqn:E1.
    simpl in *. destruct IH as (I1 & I2 & I3 & I4).
    destruct (kill_groups i o st E) as (K1 & _ & K3).
    split; [ | split; [ | split] ].
    + f_equal. rewrite I1. apply filter_ext. intro j.
      now rewrite get_obj_kill.
    + rewrite I2, K1. unfold remove_id. rewrite filter_filter.
      apply filter_ext. intro j. rewrite negb_orb.
      destruct (Nat.eqb j i); reflexivity.
    + intros j [<- | Hj]; [ | now apply I3].
      intro Hin. apply I4 in Hin. rewrite K3 in Hin.
      exact (remove_ref_gone _ _ Hin).
    + intros r Hr. apply I4 in Hr. now apply kill_all_sprites_subset in Hr.
Qed.

Lemma existsb_eqb_filter (p : nat -> bool) (l : list nat) (j : nat) :
  In j l -> existsb (Nat.eqb j) (filter p l) = p j.
Proof.
  intro Hj. destruct (p j) eqn:E.
  - apply existsb_exists. exists j. split; [ | apply Nat.eqb_refl].
    apply filter_In. now split.
  - apply Bool.not_true_is_false. intro H. apply existsb_exists in H.
    destruct H as (x & Hx & Hjx). apply Nat.eqb_eq in Hjx. subst x.
    apply filter_In in Hx. destruct Hx as [_ Hx]. congruence.
Qed.

(** The first collision pass, in closed form: the bullets that stay are
    those that hit no asteroid of the snapshot; every reported pair is a
    hit, and its bullet has left [all_sprites]. *)
Lemma groupcollide_hits_spec snap st0 st :
  objs st = objs st0 ->
  bullets (snd (groupcollide bullet_hits bullets false true snap st))
  = filter (fun ib => negb (existsb (fun ia => hit_at st0 ia ib) snap))
      (bullets st) /\
  (forall ia l,
     In (ia, l) (fst (groupcollide bullet_hits bullets false true snap st)) ->
     In ia snap /\ l <> [] /\
     forall ib, In ib l ->
       In ib (bullets st) /\ hit_at st0 ia ib = true /\
       ~ In (RObj ib)
           (all_sprites
              (snd (groupcollide bullet_hits bullets false true snap st)))) /\
  (forall r,
     In r (all_sprites
             (snd (groupcollide bullet_hits bullets false true snap st))) ->
     In r (all_sprites st)).
Proof.
  revert st. induction snap as [|ia rest IH]; intros st Ho.
  - simpl. split; [ | split]; try tauto.
    induction (bullets st) as [|x l IHl]; simpl; [reflexivity | now rewrite <- IHl].
  - cbn [groupcollide].
    assert (Hget : forall i, get_obj i st = get_obj i st0)
      by (intro i; unfold get_obj; now rewrite Ho).
    destruct (get_obj ia st) as [oa|] eqn:Ea.
    2:{ destruct (IH st Ho) as (I1 & I2 & I3).
        assert (Hno : forall ib, hit_at st0 ia ib = false).
        { intro ib. unfold hit_at. now rewrite <- Hget, Ea. }
        split; [ | split].
        - rewrite I1. apply filter_ext. intro ib. simpl. now rewrite Hno.
        - intros ia' l Hin. destruct (I2 ia' l Hin) as (J1 & J2 & J3).
          split; [now right | ]. split; assumption.
        - exact I3. }
    pose proof (spritecollide_kill_spec (bullet_hits oa) (bullets st) st)
      as (S1 & S2 & S3 & S4).
    pose proof (spritecollide_kill_frame (bullet_hits oa) (bullets st) st)
      as (_ & _ & S5).
    destruct (spritecollide_kill (bullet_hits oa) (bullets st) st)
      as [col st'] eqn:Es.
    cbn [fst snd] in S1, S2, S3, S4, S5.
    assert (Hcol : col = filter (hit_at st0 ia) (bullets st)).
    { rewrite S1. apply filter_ext. intro ib. unfold hit_at.
      now rewrite <- !Hget, Ea. }
    assert (Hb' : bullets st'
                  = filter (fun j => negb (hit_at st0 ia j)) (bullets st)).
    { rewrite S2. apply filter_ext_in. intros j Hj.
      now rewrite Hcol, existsb_eqb_filter. }
    assert (Ho' : objs st' = objs st0) by congruence.
    destruct (IH st' Ho') as (I1 & I2 & I3).
    assert (Hb1 : bullets (snd (groupcollide bullet_hits bullets false true
                                  rest st'))
                  = filter (fun ib => negb (existsb (fun ia0 => hit_at st0 ia0 ib)
                                              (ia :: rest))) (bullets st)).
    { rewrite I1, Hb', filter_filter. apply filter_ext. intro j. simpl.
      now rewrite negb_orb. }
    assert (Hold : forall ia' l,
               In (ia', l) (fst (groupcollide bullet_hits bullets false true
                                   rest st')) ->
               In ia' (ia :: rest) /\ l <> [] /\
               forall ib, In ib l ->
                 In ib (bullets st) /\ hit_at st0 ia' ib = true /\
                 ~ In (RObj ib)
                     (all_sprites
                        (snd (groupcollide bullet_hits bullets false true
                                rest st')))).
    { intros ia' l Hin. destruct (I2 ia' l Hin) as (J1 & J2 & J3).
      split; [now right | ]. split; [exact J2 | ].
      intros ib Hib. destruct (J3 ib Hib) as (K1 & K2 & K3).
      split; [ | split; assumption].
      rewrite Hb' in K1. now apply filter_In in K1. }
    destruct col as [|c col'].
    + split; [exact Hb1 | ]. split; [exact Hold | ].
      intros r Hr. apply S4. now apply I3.
    + destruct (groupcollide bullet_hits bullets false true rest st')
        as [crashed st3] eqn:Eg.
      cbn [fst snd] in *.
      split; [exact Hb1 | ]. split.
      * intros ia' l [Hin | Hin]; [ | now apply Hold].
        injection Hin as <- <-. split; [now left | ].
        split; [discriminate | ].
        intros ib Hib. rewrite Hcol in Hib. apply filter_In in Hib.
        destruct Hib as [Hib1 Hib2]. split; [exact Hib1 | ].
        split; [exact Hib2 | ].
        intro Hin. apply I3 in Hin. revert Hin. apply S3.
        rewrite Hcol. apply filter_In. now split.
      * intros r Hr. apply S4. now apply I3.
Qed.

Lemma groupcollide_hits_complete snap st ib :
  In ib (bullets st) ->
  ~ In ib (bullets (snd (groupcollide bullet_hits bullets false true snap st))) ->
  exists ia l,
    In (ia, l) (fst (groupcollide bullet_hits bullets false true snap st)) /\
    In ib l.
Proof.
  revert st. induction snap as [|ia rest IH]; intros st Hin Hout.
  - simpl in Hout. contradiction.
  - cbn [groupcollide] in *.
    destruct (get_obj ia st) as [oa|] eqn:Ea; [ | now apply IH].
    pose proof (spritecollide_kill_spec (bullet_hits oa) (bullets st) st)
      as (S1 & S2 & _).
    destruct (spritecollide_kill (bullet_hits oa) (bullets st) st)
      as [col st'] eqn:Es.
    cbn [fst snd] in S1, S2.
    destruct (existsb (Nat.eqb ib) col) eqn:Ecol.
    + apply existsb_exists in Ecol. destruct Ecol as (x & Hx & Hxe).
      apply Nat.eqb_eq in Hxe. subst x.
      destruct col as [|c col']; [contradiction | ].
      destruct (groupcollide bullet_hits bullets false true rest st')
        as [crashed st3].
      exists ia, (c :: col'). split; [now left | exact Hx].
    + assert (Hin' : In ib (bullets st')).
      { rewrite S2. apply filter_In. split; [exact Hin | now rewrite Ecol]. }
      destruct col as [|c col'].
      * now apply IH.
      * destruct (groupcollide bullet_hits bullets false true rest st')
          as [crashed st3] eqn:Eg.
        cbn [fst snd] in *.
        destruct (IH st' Hin') as (ia' & l & H1 & H2).
        { now rewrite Eg. }
        rewrite Eg in H1. exists ia', l. split; [now right | exact H2].
Qed.

(** ** All the asteroids that were hit are split *)

Lemma get_obj_app i st st' ext o :
  objs st' = objs st ++ ext -> get_obj i st = Some o -> get_obj i st' = Some o.
Proof.
  unfold get_obj. intros -> H. rewrite nth_error_app1; [exact H | ].
  apply nth_error_Some. congruence.
Qed.

Lemma split_asteroid_groups C Src i a st :
  get_obj i st = Some (OAsteroid a) ->
  exists l ext,
    length l = length (AST_split C (a_size a)) /\
    asteroids (split_asteroid C Src i a st) = remove_id i (asteroids st) ++ l /\
    Forall (fun j => (length (objs st) <= j)%nat /\
                     exists a', get_obj j (split_asteroid C Src i a st)
                                = Some (OAsteroid a')) l /\
    objs (split_asteroid C Src i a st) = objs st ++ ext /\
    score (split_asteroid C Src i a st)
    = (score st + AST_score C (a_size a))%Z /\
    bullets (split_asteroid C Src i a st) = remove_id i (bullets st).
Proof.
  intro Hi.
  destruct (split_asteroid_adds C Src i a st Hi) as (l & Hl & Hadd).
  destruct Hadd as (_ & A2 & A3 & _ & _ & _ & A7 & _ & [ext A9] & A10).
  exists l, ext. repeat split; assumption.
Qed.

Lemma sumZ_cons x l : sumZ (x :: l) = (x + sumZ l)%Z.
Proof. reflexivity. Qed.

Lemma split_all_spec C Src ids st :
  (forall i, In i ids -> get_obj i st <> None) ->
  (forall i a, In i ids -> get_obj i st = Some (OAsteroid a) ->
               ~ In i (asteroids (split_all C Src ids st))) /\
  (exists ext, objs (split_all C Src ids st) = objs st ++ ext) /\
  (forall j, (j < length (objs st))%nat ->
             In j (asteroids (split_all C Src ids st)) ->
             In j (asteroids st)) /\
  score (split_all C Src ids st)
  = (score st + sumZ (map (ast_score_at C st) ids))%Z.
Proof.
  revert st. induction ids as [|i rest IH]; intros st Hobj.
  - simpl. repeat split; try tauto;
      [exists []; now rewrite app_nil_r | unfold sumZ; simpl; lia].
  - cbn [split_all map]. rewrite sumZ_cons.
    assert (Hrest : forall j, In j rest -> get_obj j st <> None)
      by (intros j Hj; apply Hobj; now right).
    destruct (get_obj i st) as [o|] eqn:Ei.
    2:{ exfalso. apply (Hobj i); [now left | exact Ei]. }
    assert (Hlt : (i < length (objs st))%nat).
    { apply nth_error_Some. unfold get_obj in Ei. congruence. }
    destruct o as [b|a|u].
    1,3: destruct (IH st Hrest) as (I1 & I2 & I3 & I4);
         (split; [ | split; [exact I2 | split; [exact I3 | ] ] ]);
         [ intros j a' [<- | Hj] Hja; [congruence | now apply I1 with a']
         | unfold ast_score_at at 1; rewrite Ei, I4; lia ].
    destruct (split_asteroid_groups C Src i a st Ei)
      as (l & ext & Hl & Ha & Hnew & Ho & Hs & _).
    set (st2 := split_asteroid C Src i a st) in *.
    assert (Hrest2 : forall j, In j rest -> get_obj j st2 <> None).
    { intros j Hj. specialize (Hrest j Hj).
      destruct (get_obj j st) as [o|] eqn:Ej; [ | contradiction].
      now rewrite (get_obj_app j st st2 ext o Ho Ej). }
    destruct (IH st2 Hrest2) as (I1 & [ext2 I2] & I3 & I4).
    assert (Hlen : (length (objs st) <= length (objs st2))%nat)
      by (rewrite Ho, length_app; lia).
    assert (Hold : forall j, (j < length (objs st))%nat ->
                             In j (asteroids st2) -> In j (remove_id i (asteroids st))).
    { intros j Hj Hin. rewrite Ha in Hin. apply in_app_or in Hin.
      destruct Hin as [Hin | Hin]; [exact Hin | ].
      rewrite Forall_forall in Hnew. apply Hnew in Hin. lia. }
    split; [ | split; [ | split] ].
    + intros j a' [<- | Hj] Hja.
      * intro Hin. apply I3 in Hin; [ | lia].
        apply Hold in Hin; [ | exact Hlt].
        unfold remove_id in Hin. apply filter_In in Hin.
        destruct Hin as [_ Hin]. now rewrite Nat.eqb_refl in Hin.
      * apply I1 with a'; [exact Hj | ].
        exact (get_obj_app j st st2 ext _ Ho Hja).
    + exists (ext ++ ext2). now rewrite I2, Ho, app_assoc.
    + intros j Hj Hin. apply I3 in Hin; [ | lia].
      apply Hold in Hin; [ | exact Hj].
      unfold remove_id in Hin. now apply filter_In in Hin.
    + rewrite I4, Hs. unfold ast_score_at at 2. rewrite Ei.
      assert (Hmap : map (ast_score_at C st2) rest
                     = map (ast_score_at C st) rest).
      { apply map_ext_in. intros j Hj. specialize (Hrest j Hj).
        unfold ast_score_at.
        destruct (get_obj j st) as [o|] eqn:Ej; [ | contradiction].
        now rewrite (get_obj_app j st st2 ext o Ho Ej). }
      rewrite Hmap. lia.
Qed.

(** ** The claims on the collisions *)

Lemma hit_at_spec st ia ib :
  hit_at st ia ib = true <->
  exists oa ob,
    get_obj ia st = Some oa /\ get_obj ib st = Some ob /\
    vlength (vsub (obj_pos oa) (obj_pos ob)) < obj_r oa.
Proof.
  unfold hit_at, bullet_hits. split.
  - destruct (get_obj ia st) as [oa|]; [ | discriminate].
    destruct (get_obj ib st) as [ob|]; [ | discriminate].
    intro H. exists oa, ob. repeat split. now apply Rltb_spec.
  - intros (oa & ob & -> & -> & H). now apply Rltb_spec.
Qed.

(** C9: the test of a player bullet against an asteroid is true exactly
    when the distance of the centers is below the radius of the asteroid,
    whatever the radius of the bullet, and the radius of an asteroid is the
    one [AST_SIZES] gives its size.  In the first collision pass a bullet
    stays in its group exactly when it hits no asteroid of the group; every
    bullet that leaves is reported with an asteroid it hits; every reported
    bullet has left [bullets] and [all_sprites]; every reported asteroid is
    passed to [split_asteroid] and is out of the group afterwards, and the
    score grows by the scores of the reported asteroids.  Splitting removes
    the asteroid and adds one new asteroid per entry of its "split"
    table. *)
Theorem bullets_vs_asteroids_spec (C : Config) (Src : Oracle) (st : State) :
  (forall a b, bullet_hits a b = true <->
               vlength (vsub (obj_pos a) (obj_pos b)) < obj_r a) /\
  (forall a b, obj_r a <= vlength (vsub (obj_pos a) (obj_pos b)) ->
               bullet_hits a b = false) /\
  (forall pos vel size s,
     a_r (fst (Asteroid_init C Src pos vel size s)) = AST_r C size) /\
  (forall ib,
     In ib (bullets (snd (groupcollide bullet_hits bullets false true
                            (asteroids st) st))) <->
     In ib (bullets st) /\
     forall ia, In ia (asteroids st) -> hit_at st ia ib = false) /\
  (forall ib,
     In ib (bullets st) ->
     ~ In ib (bullets (snd (groupcollide bullet_hits bullets false true
                              (asteroids st) st))) ->
     exists ia l,
       In (ia, l) (fst (groupcollide bullet_hits bullets false true
                          (asteroids st) st)) /\ In ib l) /\
  (forall ia l ib,
     In (ia, l) (fst (groupcollide bullet_hits bullets false true
                        (asteroids st) st)) ->
     In ib l ->
     In ia (asteroids st) /\ In ib (bullets st) /\
     hit_at st ia ib = true /\
     ~ In ib (bullets (snd (groupcollide bullet_hits bullets false true
                              (asteroids st) st))) /\
     ~ In (RObj ib)
         (all_sprites (snd (groupcollide bullet_hits bullets false true
                              (asteroids st) st)))) /\
  bullets_vs_asteroids C Src st
  = split_all C Src
      (map fst (fst (groupcollide bullet_hits bullets false true
                       (asteroids st) st)))
      (snd (groupcollide bullet_hits bullets false true (asteroids st) st)) /\
  (forall ia l a,
     In (ia, l) (fst (groupcollide bullet_hits bullets false true
                        (asteroids st) st)) ->
     get_obj ia st = Some (OAsteroid a) ->
     ~ In ia (asteroids (bullets_vs_asteroids C Src st))) /\
  score (bullets_vs_asteroids C Src st)
  = (score st
     + sumZ (map (ast_score_at C st)
               (map fst (fst (groupcollide bullet_hits bullets false true
                                (asteroids st) st)))))%Z /\
  (forall i a s,
     get_obj i s = Some (OAsteroid a) ->
     exists l,
       length l = length (AST_split C (a_size a)) /\
       asteroids (split_asteroid C Src i a s) = remove_id i (asteroids s) ++ l /\
       Forall (fun j => (length (objs s) <= j)%nat /\
                        exists a', get_obj j (split_asteroid C Src i a s)
                                   = Some (OAsteroid a')) l).
Proof.
  pose proof (groupcollide_hits_spec (asteroids st) st st eq_refl)
    as (G1 & G2 & G3).
  pose proof (groupcollide_frame bullet_hits bullets false true
                (asteroids st) st) as (_ & Gs & Go).
  assert (Hbullets : forall ib,
    In ib (bullets (snd (groupcollide bullet_hits bullets false true
                           (asteroids st) st))) <->
    In ib (bullets st) /\
    forall ia, In ia (asteroids st) -> hit_at st ia ib = false).
  { intro ib. rewrite G1, filter_In. split; intros [H1 H2]; (split; [exact H1 | ]).
    - intros ia Hia. apply negb_true_iff in H2.
      destruct (hit_at st ia ib) eqn:E; [ | reflexivity].
      assert (existsb (fun ia0 => hit_at st ia0 ib) (asteroids st) = true)
        by (apply existsb_exists; now exists ia).
      congruence.
    - apply negb_true_iff. apply Bool.not_true_is_false. intro H.
      apply existsb_exists in H. destruct H as (ia & Hia & Hh).
      rewrite (H2 ia Hia) in Hh. discriminate. }
  assert (Hunfold : bullets_vs_asteroids C Src st
    = split_all C Src
        (map fst (fst (groupcollide bullet_hits bullets false true
                         (asteroids st) st)))
        (snd (groupcollide bullet_hits bullets false true (asteroids st) st))).
  { unfold bullets_vs_asteroids.
    now destruct (groupcollide bullet_hits bullets false true (asteroids st) st). }
  assert (Hkeys : forall i,
    In i (map fst (fst (groupcollide bullet_hits bullets false true
                          (asteroids st) st))) ->
    get_obj i (snd (groupcollide bullet_hits bullets false true
                      (asteroids st) st)) <> None).
  { intros i Hi. apply in_map_iff in Hi. destruct Hi as ([ia l] & <- & Hin).
    destruct (G2 ia l Hin) as (_ & Hl & Hall).
    destruct l as [|ib l']; [contradiction | ].
    destruct (Hall ib (or_introl eq_refl)) as (_ & Hh & _).
    apply hit_at_spec in Hh. destruct Hh as (oa & _ & Hoa & _).
    unfold get_obj in *. rewrite Go. simpl. congruence. }
  pose proof (split_all_spec C Src _ _ Hkeys) as (P1 & _ & _ & P4).
  split; [intros a b; apply Rltb_spec | ].
  split.
  { intros a b H. unfold bullet_hits. apply Rltb_false. lra. }
  split.
  { intros pos vel size s. unfold Asteroid_init.
    now destruct (make_poly Src size (AST_r C size) s). }
  split; [exact Hbullets | ].
  split; [intros ib; apply groupcollide_hits_complete | ].
  split.
  { intros ia l ib Hin Hib. destruct (G2 ia l Hin) as (H1 & _ & H3).
    destruct (H3 ib Hib) as (K1 & K2 & K3).
    split; [exact H1 | ]. split; [exact K1 | ]. split; [exact K2 | ].
    split; [ | exact K3].
    intro Hb. apply Hbullets in Hb. destruct Hb as [_ Hb].
    rewrite (Hb ia H1) in K2. discriminate. }
  split; [exact Hunfold | ].
  split.
  { intros ia l a Hin Ha. rewrite Hunfold. apply (P1 ia a).
    - apply in_map_iff. exists (ia, l). now split.
    - unfold get_obj in *. now rewrite Go. }
  split.
  { rewrite Hunfold, P4, Gs. f_equal. f_equal. apply map_ext. intro i.
    unfold ast_score_at, get_obj. now rewrite Go. }
  intros i a s Hi.
  destruct (split_asteroid_groups C Src i a s Hi)
    as (l & ext & Hl & Ha & Hnew & _).
  exists l. repeat split; assumption.
Qed.

Lemma bullets_vs_asteroids_spec_witness :
  ~ In 1%nat (bullets (snd (groupcollide bullet_hits bullets false true
                              (asteroids st_shot) st_shot))).
Proof.
  destruct (bullets_vs_asteroids_spec example_config example_oracle st_shot)
    as (_ & _ & _ & H & _).
  intro Hin. apply H in Hin. destruct Hin as [_ Hin].
  specialize (Hin 0%nat (or_introl eq_refl)).
  assert (Hh : hit_at st_shot 0 1 = true).
  { unfold hit_at, bullet_hits. simpl get_obj. cbv iota.
    apply Rltb_true. rewrite vlength_zero by reflexivity. simpl. lra. }
  congruence.
Defined.

(** C10: every call of [split_asteroid] adds the score of the size of the
    asteroid.  The loop over the crashes of UFOs into asteroids calls it
    too: with no player bullet in the world and the ship in its safe
    window, one UFO over one asteroid raises the score by the score of that
    asteroid. *)
Theorem split_always_scores (C : Config) (Src : Oracle) :
  (forall i a st,
     score (split_asteroid C Src i a st)
     = (score st + AST_score C (a_size a))%Z) /\
  (forall fuel st iu u ia a,
     bullets st = [] -> 0 < safe st ->
     ufos st = [iu] -> asteroids st = [ia] ->
     get_obj iu st = Some (OUfo u) ->
     get_obj ia st = Some (OAsteroid a) ->
     crashes_into (OUfo u) (OAsteroid a) = true ->
     exists st',
       handle_collisions C Src fuel st = Some st' /\
       score st' = (score st + AST_score C (a_size a))%Z).
Proof.
  split.
  - intros i a st. apply split_asteroid_frame.
  - intros fuel st iu u ia a Hb Hs Hu Ha Hou Hoa Hcr.
    unfold handle_collisions.
    rewrite bullets_vs_asteroids_no_bullets by exact Hb.
    unfold ship_collisions.
    rewrite (Rleb_false (safe st) 0) by lra.
    rewrite andb_false_r.
    rewrite bullets_vs_ufos_no_bullets by exact Hb.
    rewrite (ufos_vs_asteroids_crash C Src st iu u ia a Hu Ha Hou Hoa Hcr).
    eexists. split; [reflexivity | ].
    destruct (split_asteroid_frame C Src ia a
                (stop_engine u (Sprite_kill iu (stop_engine u st))))
      as [-> _].
    unfold stop_engine. destruct (u_channel u); reflexivity.
Qed.

Lemma split_always_scores_witness :
  exists st',
    handle_collisions example_config example_oracle 0 st_safe_crash = Some st' /\
    score st' = 1580%Z.
Proof.
  destruct (split_always_scores example_config example_oracle) as [_ H].
  destruct (H 0%nat st_safe_crash 1%nat (example_ufo (480, 360) (3 / 8) 7)
              0%nat (example_asteroid (480, 360) (40, 0) Large))
    as (st' & E & Hs).
  - reflexivity.
  - simpl. lra.
  - reflexivity.
  - reflexivity.
  - reflexivity.
  - reflexivity.
  - apply crashes_same_place; simpl; lra.
  - exists st'. split; [exact E | ]. rewrite Hs. reflexivity.
Defined.

(** * Further properties

    ** Firing *)

(** X1: [try_fire] does nothing when the world already holds [MAX_BULLETS]
    player bullets or more, or while the cooldown of the ship is positive.
    Otherwise it adds exactly one new bullet, at the end of [bullets] and of
    [all_sprites], sets the cooldown to [SHIP_FIRE_RATE] and plays the shot
    sound.  So it never brings the number of player bullets above
    [MAX_BULLETS]. *)
Theorem try_fire_spec (C : Config) (st : State) :
  ((MAX_BULLETS C <= Z.of_nat (length (bullets st)))%Z \/
   0 < s_cool (ship st) ->
   try_fire C st = st) /\
  ((Z.of_nat (length (bullets st)) < MAX_BULLETS C)%Z ->
   s_cool (ship st) <= 0 ->
   exists b,
     bullets (try_fire C st) = bullets st ++ [length (objs st)] /\
     all_sprites (try_fire C st)
     = all_sprites st ++ [RObj (length (objs st))] /\
     objs (try_fire C st) = objs st ++ [OBullet b] /\
     fst (Ship_fire C (ship st)) = Some b /\
     b_ttl b = BULLET_TTL C /\
     s_cool (ship (try_fire C st)) = SHIP_FIRE_RATE C /\
     audio (try_fire C st) = audio st ++ [SoundPlay SHOT] /\
     (Z.of_nat (length (bullets (try_fire C st))) <= MAX_BULLETS C)%Z) /\
  (Z.of_nat (length (bullets (try_fire C st)))
   <= Z.max (MAX_BULLETS C) (Z.of_nat (length (bullets st))))%Z.
Proof.
  unfold try_fire, Ship_fire.
  destruct (Z.leb_spec (MAX_BULLETS C) (Z.of_nat (length (bullets st))))
    as [Hfull | Hroom].
  - split; [reflexivity | ]. split; [lia | lia].
  - unfold Rltb. destruct (Rlt_dec 0 (s_cool (ship st))) as [Hc | Hc].
    + split; [reflexivity | ]. split; [intros _ H; lra | lia].
    + split; [intros [H | H]; [lia | contradiction] | ].
      split.
      * intros _ _. eexists. simpl.
        repeat split; try reflexivity.
        rewrite length_app. simpl. lia.
      * simpl. rewrite length_app. simpl. lia.
Qed.

Lemma try_fire_spec_witness :
  bullets (try_fire example_config st_wave_due) = [0%nat].
Proof.
  destruct (try_fire_spec example_config st_wave_due) as (_ & H & _).
  destruct H as (b & H & _); [simpl; lia | simpl; lra | ].
  rewrite H. reflexivity.
Defined.

(** ** The sprites of the world, change by change *)

Lemma evolves_trans grows st1 st2 st3 :
  evolves_in grows st1 st2 -> evolves_in grows st2 st3 ->
  evolves_in grows st1 st3.
Proof.
  induction 1 as [st | st sta stb Hs _ IH]; intro H; [exact H | ].
  eapply evolves_step; [exact Hs | apply IH, H].
Qed.

Lemma evolves_one grows st st' :
  step_in grows st st' -> evolves_in grows st st'.
Proof. intro H. eapply evolves_step; [exact H | apply evolves_refl]. Qed.

Lemma step_core grows st st' : step_in grows st st' -> core st' = core st.
Proof. destruct 1; assumption. Qed.

Lemma evolves_core grows st st' :
  evolves_in grows st st' -> core st' = core st.
Proof.
  induction 1 as [st | st sta stb Hs _ IH]; [reflexivity | ].
  rewrite IH. eapply step_core, Hs.
Qed.

Lemma kill_step i st : step_in not_bullets st (kill i st).
Proof.
  unfold kill. destruct (get_obj i st) as [[b|a|u]|].
  - apply (step_kill _ _ _ i); try reflexivity. intros []; reflexivity.
  - apply (step_kill _ _ _ i); try reflexivity. intros []; reflexivity.
  - apply (step_kill _ _ _ i); unfold UFO_kill; destruct (u_channel u);
      try reflexivity; intros []; reflexivity.
  - apply step_same; reflexivity.
Qed.

Lemma put_obj_step i o o' st :
  get_obj i st = Some o -> class_of o' = class_of o ->
  step_in not_bullets st (put_obj i o' st).
Proof.
  intros H Hc. apply (step_put _ _ _ i o o'); try assumption; reflexivity.
Qed.

Lemma length_list_put {A} i (x : A) l : length (list_put i x l) = length l.
Proof.
  revert i. induction l as [|h t IH]; intros [|i]; simpl; auto.
Qed.

Lemma nth_error_list_put {A} i j (x : A) l :
  nth_error (list_put i x l) j
  = if Nat.eqb j i then match nth_error l j with
                        | Some _ => Some x
                        | None => None
                        end
    else nth_error l j.
Proof.
  revert i j. induction l as [|h t IH]; intros [|i] [|j]; simpl; auto.
  - destruct (Nat.eqb j i); reflexivity.
Qed.

Lemma get_obj_put_obj i j o st :
  get_obj j (put_obj i o st)
  = if Nat.eqb j i then match get_obj j st with
                        | Some _ => Some o
                        | None => None
                        end
    else get_obj j st.
Proof. unfold get_obj, put_obj. simpl. apply nth_error_list_put. Qed.

Lemma get_obj_put_same i o o0 st :
  get_obj i st = Some o0 -> get_obj i (put_obj i o st) = Some o.
Proof.
  intro H. rewrite get_obj_put_obj, Nat.eqb_refl, H. reflexivity.
Qed.

Lemma Bullet_update_evolves C dt i b st :
  get_obj i st = Some (OBullet b) ->
  evolves_in not_bullets st (Bullet_update C dt i b st).
Proof.
  intro H. unfold Bullet_update. cbv zeta.
  set (b1 := Bullet_move C dt b).
  set (st1 := put_obj i (OBullet b1) st).
  assert (H1 : get_obj i st1 = Some (OBullet b1))
    by (unfold st1; eapply get_obj_put_same; exact H).
  assert (E1 : evolves_in not_bullets st st1)
    by (apply evolves_one; eapply put_obj_step; [exact H | reflexivity]).
  eapply evolves_trans; [exact E1 | ].
  destruct (Rleb (b_ttl b1) 0).
  - eapply evolves_step; [apply kill_step | ].
    apply evolves_one. apply (put_obj_step i (OBullet b1)); [ | reflexivity].
    rewrite get_obj_kill. exact H1.
  - apply evolves_one.
    apply (put_obj_step i (OBullet b1)); [exact H1 | reflexivity].
Qed.

Lemma sprite_update_evolves C dt i st :
  evolves_in not_bullets st (sprite_update C dt (RObj i) st).
Proof.
  unfold sprite_update. destruct (get_obj i st) as [[b|a|u]|] eqn:E.
  - apply Bullet_update_evolves, E.
  - apply evolves_one. eapply put_obj_step; [exact E | reflexivity].
  - apply evolves_one. eapply put_obj_step; [exact E | reflexivity].
  - apply evolves_refl.
Qed.

Lemma same_step st st' :
  bullets st' = bullets st -> enemy_bullets st' = enemy_bullets st ->
  asteroids st' = asteroids st -> ufos st' = ufos st ->
  all_sprites st' = all_sprites st -> objs st' = objs st ->
  core st' = core st -> step_in not_bullets st st'.
Proof.
  intros. apply step_same; try assumption. intros []; assumption.
Qed.

Lemma uniform_step Src a b st :
  step_in not_bullets st (snd (uniform Src a b st)).
Proof. apply same_step; reflexivity. Qed.

Lemma rand_unit_vec_step Src st :
  step_in not_bullets st (snd (rand_unit_vec Src st)).
Proof. apply same_step; reflexivity. Qed.

Lemma rand_edge_pos_step Src st :
  step_in not_bullets st (snd (rand_edge_pos Src st)).
Proof. apply same_step; reflexivity. Qed.

Lemma play_step s st : step_in not_bullets st (play s st).
Proof. apply same_step; reflexivity. Qed.

Lemma channel_stop_step ch st : step_in not_bullets st (channel_stop ch st).
Proof. apply same_step; reflexivity. Qed.

Lemma set_score_step v st : step_in not_bullets st (set_score v st).
Proof. apply same_step; reflexivity. Qed.

Lemma stop_engine_step u st : step_in not_bullets st (stop_engine u st).
Proof.
  unfold stop_engine. destruct (u_channel u); apply same_step; reflexivity.
Qed.

Lemma poly_points_step Src r steps range st :
  step_in not_bullets st (snd (poly_points Src r steps range st)).
Proof.
  rewrite poly_points_snd. apply same_step; reflexivity.
Qed.

Lemma spawn_asteroid_evolves C Src pos vel size st :
  evolves_in not_bullets st (spawn_asteroid C Src pos vel size st).
Proof.
  destruct (spawn_asteroid_eq C Src pos vel size st) as (a & E & _).
  rewrite E.
  set (st1 := set_rnd_i (poly_steps size + rnd_i st) st).
  eapply evolves_step; [apply (same_step st st1); reflexivity | ].
  apply evolves_one.
  apply (step_add _ _ _ GAsteroids (OAsteroid a)); try reflexivity;
    [discriminate | intros [] Hg; try reflexivity; congruence].
Qed.

Lemma split_asteroid_evolves C Src i a st :
  evolves_in not_bullets st (split_asteroid C Src i a st).
Proof.
  unfold split_asteroid. cbv zeta.
  match goal with |- evolves_in not_bullets _ (fold_left ?f ?l ?s) =>
    assert (H : evolves_in not_bullets st s);
      [ | revert H; generalize s; generalize l ] end.
  - eapply evolves_step;
      [ | eapply evolves_step;
          [apply set_score_step | apply evolves_one, kill_step] ].
    destruct (a_size a); apply play_step.
  - intro l. induction l as [|size l IH]; intros s H; simpl; [exact H | ].
    apply IH. eapply evolves_trans; [exact H | ].
    eapply evolves_step; [apply (rand_unit_vec_step Src s) | ].
    eapply evolves_step;
      [apply (uniform_step Src (AST_VEL_MIN C) (AST_VEL_MAX C)) | ].
    apply spawn_asteroid_evolves.
Qed.

Lemma split_all_evolves C Src ids st :
  evolves_in not_bullets st (split_all C Src ids st).
Proof.
  revert st. induction ids as [|i rest IH]; intro st; simpl.
  - apply evolves_refl.
  - destruct (get_obj i st) as [[b|a|u]|]; try apply IH.
    eapply evolves_trans; [apply split_asteroid_evolves | apply IH].
Qed.

Lemma spritecollide_kill_evolves f snap st :
  evolves_in not_bullets st (snd (spritecollide_kill f snap st)).
Proof.
  revert st. induction snap as [|i rest IH]; intro st; simpl.
  - apply evolves_refl.
  - destruct (get_obj i st) as [o|]; [ | apply IH].
    destruct (f o); [ | apply IH].
    specialize (IH (kill i st)).
    destruct (spritecollide_kill f rest (kill i st)) as [cr st1]. simpl in *.
    eapply evolves_step; [apply kill_step | exact IH].
Qed.

Lemma groupcollide_evolves f gb ka kb snap st :
  evolves_in not_bullets st (snd (groupcollide f gb ka kb snap st)).
Proof.
  revert st. induction snap as [|i rest IH]; intro st; simpl.
  - apply evolves_refl.
  - destruct (get_obj i st) as [o|]; [ | apply IH].
    destruct kb.
    + pose proof (spritecollide_kill_evolves (f o) (gb st) st) as Hs.
      destruct (spritecollide_kill (f o) (gb st) st) as [col st1].
      simpl in Hs. destruct col as [|c col].
      * eapply evolves_trans; [exact Hs | apply IH].
      * specialize (IH (if ka then kill i st1 else st1)).
        destruct (groupcollide f gb ka true rest _) as [cr st3]. simpl in *.
        eapply evolves_trans; [exact Hs | ].
        eapply evolves_trans; [ | exact IH].
        destruct ka; [apply evolves_one, kill_step | apply evolves_refl].
    + destruct (spritecollide_keep (f o) (gb st) st) as [|c col].
      * apply IH.
      * specialize (IH (if ka then kill i st else st)).
        destruct (groupcollide f gb ka false rest _) as [cr st3]. simpl in *.
        eapply evolves_trans; [ | exact IH].
        destruct ka; [apply evolves_one, kill_step | apply evolves_refl].
Qed.

Lemma bullets_vs_asteroids_evolves C Src st :
  evolves_in not_bullets st (bullets_vs_asteroids C Src st).
Proof.
  unfold bullets_vs_asteroids.
  pose proof (groupcollide_evolves bullet_hits bullets false true
                (asteroids st) st) as H.
  destruct (groupcollide _ _ _ _ _ st) as [hits st1]. simpl in H.
  eapply evolves_trans; [exact H | apply split_all_evolves].
Qed.

Lemma UFO_kill_step i u st : step_in not_bullets st (UFO_kill i u st).
Proof.
  apply (step_kill _ _ _ i); unfold UFO_kill; destruct (u_channel u);
    try reflexivity; intros []; reflexivity.
Qed.

Lemma ufo_vs_bullets_evolves C iu u snap st :
  evolves_in not_bullets st (ufo_vs_bullets C iu u snap st).
Proof.
  revert st. induction snap as [|ib rest IH]; intro st; simpl.
  - apply evolves_refl.
  - destruct (get_obj ib st) as [[b|a|u']|]; try apply IH.
    destruct (Rltb _ _); [ | apply IH].
    eapply evolves_trans; [ | apply IH].
    eapply evolves_step; [apply set_score_step | ].
    eapply evolves_step; [apply UFO_kill_step | ].
    apply evolves_one, kill_step.
Qed.

Lemma bullets_vs_ufos_evolves C st :
  evolves_in not_bullets st (bullets_vs_ufos C st).
Proof.
  unfold bullets_vs_ufos. generalize (ufos st) as snap. intro snap.
  revert st. induction snap as [|iu rest IH]; intro st; simpl.
  - apply evolves_refl.
  - destruct (get_obj iu st) as [[b|a|u]|]; try apply IH.
    eapply evolves_trans; [apply ufo_vs_bullets_evolves | apply IH].
Qed.

Lemma crash_loop_evolves C Src crashes st :
  evolves_in not_bullets st (crash_loop C Src crashes st).
Proof.
  revert st. induction crashes as [|[iu hit] rest IH]; intro st; simpl.
  - apply evolves_refl.
  - eapply evolves_trans; [ | apply IH].
    eapply evolves_trans; [ | apply split_all_evolves].
    destruct (get_obj iu st) as [[b|a|u]|]; try apply evolves_refl.
    destruct (u_channel u); [ | apply evolves_refl].
    apply evolves_one, channel_stop_step.
Qed.

Lemma ufos_vs_asteroids_evolves C Src st :
  evolves_in not_bullets st (ufos_vs_asteroids C Src st).
Proof.
  unfold ufos_vs_asteroids.
  pose proof (groupcollide_evolves crashes_into asteroids true false
                (ufos st) st) as H.
  destruct (groupcollide _ _ _ _ _ st) as [crashes st1]. simpl in H.
  eapply evolves_trans; [exact H | apply crash_loop_evolves].
Qed.

Lemma UFO_fire_step C Src target u st :
  step_in not_bullets st (snd (UFO_fire C Src target u st)).
Proof.
  unfold UFO_fire. destruct (Rltb 0 _); [apply same_step; reflexivity | ].
  destruct (u_small u), target; apply same_step; reflexivity.
Qed.

Lemma UFO_fire_class C Src target u st :
  u_channel (snd (fst (UFO_fire C Src target u st))) = u_channel u.
Proof.
  unfold UFO_fire. destruct (Rltb 0 _); [reflexivity | ].
  destruct (u_small u), target; reflexivity.
Qed.

Lemma add_enemy_bullet_step b st :
  step_in not_bullets st
    (set_all_sprites (all_sprites st ++ [RObj (length (objs st))])
       (set_enemy_bullets (enemy_bullets st ++ [length (objs st)])
          (set_objs (objs st ++ [OBullet b]) st))).
Proof.
  apply (step_add _ _ _ GEnemyBullets (OBullet b)); try reflexivity;
    [discriminate | intros [] Hg; try reflexivity; congruence].
Qed.

Lemma UFO_fire_objs C Src target u st :
  objs (snd (UFO_fire C Src target u st)) = objs st.
Proof.
  unfold UFO_fire. destruct (Rltb 0 _); [reflexivity | ].
  destruct (u_small u), target; reflexivity.
Qed.

Lemma ufos_fire_evolves C Src target snap st :
  evolves_in not_bullets st (ufos_fire C Src target snap st).
Proof.
  revert st. induction snap as [|i rest IH]; intro st; simpl.
  - apply evolves_refl.
  - destruct (get_obj i st) as [[b|a|u]|] eqn:E; try apply IH.
    pose proof (UFO_fire_step C Src target u st) as Hf.
    pose proof (UFO_fire_objs C Src target u st) as Ho.
    destruct (UFO_fire C Src target u st) as [[bullet u1] st1].
    simpl in Hf, Ho.
    eapply evolves_trans; [ | apply IH].
    eapply evolves_step; [exact Hf | ].
    apply (evolves_step _ _ (put_obj i (OUfo u1) st1)).
    + apply (put_obj_step i (OUfo u)); [ | reflexivity].
      unfold get_obj. rewrite Ho. exact E.
    + destruct bullet as [b|]; [ | apply evolves_refl].
      apply evolves_one, add_enemy_bullet_step.
Qed.

Lemma UFO_init_step C Src pos small target st u st' :
  UFO_init C Src pos small target st = Some (u, st') ->
  step_in not_bullets st st'.
Proof.
  unfold UFO_init.
  destruct small, target as [t|].
  - destruct (if Rltb 0 _ then _ else _) as [d|]; [ | discriminate].
    simpl. destruct (normalize _); [ | discriminate].
    simpl. destruct (chan Src _); intro X; injection X as _ <-;
      apply same_step; reflexivity.
  - simpl. destruct (normalize _); [ | discriminate].
    simpl. destruct (chan Src _); intro X; injection X as _ <-;
      apply same_step; reflexivity.
  - simpl. destruct (normalize _); [ | discriminate].
    simpl. destruct (chan Src _); intro X; injection X as _ <-;
      apply same_step; reflexivity.
  - simpl. destruct (normalize _); [ | discriminate].
    simpl. destruct (chan Src _); intro X; injection X as _ <-;
      apply same_step; reflexivity.
Qed.

Lemma add_ufo_step u st :
  step_in not_bullets st
    (set_all_sprites (all_sprites st ++ [RObj (length (objs st))])
       (set_ufos (ufos st ++ [length (objs st)])
          (set_objs (objs st ++ [OUfo u]) st))).
Proof.
  apply (step_add _ _ _ GUfos (OUfo u)); try reflexivity;
    [discriminate | intros [] Hg; try reflexivity; congruence].
Qed.

Lemma spawn_ufo_evolves C Src st st' :
  spawn_ufo C Src st = Some st' -> evolves_in not_bullets st st'.
Proof.
  unfold spawn_ufo. simpl.
  match goal with |- context [UFO_init C Src ?p ?s ?t ?x] =>
    destruct (UFO_init C Src p s t x) as [[u st4]|] eqn:E; [ | discriminate];
    assert (H : step_in not_bullets st x) by (apply same_step; reflexivity) end.
  apply UFO_init_step in E.
  intro X; injection X as <-.
  eapply evolves_step; [exact H | ].
  eapply evolves_step; [exact E | ].
  apply evolves_one, add_ufo_step.
Qed.

Lemma add_bullet_step b st :
  step_in (fun _ => True) st
    (set_all_sprites (all_sprites st ++ [RObj (length (objs st))])
       (set_bullets (bullets st ++ [length (objs st)])
          (set_objs (objs st ++ [OBullet b]) st))).
Proof.
  apply (step_add _ _ _ GBullets (OBullet b)); try reflexivity;
    try exact I.
  intros [] Hg; try reflexivity. congruence.
Qed.

(** ** The groups stay sets of sprites of their class *)

Lemma Group_eq_dec (g g' : Group) : {g = g'} + {g <> g'}.
Proof. decide equality. Qed.

Lemma groups_agree_members st :
  groups_agree st <->
  forall i, In (RObj i) (all_sprites st) <-> exists g, In i (members g st).
Proof.
  unfold groups_agree. split; intros H i; rewrite (H i); split.
  - intros [X | [X | [X | X]]];
      [exists GBullets | exists GEnemyBullets | exists GAsteroids
       | exists GUfos]; exact X.
  - intros [[] X]; simpl in X; auto.
  - intros [[] X]; simpl in X; auto.
  - intros [X | [X | [X | X]]];
      [exists GBullets | exists GEnemyBullets | exists GAsteroids
       | exists GUfos]; exact X.
Qed.

Lemma In_remove_id i j g : In j (remove_id i g) <-> In j g /\ j <> i.
Proof.
  unfold remove_id. rewrite filter_In, negb_true_iff, Nat.eqb_neq. tauto.
Qed.

Lemma In_remove_ref i r g :
  In r (remove_ref i g) <-> In r g /\ r <> RObj i.
Proof.
  unfold remove_ref. rewrite filter_In. destruct r as [|j].
  - split; [intros [H _]; split; [exact H | discriminate] | tauto].
  - rewrite negb_true_iff, Nat.eqb_neq.
    split; intros [H1 H2]; (split; [exact H1 | ]); congruence.
Qed.

Lemma class_at_bound st i k :
  class_at st i = Some k -> (i < length (objs st))%nat.
Proof.
  unfold class_at, get_obj. intro H. apply nth_error_Some.
  destruct (nth_error (objs st) i); [discriminate | discriminate H].
Qed.

Lemma world_ok_members st :
  world_ok st <->
  In RShip (all_sprites st) /\ NoDup (all_sprites st) /\
  (forall i, In (RObj i) (all_sprites st) <-> exists g, In i (members g st)) /\
  groups_typed st /\
  (forall g, NoDup (members g st)) /\
  (forall g g' i, In i (members g st) -> In i (members g' st) -> g = g').
Proof.
  unfold world_ok. pose proof (groups_agree_members st). tauto.
Qed.

Lemma world_ok_bound st i :
  world_ok st -> In (RObj i) (all_sprites st) -> (i < length (objs st))%nat.
Proof.
  intros Hok H. apply world_ok_members in Hok.
  destruct Hok as (_ & _ & Ha & Ht & _).
  apply Ha in H. destruct H as [g H].
  apply Ht in H. eapply class_at_bound, H.
Qed.

Lemma world_ok_member_bound st g i :
  world_ok st -> In i (members g st) -> (i < length (objs st))%nat.
Proof.
  intros (_ & _ & _ & Ht & _) H. apply Ht in H. eapply class_at_bound, H.
Qed.

Lemma step_world_ok grows st st' :
  step_in grows st st' -> world_ok st -> world_ok st'.
Proof.
  intros Hs Hok.
  pose proof (world_ok_bound st) as Hb.
  pose proof (world_ok_member_bound st) as Hmb.
  specialize (fun i => Hb i Hok). specialize (fun g i => Hmb g i Hok).
  apply world_ok_members in Hok. apply world_ok_members.
  destruct Hok as (Hship & Hnd & Ha & Ht & Hndg & Hdis).
  destruct Hs as [Hm Hall Ho _ | i Hm Hall Ho _ | i o o' Hi Hc Hm Hall Ho _
                  | g o _ Hc Hg Hm Hall Ho _].
  - (* nothing changes *)
    assert (Hcl : forall j, class_at st' j = class_at st j)
      by (intro j; unfold class_at, get_obj; now rewrite Ho).
    rewrite Hall. refine (conj Hship (conj Hnd (conj _ (conj _ (conj _ _))))).
    + intro j. rewrite Ha. split; intros [g H]; exists g;
        [rewrite Hm | rewrite <- Hm]; exact H.
    + intros g j H. rewrite Hm in H. rewrite Hcl. now apply Ht.
    + intro g. rewrite Hm. apply Hndg.
    + intros g g' j H H'. rewrite Hm in H, H'. eapply Hdis; eassumption.
  - (* a sprite is killed *)
    assert (Hcl : forall j, class_at st' j = class_at st j)
      by (intro j; unfold class_at, get_obj; now rewrite Ho).
    rewrite Hall. refine (conj _ (conj _ (conj _ (conj _ (conj _ _))))).
    + apply In_remove_ref. split; [exact Hship | discriminate].
    + apply NoDup_filter, Hnd.
    + intro j. split.
      * intro H. apply In_remove_ref in H. destruct H as [H Hne].
        apply Ha in H. destruct H as [g H]. exists g. rewrite Hm.
        apply In_remove_id. split; [exact H | congruence].
      * intros [g H]. rewrite Hm in H. apply In_remove_id in H.
        destruct H as [H Hne]. apply In_remove_ref. split; [ | congruence].
        apply Ha. now exists g.
    + intros g j H. rewrite Hm in H. apply In_remove_id in H.
      rewrite Hcl. apply Ht, H.
    + intro g. rewrite Hm. apply NoDup_filter, Hndg.
    + intros g g' j H H'. rewrite Hm in H, H'.
      apply In_remove_id in H, H'. eapply Hdis; [apply H | apply H'].
  - (* a stored sprite is replaced *)
    assert (Hcl : forall j, class_at st' j = class_at st j).
    { intro j. unfold class_at, get_obj. rewrite Ho, nth_error_list_put.
      destruct (Nat.eqb_spec j i) as [-> | _]; [ | reflexivity].
      unfold get_obj in Hi. rewrite Hi. simpl. now rewrite Hc. }
    rewrite Hall. refine (conj Hship (conj Hnd (conj _ (conj _ (conj _ _))))).
    + intro j. rewrite Ha. split; intros [g H]; exists g;
        [rewrite Hm | rewrite <- Hm]; exact H.
    + intros g j H. rewrite Hm in H. rewrite Hcl. now apply Ht.
    + intro g. rewrite Hm. apply Hndg.
    + intros g g' j H H'. rewrite Hm in H, H'. eapply Hdis; eassumption.
  - (* a new sprite *)
    set (n := length (objs st)) in *.
    assert (Hin : forall g' j, In j (members g' st') <->
                               In j (members g' st) \/ (g' = g /\ j = n)).
    { intros g' j. destruct (Group_eq_dec g' g) as [-> | Hne].
      - rewrite Hg, in_app_iff. simpl. intuition.
      - rewrite (Hm g' Hne). intuition. }
    assert (Hcl : forall j, (j < n)%nat -> class_at st' j = class_at st j).
    { intros j Hj. unfold class_at, get_obj. rewrite Ho.
      now rewrite nth_error_app1. }
    assert (Hnew : class_at st' n = Some (group_class g)).
    { unfold class_at, get_obj. rewrite Ho. unfold n.
      rewrite nth_error_snoc. simpl. now rewrite Hc. }
    assert (Hfresh : forall g', ~ In n (members g' st)).
    { intros g' H. apply Hmb in H. unfold n in H. lia. }
    assert (Hsnoc : forall A (l : list A) x,
               NoDup l -> ~ In x l -> NoDup (l ++ [x])).
    { intros A l x Hl Hx. induction Hl as [|y l Hy Hl IH]; simpl.
      - constructor; [intros [] | constructor].
      - constructor.
        + rewrite in_app_iff. simpl. intros [X | [X | []]]; [auto | ].
          apply Hx. now left.
        + apply IH. intro X. apply Hx. now right. }
    rewrite Hall. refine (conj _ (conj _ (conj _ (conj _ (conj _ _))))).
    + apply in_or_app. now left.
    + apply Hsnoc; [exact Hnd | ].
      intro H. apply Hb in H. unfold n in H. lia.
    + intro j. split.
      * intro H. apply in_app_iff in H. destruct H as [H | [H | []]].
        -- apply Ha in H. destruct H as [g' H]. exists g'. apply Hin. now left.
        -- injection H as <-. exists g. apply Hin. now right.
      * intros [g' H]. apply Hin in H. apply in_app_iff.
        destruct H as [H | [_ ->]]; [left | right; now left].
        apply Ha. now exists g'.
    + intros g' j H. apply Hin in H. destruct H as [H | [-> ->]].
      * rewrite Hcl by (eapply Hmb, H). apply Ht, H.
      * exact Hnew.
    + intro g'. destruct (Group_eq_dec g' g) as [-> | Hne].
      * rewrite Hg. apply Hsnoc; [apply Hndg | apply Hfresh].
      * rewrite (Hm g' Hne). apply Hndg.
    + intros g1 g2 j H1 H2. apply Hin in H1, H2.
      destruct H1 as [H1 | [-> ->]], H2 as [H2 | [-> E2]].
      * eapply Hdis; eassumption.
      * subst j. exfalso. eapply Hfresh, H1.
      * exfalso. eapply Hfresh, H2.
      * reflexivity.
Qed.

Lemma evolves_world_ok grows st st' :
  evolves_in grows st st' -> world_ok st -> world_ok st'.
Proof.
  induction 1 as [st | st sta stb Hs _ IH]; intro H; [exact H | ].
  apply IH. eapply step_world_ok; eassumption.
Qed.

Lemma world_ok_ext st st' :
  bullets st' = bullets st -> enemy_bullets st' = enemy_bullets st ->
  asteroids st' = asteroids st -> ufos st' = ufos st ->
  all_sprites st' = all_sprites st -> objs st' = objs st ->
  world_ok st -> world_ok st'.
Proof.
  intros Hb He Ha Hu Hall Ho.
  assert (Hm : forall g, members g st' = members g st)
    by (intros []; assumption).
  unfold world_ok, groups_agree, groups_typed, class_at, get_obj.
  rewrite Hb, He, Ha, Hu, Hall, Ho.
  intros (H1 & H2 & H3 & H4 & H5 & H6).
  refine (conj H1 (conj H2 (conj H3 (conj _ (conj _ _))))).
  - intros g i. rewrite Hm. apply H4.
  - intro g. rewrite Hm. apply H5.
  - intros g g' i. rewrite !Hm. apply H6.
Qed.

Lemma sprites_fold_world_ok C dt l st :
  world_ok st ->
  world_ok (fold_left (fun s r => sprite_update C dt r s) l st).
Proof.
  revert st. induction l as [|r l IH]; intros st H; simpl; [exact H | ].
  apply IH. destruct r as [|i].
  - revert H. apply world_ok_ext; reflexivity.
  - eapply evolves_world_ok; [apply sprite_update_evolves | exact H].
Qed.

Lemma update_begin_world_ok C Src dt keys st st' :
  update_begin C Src dt keys st = Some st' -> world_ok st -> world_ok st'.
Proof.
  unfold update_begin. cbv zeta. intros E H.
  set (st1 := set_ship (Ship_control C keys dt (ship st)) st) in *.
  assert (H1 : world_ok st1) by (revert H; apply world_ok_ext; reflexivity).
  assert (H2 : world_ok (sprites_update C dt st1))
    by (apply sprites_fold_world_ok, H1).
  set (st2 := sprites_update C dt st1) in *.
  set (st3 := ufos_fire C Src _ (ufos st2) st2) in *.
  assert (H3 : world_ok st3)
    by (eapply evolves_world_ok; [apply ufos_fire_evolves | exact H2]).
  clearbody st3.
  match type of E with context [if Rleb (ufo_timer ?s) 0 then _ else _] =>
    assert (H5 : world_ok s)
      by (destruct (Rltb 0 (safe st3)); revert H3; apply world_ok_ext;
          reflexivity);
    generalize dependent s end.
  intros st5 E H5. destruct (Rleb _ 0).
  - destruct (spawn_ufo C Src st5) as [st6|] eqn:E6; [ | discriminate].
    injection E as <-.
    apply spawn_ufo_evolves in E6.
    apply (world_ok_ext st6); try reflexivity.
    eapply evolves_world_ok; eassumption.
  - injection E as <-. exact H5.
Qed.

Lemma reject_near_evolves Src fuel pos st pos' st' :
  reject_near Src fuel pos st = Some (pos', st') ->
  evolves_in not_bullets st st'.
Proof.
  revert pos st. induction fuel as [|fuel IH]; intros pos st; simpl.
  - destruct (Rltb _ 150); [discriminate | ].
    intro X; injection X as _ <-. apply evolves_refl.
  - destruct (Rltb _ 150).
    + intro X. apply IH in X.
      eapply evolves_step; [apply (rand_edge_pos_step Src st) | exact X].
    + intro X; injection X as _ <-. apply evolves_refl.
Qed.

Lemma start_wave_step_evolves C Src fuel st st' :
  start_wave_step C Src fuel st = Some st' -> evolves_in not_bullets st st'.
Proof.
  unfold start_wave_step. simpl.
  destruct (reject_near Src fuel _ _) as [[pos st1]|] eqn:E; [ | discriminate].
  apply reject_near_evolves in E.
  intro X; injection X as <-.
  eapply evolves_step; [apply (rand_edge_pos_step Src st) | ].
  eapply evolves_trans; [exact E | ].
  eapply evolves_step; [apply (uniform_step Src 0 tau st1) | ].
  eapply evolves_step;
    [apply (uniform_step Src (AST_VEL_MIN C) (AST_VEL_MAX C)) | ].
  apply spawn_asteroid_evolves.
Qed.

Lemma repeat_step_evolves C Src fuel n st st' :
  repeat_step n (start_wave_step C Src fuel) st = Some st' ->
  evolves_in not_bullets st st'.
Proof.
  revert st. induction n as [|n IH]; intro st; simpl.
  - intro X; injection X as <-. apply evolves_refl.
  - destruct (start_wave_step C Src fuel st) as [st1|] eqn:E; [ | discriminate].
    intro X. apply start_wave_step_evolves in E.
    eapply evolves_trans; [exact E | apply IH, X].
Qed.

Lemma start_wave_world_ok C Src fuel st st' :
  start_wave C Src fuel st = Some st' -> world_ok st -> world_ok st'.
Proof.
  unfold start_wave. cbv zeta. intros E H.
  apply repeat_step_evolves in E.
  eapply evolves_world_ok; [exact E | ].
  revert H. apply world_ok_ext; reflexivity.
Qed.

Lemma World_init_world_ok C Src fuel st st' :
  World_init C Src fuel st = Some st' -> world_ok st'.
Proof.
  unfold World_init. intro E.
  eapply start_wave_world_ok; [exact E | ].
  apply world_ok_members. simpl.
  refine (conj _ (conj _ (conj _ (conj _ (conj _ _))))).
  - now left.
  - constructor; [intros [] | constructor].
  - intro i. split; [intros [X | []]; discriminate | intros [[] []]].
  - intros [] i [].
  - intros []; constructor.
  - intros [] g' i [].
Qed.

Lemma ship_die_world_ok C Src fuel st st' :
  ship_die C Src fuel st = Some st' -> world_ok st -> world_ok st'.
Proof.
  unfold ship_die. destruct (negb _).
  - intro X; injection X as <-. auto.
  - destruct (0 <=? _)%Z.
    + intro X; injection X as <-. apply world_ok_ext; reflexivity.
    + intros X _. eapply World_init_world_ok, X.
Qed.

Lemma ship_vs_sprites_world_ok C Src fuel snap st st' :
  ship_vs_sprites C Src fuel snap st = Some st' -> world_ok st -> world_ok st'.
Proof.
  revert st. induction snap as [|i rest IH]; intro st; simpl.
  - intro X; injection X as <-. auto.
  - destruct (get_obj i st) as [o|]; [ | apply IH].
    destruct (touches _ o); [apply ship_die_world_ok | apply IH].
Qed.

Lemma ship_vs_enemy_bullets_world_ok C Src fuel st st' :
  ship_vs_enemy_bullets C Src fuel st = Some st' ->
  world_ok st -> world_ok st'.
Proof.
  unfold ship_vs_enemy_bullets.
  match goal with |- context [spritecollide_kill ?f ?l st] =>
    pose proof (spritecollide_kill_evolves f l st) as H;
    destruct (spritecollide_kill f l st) as [hits st1] end.
  simpl in H. intros X Hok.
  assert (H1 : world_ok st1) by (eapply evolves_world_ok; eassumption).
  destruct hits.
  - injection X as <-. exact H1.
  - eapply ship_die_world_ok; eassumption.
Qed.

Lemma ship_collisions_world_ok C Src fuel st st' :
  ship_collisions C Src fuel st = Some st' -> world_ok st -> world_ok st'.
Proof.
  unfold ship_collisions. destruct (_ && _).
  2:{ intro X; injection X as <-. auto. }
  destruct (ship_vs_sprites C Src fuel (asteroids st) st) as [st1|] eqn:E1;
    [ | discriminate].
  destruct (if s_alive (ship st1) then _ else _) as [st2|] eqn:E2;
    [ | discriminate].
  intros E3 H.
  assert (H1 : world_ok st1) by (eapply ship_vs_sprites_world_ok; eassumption).
  assert (H2 : world_ok st2).
  { destruct (s_alive (ship st1)).
    - eapply ship_vs_sprites_world_ok; eassumption.
    - injection E2 as <-. exact H1. }
  destruct (s_alive (ship st2)).
  - eapply ship_vs_enemy_bullets_world_ok; eassumption.
  - injection E3 as <-. exact H2.
Qed.

Lemma handle_collisions_world_ok C Src fuel st st' :
  handle_collisions C Src fuel st = Some st' -> world_ok st -> world_ok st'.
Proof.
  unfold handle_collisions. cbv zeta.
  destruct (ship_collisions C Src fuel _) as [st2|] eqn:E2; [ | discriminate].
  intros X H. injection X as <-.
  eapply evolves_world_ok; [apply ufos_vs_asteroids_evolves | ].
  eapply evolves_world_ok; [apply bullets_vs_ufos_evolves | ].
  eapply ship_collisions_world_ok; [exact E2 | ].
  eapply evolves_world_ok; [apply bullets_vs_asteroids_evolves | exact H].
Qed.

Lemma wave_progress_world_ok C Src fuel dt st st' :
  wave_progress C Src fuel dt st = Some st' -> world_ok st -> world_ok st'.
Proof.
  unfold wave_progress. destruct (asteroids st).
  - destruct (Rleb _ 0).
    + destruct (start_wave C Src fuel st) as [st1|] eqn:E; [ | discriminate].
      intros X H; injection X as <-.
      apply (world_ok_ext st1); try reflexivity.
      eapply start_wave_world_ok; eassumption.
    + intro X; injection X as <-. apply world_ok_ext; reflexivity.
  - intro X; injection X as <-. auto.
Qed.

Lemma update_world_ok C Src fuel dt keys st st' :
  update C Src fuel dt keys st = Some st' -> world_ok st -> world_ok st'.
Proof.
  unfold update.
  destruct (update_begin C Src dt keys st) as [st1|] eqn:E1; [ | discriminate].
  destruct (handle_collisions C Src fuel st1) as [st2|] eqn:E2;
    [ | discriminate].
  intros E3 H.
  eapply wave_progress_world_ok; [exact E3 | ].
  eapply handle_collisions_world_ok; [exact E2 | ].
  eapply update_begin_world_ok; eassumption.
Qed.

Lemma try_fire_world_ok C st : world_ok st -> world_ok (try_fire C st).
Proof.
  unfold try_fire. destruct (_ <=? _)%Z; [auto | ].
  unfold Ship_fire. destruct (Rltb 0 _); [auto | ].
  intro H. cbv zeta.
  match goal with |- world_ok (let (i, st2) := alloc ?o ?s in _) =>
    set (st1 := s) end.
  assert (H1 : world_ok st1) by (revert H; apply world_ok_ext; reflexivity).
  unfold alloc.
  eapply step_world_ok; [apply play_step | ].
  eapply step_world_ok; [ | exact H1].
  match goal with |- context [OBullet ?b] => apply (add_bullet_step b st1) end.
Qed.

Lemma hyperspace_world_ok C Src st :
  world_ok st -> world_ok (hyperspace C Src st).
Proof.
  unfold hyperspace. destruct (negb _); [auto | ].
  apply world_ok_ext; reflexivity.
Qed.

(** X2: the groups of the world stay sets of sprites that agree with
    [all_sprites].  In the world [World.__init__] builds, and after any
    sequence of calls of [update], [try_fire] and [hyperspace] on a world
    where it holds: the ship is in [all_sprites]; no sprite is twice in
    [all_sprites] or in a group; a sprite other than the ship is in
    [all_sprites] exactly when it is in one of [bullets], [enemy_bullets],
    [asteroids] and [ufos], and it is in one of them only; and every member
    of a group is a stored bullet, asteroid or UFO, as the group demands. *)
Theorem groups_invariant (C : Config) (Src : Oracle) (fuel : nat) :
  (forall st st', World_init C Src fuel st = Some st' -> world_ok st') /\
  (forall cs st st',
     world_ok st -> calls C Src fuel cs st = Some st' -> world_ok st').
Proof.
  split; [intros st st'; apply World_init_world_ok | ].
  induction cs as [|c cs IH]; intros st st' H; simpl.
  - intro X; injection X as <-. exact H.
  - destruct (call C Src fuel c st) as [st1|] eqn:E; [ | discriminate].
    apply IH. destruct c as [dt keys | | ]; simpl in E.
    + eapply update_world_ok; eassumption.
    + injection E as <-. apply try_fire_world_ok, H.
    + injection E as <-. apply hyperspace_world_ok, H.
Qed.

Lemma st_wave_due_ok : world_ok st_wave_due.
Proof.
  apply world_ok_members. simpl.
  refine (conj _ (conj _ (conj _ (conj _ (conj _ _))))).
  - now left.
  - constructor; [intros [] | constructor].
  - intro i. split; [intros [X | []]; discriminate | intros [[] []]].
  - intros [] i [].
  - intros []; constructor.
  - intros [] g' i [].
Qed.

Lemma groups_invariant_witness :
  (exists st',
     World_init example_config example_oracle 0 st_wave_due = Some st' /\
     world_ok st') /\
  world_ok (try_fire example_config st_wave_due).
Proof.
  split.
  - destruct (World_init_total example_config example_oracle 0 st_wave_due
                (example_far 0)) as [st' E].
    exists st'. split; [exact E | ].
    exact (proj1 (groups_invariant example_config example_oracle 0)
             st_wave_due st' E).
  - apply (proj2 (groups_invariant example_config example_oracle 0)
             [CallTryFire] st_wave_due).
    + exact st_wave_due_ok.
    + reflexivity.
Defined.

(** ** Lives, wave and the ship *)

Lemma hud_ok_ext C st st' :
  s_alive (ship st') = s_alive (ship st) -> lives st' = lives st ->
  wave st' = wave st -> hud_ok C st -> hud_ok C st'.
Proof. unfold hud_ok. intros -> -> ->. auto. Qed.

Lemma hud_ok_core C st st' : core st' = core st -> hud_ok C st -> hud_ok C st'.
Proof.
  unfold core. intro E. injection E as E1 E2 E3 _ _ _.
  apply hud_ok_ext; congruence.
Qed.

Lemma evolves_hud_ok C st st' :
  evolves_in not_bullets st st' -> hud_ok C st -> hud_ok C st'.
Proof. intro H. apply hud_ok_core. eapply evolves_core, H. Qed.

Lemma fresh_hud_ok C st : (0 <= START_LIVES C)%Z -> fresh C st -> hud_ok C st.
Proof.
  intros H0 (_ & Hl & Hw & Hs & _). unfold hud_ok.
  rewrite Hl, Hw, Hs. simpl. repeat split; lia.
Qed.

Lemma sprites_fold_hud_ok C dt l st :
  hud_ok C st ->
  hud_ok C (fold_left (fun s r => sprite_update C dt r s) l st).
Proof.
  revert st. induction l as [|r l IH]; intros st H; simpl; [exact H | ].
  apply IH. destruct r as [|i].
  - revert H. apply hud_ok_ext; reflexivity.
  - eapply evolves_hud_ok; [apply sprite_update_evolves | exact H].
Qed.

Lemma update_begin_hud_ok C Src dt keys st st' :
  update_begin C Src dt keys st = Some st' -> hud_ok C st -> hud_ok C st'.
Proof.
  unfold update_begin. cbv zeta. intros E H.
  set (st1 := set_ship (Ship_control C keys dt (ship st)) st) in *.
  assert (H1 : hud_ok C st1) by (revert H; apply hud_ok_ext; reflexivity).
  assert (H2 : hud_ok C (sprites_update C dt st1))
    by (apply sprites_fold_hud_ok, H1).
  set (st2 := sprites_update C dt st1) in *.
  set (st3 := ufos_fire C Src _ (ufos st2) st2) in *.
  assert (H3 : hud_ok C st3)
    by (eapply evolves_hud_ok; [apply ufos_fire_evolves | exact H2]).
  clearbody st3.
  match type of E with context [if Rleb (ufo_timer ?s) 0 then _ else _] =>
    assert (H5 : hud_ok C s)
      by (destruct (Rltb 0 (safe st3)); revert H3; apply hud_ok_ext;
          reflexivity);
    generalize dependent s end.
  intros st5 E H5. destruct (Rleb _ 0).
  - destruct (spawn_ufo C Src st5) as [st6|] eqn:E6; [ | discriminate].
    injection E as <-.
    apply spawn_ufo_evolves in E6.
    apply (hud_ok_ext C st6); try reflexivity.
    eapply evolves_hud_ok; eassumption.
  - injection E as <-. exact H5.
Qed.

Lemma start_wave_hud_ok C Src fuel st st' :
  start_wave C Src fuel st = Some st' -> hud_ok C st -> hud_ok C st'.
Proof.
  unfold start_wave. cbv zeta. intros E H.
  apply repeat_step_evolves in E.
  eapply evolves_hud_ok; [exact E | ].
  destruct H as (Ha & Hl & Hw). unfold hud_ok. simpl.
  repeat split; try assumption; lia.
Qed.

Lemma ship_die_hud_ok C Src fuel st st' :
  ship_die C Src fuel st = Some st' -> hud_ok C st -> hud_ok C st'.
Proof.
  unfold ship_die. destruct (negb _).
  - intro X; injection X as <-. auto.
  - change (lives (mark_dead st)) with (lives st - 1)%Z.
    destruct (Z.leb_spec 0 (lives st - 1)) as [Hl | Hl].
    + intro X; injection X as <-.
      intros (Ha & Hv & Hw). unfold hud_ok. simpl.
      repeat split; try assumption; lia.
    + intros X (_ & Hv & _). apply World_init_fresh in X.
      apply fresh_hud_ok; [lia | apply X].
Qed.

Lemma ship_vs_sprites_hud_ok C Src fuel snap st st' :
  ship_vs_sprites C Src fuel snap st = Some st' -> hud_ok C st -> hud_ok C st'.
Proof.
  revert st. induction snap as [|i rest IH]; intro st; simpl.
  - intro X; injection X as <-. auto.
  - destruct (get_obj i st) as [o|]; [ | apply IH].
    destruct (touches _ o); [apply ship_die_hud_ok | apply IH].
Qed.

Lemma ship_vs_enemy_bullets_hud_ok C Src fuel st st' :
  ship_vs_enemy_bullets C Src fuel st = Some st' ->
  hud_ok C st -> hud_ok C st'.
Proof.
  unfold ship_vs_enemy_bullets.
  match goal with |- context [spritecollide_kill ?f ?l st] =>
    pose proof (spritecollide_kill_evolves f l st) as H;
    destruct (spritecollide_kill f l st) as [hits st1] end.
  simpl in H. intros X Hok.
  assert (H1 : hud_ok C st1) by (eapply evolves_hud_ok; eassumption).
  destruct hits.
  - injection X as <-. exact H1.
  - eapply ship_die_hud_ok; eassumption.
Qed.

Lemma ship_collisions_hud_ok C Src fuel st st' :
  ship_collisions C Src fuel st = Some st' -> hud_ok C st -> hud_ok C st'.
Proof.
  unfold ship_collisions. destruct (_ && _).
  2:{ intro X; injection X as <-. auto. }
  destruct (ship_vs_sprites C Src fuel (asteroids st) st) as [st1|] eqn:E1;
    [ | discriminate].
  destruct (if s_alive (ship st1) then _ else _) as [st2|] eqn:E2;
    [ | discriminate].
  intros E3 H.
  assert (H1 : hud_ok C st1) by (eapply ship_vs_sprites_hud_ok; eassumption).
  assert (H2 : hud_ok C st2).
  { destruct (s_alive (ship st1)).
    - eapply ship_vs_sprites_hud_ok; eassumption.
    - injection E2 as <-. exact H1. }
  destruct (s_alive (ship st2)).
  - eapply ship_vs_enemy_bullets_hud_ok; eassumption.
  - injection E3 as <-. exact H2.
Qed.

Lemma handle_collisions_hud_ok C Src fuel st st' :
  handle_collisions C Src fuel st = Some st' -> hud_ok C st -> hud_ok C st'.
Proof.
  unfold handle_collisions. cbv zeta.
  destruct (ship_collisions C Src fuel _) as [st2|] eqn:E2; [ | discriminate].
  intros X H. injection X as <-.
  eapply evolves_hud_ok; [apply ufos_vs_asteroids_evolves | ].
  eapply evolves_hud_ok; [apply bullets_vs_ufos_evolves | ].
  eapply ship_collisions_hud_ok; [exact E2 | ].
  eapply evolves_hud_ok; [apply bullets_vs_asteroids_evolves | exact H].
Qed.

Lemma wave_progress_hud_ok C Src fuel dt st st' :
  wave_progress C Src fuel dt st = Some st' -> hud_ok C st -> hud_ok C st'.
Proof.
  unfold wave_progress. destruct (asteroids st).
  - destruct (Rleb _ 0).
    + destruct (start_wave C Src fuel st) as [st1|] eqn:E; [ | discriminate].
      intros X H; injection X as <-.
      apply (hud_ok_ext C st1); try reflexivity.
      eapply start_wave_hud_ok; eassumption.
    + intro X; injection X as <-. apply hud_ok_ext; reflexivity.
  - intro X; injection X as <-. auto.
Qed.

Lemma update_hud_ok C Src fuel dt keys st st' :
  update C Src fuel dt keys st = Some st' -> hud_ok C st -> hud_ok C st'.
Proof.
  unfold update.
  destruct (update_begin C Src dt keys st) as [st1|] eqn:E1; [ | discriminate].
  destruct (handle_collisions C Src fuel st1) as [st2|] eqn:E2;
    [ | discriminate].
  intros E3 H.
  eapply wave_progress_hud_ok; [exact E3 | ].
  eapply handle_collisions_hud_ok; [exact E2 | ].
  eapply update_begin_hud_ok; eassumption.
Qed.

Lemma try_fire_hud_ok C st : hud_ok C st -> hud_ok C (try_fire C st).
Proof.
  unfold try_fire. destruct (_ <=? _)%Z; [auto | ].
  unfold Ship_fire. destruct (Rltb 0 _); [auto | ].
  apply hud_ok_ext; reflexivity.
Qed.

Lemma hyperspace_hud_ok C Src st :
  hud_ok C st -> hud_ok C (hyperspace C Src st).
Proof.
  unfold hyperspace. destruct (negb _); [auto | ].
  apply hud_ok_ext; reflexivity.
Qed.

(** X3: between two calls the ship is never dead, the lives never leave
    the range from 0 to [START_LIVES] and the wave number is 1 or more.
    This holds in the world [World.__init__] builds when [START_LIVES] is
    not negative, and every call of [update], [try_fire] and [hyperspace]
    keeps it: a ship that dies is alive again when [ship_die] returns,
    respawned or in a world made anew. *)
Theorem ship_alive_lives_in_range (C : Config) (Src : Oracle) (fuel : nat) :
  (forall st st',
     (0 <= START_LIVES C)%Z ->
     World_init C Src fuel st = Some st' -> hud_ok C st') /\
  (forall cs st st',
     hud_ok C st -> calls C Src fuel cs st = Some st' -> hud_ok C st').
Proof.
  split.
  - intros st st' H0 E. apply fresh_hud_ok; [exact H0 | ].
    apply World_init_fresh in E. apply E.
  - induction cs as [|c cs IH]; intros st st' H; simpl.
    + intro X; injection X as <-. exact H.
    + destruct (call C Src fuel c st) as [st1|] eqn:E; [ | discriminate].
      apply IH. destruct c as [dt keys | | ]; simpl in E.
      * eapply update_hud_ok; eassumption.
      * injection E as <-. apply try_fire_hud_ok, H.
      * injection E as <-. apply hyperspace_hud_ok, H.
Qed.

Lemma st_wave_due_hud : hud_ok example_config st_wave_due.
Proof. unfold hud_ok. simpl. repeat split; lia. Qed.

Lemma ship_alive_lives_in_range_witness :
  (exists st',
     World_init example_config example_oracle 0 st_wave_due = Some st' /\
     hud_ok example_config st') /\
  hud_ok example_config (hyperspace example_config example_oracle st_wave_due).
Proof.
  split.
  - destruct (World_init_total example_config example_oracle 0 st_wave_due
                (example_far 0)) as [st' E].
    exists st'. split; [exact E | ].
    apply (proj1 (ship_alive_lives_in_range example_config example_oracle 0)
             st_wave_due st'); [simpl; lia | exact E].
  - apply (proj2 (ship_alive_lives_in_range example_config example_oracle 0)
             [CallHyperspace] st_wave_due).
    + exact st_wave_due_hud.
    + reflexivity.
Defined.

(** ** Vectors *)

Lemma vlength_nonneg v : 0 <= vlength v.
Proof. apply sqrt_pos. Qed.

Lemma vlength_scale v k : vlength (vscale v k) = vlength v * Rabs k.
Proof.
  unfold vlength, vscale. simpl.
  rewrite <- (sqrt_Rsqr_abs k), <- sqrt_mult.
  - f_equal. unfold Rsqr. ring.
  - nra.
  - apply Rle_0_sqr.
Qed.

Lemma vlength_angle a : vlength (angle_to_vec a) = 1.
Proof.
  unfold vlength, angle_to_vec. simpl.
  pose proof (sin2_cos2 (radians a)) as H. unfold Rsqr in H.
  replace (_ + _) with 1 by lra. apply sqrt_1.
Qed.

Lemma vsub_vadd p v : vsub (vadd p v) p = v.
Proof. destruct p, v. unfold vsub, vadd. simpl. f_equal; ring. Qed.

Lemma normalize_unit v d : normalize v = Some d -> vlength d = 1.
Proof.
  unfold normalize. destruct (Req_dec_T (vlength v) 0) as [E | N];
    [discriminate | ].
  intro X; injection X as <-.
  rewrite vlength_scale.
  pose proof (vlength_nonneg v) as H.
  rewrite Rabs_right.
  - now apply Rinv_r.
  - apply Rle_ge. left. apply Rinv_0_lt_compat. lra.
Qed.

Lemma normalize_some v : vlength v <> 0 -> exists d, normalize v = Some d.
Proof.
  intro H. unfold normalize.
  destruct (Req_dec_T (vlength v) 0); [contradiction | eexists; reflexivity].
Qed.

Lemma vlength_pos_sq x y : 0 < x * x + y * y -> vlength (x, y) <> 0.
Proof.
  intros H E. unfold vlength in E. simpl in E.
  apply sqrt_eq_0 in E; lra.
Qed.

Lemma vlength_one_sq v : vlength v = 1 -> fst v * fst v + snd v * snd v = 1.
Proof.
  unfold vlength. intro H.
  assert (H0 : 0 <= fst v * fst v + snd v * snd v) by nra.
  rewrite <- (sqrt_sqrt _ H0), H. ring.
Qed.

(** ** Bullets *)



(** ** UFOs *)

(** X5: [UFO.fire] returns no bullet and changes nothing while the shoot
    timer is positive.  Otherwise it sets the timer to the shoot delay,
    draws one random number and returns a bullet that starts [r + 10] away
    from the UFO and flies at [UFO_BULLET_SPEED]; nothing else of the UFO
    changes.  A small UFO that is given a target aims at it, at most 5
    degrees off; any other UFO fires in a direction between 0 and 360
    degrees. *)
Theorem UFO_fire_spec (C : Config) (Src : Oracle) (target : option Vec)
  (u : UFO) (st : State) :
  (0 < u_shoot_timer u -> UFO_fire C Src target u st = (None, u, st)) /\
  (u_shoot_timer u <= 0 ->
   exists b u' angle,
     UFO_fire C Src target u st
     = (Some b, u', set_rnd_i (S (rnd_i st)) st) /\
     u_shoot_timer u' = u_shoot_delay u /\
     u_shoot_delay u' = u_shoot_delay u /\
     u_pos u' = u_pos u /\ u_dir u' = u_dir u /\ u_small u' = u_small u /\
     u_r u' = u_r u /\ u_speed u' = u_speed u /\ u_rect u' = u_rect u /\
     u_channel u' = u_channel u /\
     b_pos b = vadd (u_pos u) (vscale (angle_to_vec angle) (u_r u + 10)) /\
     b_vel b = vscale (angle_to_vec angle) (UFO_BULLET_SPEED C) /\
     b_ttl b = BULLET_TTL C /\ b_r b = BULLET_RADIUS C /\
     vlength (b_vel b) = Rabs (UFO_BULLET_SPEED C) /\
     vlength (vsub (b_pos b) (u_pos u)) = Rabs (u_r u + 10) /\
     (0 <= rnd Src (rnd_i st) <= 1 ->
      match u_small u, target with
      | true, Some t =>
          let aim := degrees (atan2 (snd t - snd (u_pos u))
                                    (fst t - fst (u_pos u))) in
          aim - 5 <= angle <= aim + 5
      | _, _ => 0 <= angle <= 360
      end)).
Proof.
  unfold UFO_fire. split.
  - intro H. now rewrite (Rltb_true _ _ H).
  - intro H. rewrite (Rltb_false 0 (u_shoot_timer u)) by lra.
    assert (Hv : forall a k, vlength (vscale (angle_to_vec a) k) = Rabs k)
      by (intros a k; rewrite vlength_scale, vlength_angle; ring).
    destruct (u_small u) eqn:Es; [destruct target as [t|] | ];
      simpl; eexists; eexists; eexists;
      (split; [reflexivity | ]);
      repeat (split; [reflexivity | ]);
      (split; [apply Hv | ]);
      (split; [simpl; rewrite vsub_vadd; apply Hv | ]);
      try rewrite Es; intro Hr; simpl; lra.
Qed.

Lemma UFO_fire_spec_witness :
  UFO_fire example_config example_oracle None
    (example_ufo (100, 100) (1 / 2) 7) st_wave_due
  = (None, example_ufo (100, 100) (1 / 2) 7, st_wave_due).
Proof.
  apply (UFO_fire_spec example_config example_oracle None
           (example_ufo (100, 100) (1 / 2) 7) st_wave_due).
  simpl. lra.
Defined.

Lemma normalize_eq v :
  vlength v <> 0 -> normalize v = Some (vscale v (/ vlength v)).
Proof.
  intro H. unfold normalize.
  destruct (Req_dec_T (vlength v) 0); [contradiction | reflexivity].
Qed.

Lemma uniform_range Src a b st :
  rnd_unit Src -> a <= b ->
  a <= fst (uniform Src a b st) <= b.
Proof.
  intros Hr Hab. unfold uniform. simpl.
  specialize (Hr (rnd_i st)). nra.
Qed.

(** A unit vector moved by at most 0.2 along each axis is not zero, and
    still points into the half plane of the vector. *)
Lemma jitter_keeps_heading a b jx jy :
  a * a + b * b = 1 -> -0.2 <= jx <= 0.2 -> -0.2 <= jy <= 0.2 ->
  0 < (a + jx) * (a + jx) + (b + jy) * (b + jy) /\
  0 < (a + jx) * a + (b + jy) * b.
Proof.
  intros H Hx Hy.
  assert (Ha : -1 <= a <= 1) by nra.
  assert (Hb : -1 <= b <= 1) by nra.
  assert (Hxa : -0.2 <= jx * a <= 0.2) by nra.
  assert (Hyb : -0.2 <= jy * b <= 0.2) by nra.
  split; nra.
Qed.

Lemma UFO_init_eq C Src pos small target st dir st1 :
  match small, target with
  | true, Some t =>
      let desired := vsub t pos in
      let? desired1 :=
        if Rltb 0 (vlength desired) then normalize desired else Some (1, 0) in
      let (jx, sta) := uniform Src (-0.2) 0.2 st in
      let (jy, stb) := uniform Src (-0.2) 0.2 sta in
      let? dir := normalize (fst desired1 + jx, snd desired1 + jy) in
      Some (dir, stb)
  | _, _ =>
      let direction_x := if Rltb (fst pos) (WIDTH C / 2) then 1 else -1 in
      let (direction_y, sta) := uniform Src (-0.5) 0.5 st in
      let? dir := normalize (direction_x, direction_y) in
      Some (dir, sta)
  end = Some (dir, st1) ->
  exists u,
    UFO_init C Src pos small target st
    = Some (u, match chan Src (chan_i st1) with
               | Some ch =>
                   channel_play ch (if small then FLY_SMALL else FLY_BIG)
                     (set_chan_i (S (chan_i st1))
                        (set_rnd_i (S (rnd_i st1)) st1))
               | None =>
                   set_chan_i (S (chan_i st1)) (set_rnd_i (S (rnd_i st1)) st1)
               end) /\
    u_dir u = dir /\ u_pos u = pos /\ u_small u = small /\
    u_r u = (if small then UFO_SMALL_r C else UFO_BIG_r C) /\
    u_speed u = UFO_SPEED C /\
    u_shoot_delay u
    = (if small then UFO_FIRE_RATE_SMALL C else UFO_FIRE_RATE_BIG C) /\
    u_shoot_timer u = fst (uniform Src 0 1 st1) /\
    u_channel u = chan Src (chan_i st1).
Proof.
  intro H. unfold UFO_init. cbv zeta in H |- *. rewrite H. simpl.
  eexists. split; [reflexivity | ]. simpl. repeat split; reflexivity.
Qed.

Lemma scaled_heading (v : Vec) k :
  0 < k ->
  (forall w : Vec, 0 < fst v * fst w + snd v * snd w ->
                   0 < fst (vscale v k) * fst w + snd (vscale v k) * snd w) /\
  (0 < fst v -> 0 < fst (vscale v k)) /\
  (fst v < 0 -> fst (vscale v k) < 0) /\
  (Rabs (snd v) <= Rabs (fst v) / 2 ->
   Rabs (snd (vscale v k)) <= Rabs (fst (vscale v k)) / 2).
Proof.
  intro Hk. unfold vscale. simpl. repeat split.
  - intros w H. nra.
  - intro H. nra.
  - intro H. nra.
  - intro H. rewrite !Rabs_mult, (Rabs_right k) by lra. nra.
Qed.

Lemma big_heading C Src (pos : Vec) st :
  rnd_unit Src ->
  exists dir,
    (let direction_x := if Rltb (fst pos) (WIDTH C / 2) then 1 else -1 in
     let (direction_y, sta) := uniform Src (-0.5) 0.5 st in
     let? dir := normalize (direction_x, direction_y) in
     Some (dir, sta)) = Some (dir, set_rnd_i (S (rnd_i st)) st) /\
    vlength dir = 1 /\
    (fst pos < WIDTH C / 2 -> 0 < fst dir) /\
    (WIDTH C / 2 <= fst pos -> fst dir < 0) /\
    Rabs (snd dir) <= Rabs (fst dir) / 2.
Proof.
  intro Hr. cbv zeta.
  pose proof (uniform_range Src (-0.5) 0.5 st Hr) as Hy.
  unfold uniform in *. simpl in Hy.
  set (y := -0.5 + (0.5 - -0.5) * rnd Src (rnd_i st)) in *.
  assert (Hy' : -0.5 <= y <= 0.5) by (apply Hy; lra). clear Hy.
  set (dx := if Rltb (fst pos) (WIDTH C / 2) then 1 else -1).
  assert (Hdx : dx * dx = 1) by (unfold dx; destruct (Rltb _ _); ring).
  assert (Hn : vlength (dx, y) <> 0) by (apply vlength_pos_sq; nra).
  rewrite (normalize_eq _ Hn).
  eexists. split; [reflexivity | ].
  assert (Hk : 0 < / vlength (dx, y)).
  { apply Rinv_0_lt_compat. pose proof (vlength_nonneg (dx, y)). lra. }
  destruct (scaled_heading (dx, y) _ Hk) as (_ & Hp & Hm & Hh).
  split; [apply (normalize_unit (dx, y)), normalize_eq, Hn | ].
  split; [ | split].
  - intro H. apply Hp. simpl. unfold dx. rewrite (Rltb_true _ _ H). lra.
  - intro H. apply Hm. simpl. unfold dx.
    rewrite (Rltb_false (fst pos) (WIDTH C / 2)) by lra. lra.
  - apply Hh. simpl.
    assert (Ha : Rabs dx = 1).
    { unfold dx. destruct (Rltb _ _); unfold Rabs;
        destruct (Rcase_abs _); lra. }
    rewrite Ha. unfold Rabs. destruct (Rcase_abs y); lra.
Qed.

Lemma small_heading Src (pos t : Vec) st :
  rnd_unit Src ->
  exists dir,
    (let desired := vsub t pos in
     let? desired1 :=
       if Rltb 0 (vlength desired) then normalize desired else Some (1, 0) in
     let (jx, sta) := uniform Src (-0.2) 0.2 st in
     let (jy, stb) := uniform Src (-0.2) 0.2 sta in
     let? dir := normalize (fst desired1 + jx, snd desired1 + jy) in
     Some (dir, stb))
    = Some (dir, set_rnd_i (S (S (rnd_i st))) (set_rnd_i (S (rnd_i st)) st)) /\
    vlength dir = 1 /\
    (0 < vlength (vsub t pos) ->
     0 < fst dir * (fst t - fst pos) + snd dir * (snd t - snd pos)).
Proof.
  intro Hr. cbv zeta.
  set (D := vsub t pos).
  assert (Hd1 : exists d1,
             (if Rltb 0 (vlength D) then normalize D else Some (1, 0))
             = Some d1 /\
             fst d1 * fst d1 + snd d1 * snd d1 = 1 /\
             (0 < vlength D -> D = vscale d1 (vlength D))).
  { unfold Rltb. destruct (Rlt_dec 0 (vlength D)) as [Hp | Hz].
    - assert (Hn : vlength D <> 0) by lra.
      exists (vscale D (/ vlength D)). split; [apply normalize_eq, Hn | ].
      split.
      + apply vlength_one_sq, (normalize_unit D), normalize_eq, Hn.
      + intros _. destruct D as [x y]. unfold vscale. simpl.
        f_equal; field; exact Hn.
    - exists (1, 0). split; [reflexivity | ]. split; [simpl; ring | ].
      intro; contradiction. }
  destruct Hd1 as (d1 & -> & Hu & HD).
  pose proof (uniform_range Src (-0.2) 0.2 st Hr) as Hx.
  pose proof (uniform_range Src (-0.2) 0.2 (set_rnd_i (S (rnd_i st)) st) Hr)
    as Hy.
  unfold uniform in *. simpl in Hx, Hy. simpl.
  set (jx := -0.2 + (0.2 - -0.2) * rnd Src (rnd_i st)) in *.
  set (jy := -0.2 + (0.2 - -0.2) * rnd Src (S (rnd_i st))) in *.
  assert (Hx' : -0.2 <= jx <= 0.2) by (apply Hx; lra).
  assert (Hy' : -0.2 <= jy <= 0.2) by (apply Hy; lra).
  clear Hx Hy.
  destruct (jitter_keeps_heading _ _ jx jy Hu Hx' Hy') as [Hpos Hdot].
  set (v := (fst d1 + jx, snd d1 + jy)) in *.
  assert (Hn : vlength v <> 0) by (apply vlength_pos_sq, Hpos).
  rewrite (normalize_eq _ Hn).
  eexists. split; [reflexivity | ].
  split; [apply (normalize_unit v), normalize_eq, Hn | ].
  intro HL.
  assert (Hk : 0 < / vlength v).
  { apply Rinv_0_lt_compat. pose proof (vlength_nonneg v). lra. }
  destruct (scaled_heading v _ Hk) as (Hw & _).
  change (fst t - fst pos) with (fst D).
  change (snd t - snd pos) with (snd D).
  apply Hw. pose proof (HD HL) as HDe. clearbody D.
  rewrite HDe. unfold v, vscale. simpl.
  set (L := vlength D) in *. clearbody L. nra.
Qed.

Lemma UFO_init_facts (C : Config) (Src : Oracle) (pos : Vec) (small : bool)
  (target : option Vec) (st : State) :
  rnd_unit Src ->
  exists u st',
    UFO_init C Src pos small target st = Some (u, st') /\
    vlength (u_dir u) = 1 /\
    u_pos u = pos /\ u_small u = small /\
    u_r u = (if small then UFO_SMALL_r C else UFO_BIG_r C) /\
    u_speed u = UFO_SPEED C /\
    u_shoot_delay u
    = (if small then UFO_FIRE_RATE_SMALL C else UFO_FIRE_RATE_BIG C) /\
    0 <= u_shoot_timer u <= 1 /\
    u_channel u = chan Src (chan_i st) /\
    audio st'
    = audio st ++
      match chan Src (chan_i st) with
      | Some ch => [ChannelPlay ch (if small then FLY_SMALL else FLY_BIG)]
      | None => []
      end /\
    match small, target with
    | true, Some t =>
        0 < vlength (vsub t pos) ->
        0 < fst (u_dir u) * (fst t - fst pos)
            + snd (u_dir u) * (snd t - snd pos)
    | _, _ =>
        (fst pos < WIDTH C / 2 -> 0 < fst (u_dir u)) /\
        (WIDTH C / 2 <= fst pos -> fst (u_dir u) < 0) /\
        Rabs (snd (u_dir u)) <= Rabs (fst (u_dir u)) / 2
    end.
Proof.
  intro Hr.
  assert (Hdir : exists dir st1,
             match small, target with
             | true, Some t =>
                 let desired := vsub t pos in
                 let? desired1 :=
                   if Rltb 0 (vlength desired) then normalize desired
                   else Some (1, 0) in
                 let (jx, sta) := uniform Src (-0.2) 0.2 st in
                 let (jy, stb) := uniform Src (-0.2) 0.2 sta in
                 let? dir := normalize (fst desired1 + jx, snd desired1 + jy) in
                 Some (dir, stb)
             | _, _ =>
                 let direction_x :=
                   if Rltb (fst pos) (WIDTH C / 2) then 1 else -1 in
                 let (direction_y, sta) := uniform Src (-0.5) 0.5 st in
                 let? dir := normalize (direction_x, direction_y) in
                 Some (dir, sta)
             end = Some (dir, st1) /\
             vlength dir = 1 /\
             chan_i st1 = chan_i st /\ audio st1 = audio st /\
             match small, target with
             | true, Some t =>
                 0 < vlength (vsub t pos) ->
                 0 < fst dir * (fst t - fst pos) + snd dir * (snd t - snd pos)
             | _, _ =>
                 (fst pos < WIDTH C / 2 -> 0 < fst dir) /\
                 (WIDTH C / 2 <= fst pos -> fst dir < 0) /\
                 Rabs (snd dir) <= Rabs (fst dir) / 2
             end).
  { destruct small; [destruct target as [t|] | ].
    - destruct (small_heading Src pos t st Hr) as (dir & E & Hu & Hh).
      exists dir. eexists. split; [exact E | ]. auto.
    - destruct (big_heading C Src pos st Hr) as (dir & E & Hu & Hh).
      exists dir. eexists. split; [exact E | ]. auto.
    - destruct (big_heading C Src pos st Hr) as (dir & E & Hu & Hh).
      exists dir. eexists. split; [exact E | ]. auto. }
  destruct Hdir as (dir & st1 & E & Hu & Hc & Ha & Hh).
  destruct (UFO_init_eq C Src pos small target st dir st1 E)
    as (u & Eu & U1 & U2 & U3 & U4 & U5 & U6 & U7 & U8).
  exists u. eexists. split; [exact Eu | ].
  rewrite U1, U7, U8, Hc.
  split; [exact Hu | ].
  split; [exact U2 | ]. split; [exact U3 | ]. split; [exact U4 | ].
  split; [exact U5 | ]. split; [exact U6 | ].
  split; [apply (uniform_range Src 0 1 st1 Hr); lra | ].
  split; [reflexivity | ].
  split; [ | exact Hh].
  destruct (chan Src (chan_i st)); simpl; rewrite Ha;
    [reflexivity | now rewrite app_nil_r].
Qed.

Lemma UFO_init_frame C Src pos small target st u st' :
  UFO_init C Src pos small target st = Some (u, st') ->
  bullets st' = bullets st /\ enemy_bullets st' = enemy_bullets st /\
  asteroids st' = asteroids st /\ ufos st' = ufos st /\
  all_sprites st' = all_sprites st /\ objs st' = objs st /\
  core st' = core st /\ score st' = score st.
Proof.
  unfold UFO_init.
  destruct small, target as [t|].
  - destruct (if Rltb 0 _ then _ else _) as [d|]; [ | discriminate].
    simpl. destruct (normalize _); [ | discriminate].
    simpl. destruct (chan Src _); intro X; injection X as _ <-;
      repeat split; reflexivity.
  - simpl. destruct (normalize _); [ | discriminate].
    simpl. destruct (chan Src _); intro X; injection X as _ <-;
      repeat split; reflexivity.
  - simpl. destruct (normalize _); [ | discriminate].
    simpl. destruct (chan Src _); intro X; injection X as _ <-;
      repeat split; reflexivity.
  - simpl. destruct (normalize _); [ | discriminate].
    simpl. destruct (chan Src _); intro X; injection X as _ <-;
      repeat split; reflexivity.
Qed.

(** X6: [UFO.__init__] never raises.  With the random numbers of
    [random.random()], in the range from 0 to 1, the vector it normalises is
    never zero, and the direction of the UFO is a unit vector.  A big UFO,
    or one without a target, heads for the other side of the arena, mostly
    sideways: its direction is at least twice as wide as it is high.  A
    small UFO with a target away from its own position heads into the half
    plane of the target.  The first shot comes after at most one second;
    the engine sound starts on the channel the mixer finds, and on none when
    it finds none.  Nothing else of the world changes: the groups, the
    stored sprites, the score, the lives and the ship are as before. *)
Theorem UFO_init_spec (C : Config) (Src : Oracle) (pos : Vec) (small : bool)
  (target : option Vec) (st : State) :
  rnd_unit Src ->
  exists u st',
    UFO_init C Src pos small target st = Some (u, st') /\
    vlength (u_dir u) = 1 /\
    u_pos u = pos /\ u_small u = small /\
    u_r u = (if small then UFO_SMALL_r C else UFO_BIG_r C) /\
    u_speed u = UFO_SPEED C /\
    u_shoot_delay u
    = (if small then UFO_FIRE_RATE_SMALL C else UFO_FIRE_RATE_BIG C) /\
    0 <= u_shoot_timer u <= 1 /\
    u_channel u = chan Src (chan_i st) /\
    audio st'
    = audio st ++
      match chan Src (chan_i st) with
      | Some ch => [ChannelPlay ch (if small then FLY_SMALL else FLY_BIG)]
      | None => []
      end /\
    match small, target with
    | true, Some t =>
        0 < vlength (vsub t pos) ->
        0 < fst (u_dir u) * (fst t - fst pos)
            + snd (u_dir u) * (snd t - snd pos)
    | _, _ =>
        (fst pos < WIDTH C / 2 -> 0 < fst (u_dir u)) /\
        (WIDTH C / 2 <= fst pos -> fst (u_dir u) < 0) /\
        Rabs (snd (u_dir u)) <= Rabs (fst (u_dir u)) / 2
    end /\
    (forall g, members g st' = members g st) /\
    all_sprites st' = all_sprites st /\ objs st' = objs st /\
    core st' = core st /\ score st' = score st.
Proof.
  intro Hr.
  destruct (UFO_init_facts C Src pos small target st Hr)
    as (u & st' & E & H1 & H2 & H3 & H4 & H5 & H6 & H7 & H8 & H9 & H10).
  destruct (UFO_init_frame _ _ _ _ _ _ _ _ E)
    as (F1 & F2 & F3 & F4 & F5 & F6 & F7 & F8).
  exists u, st'.
  refine (conj E (conj H1 (conj H2 (conj H3 (conj H4 (conj H5 (conj H6
            (conj H7 (conj H8 (conj H9 (conj H10 _))))))))))).
  split; [intros []; assumption | ].
  repeat split; assumption.
Qed.

Lemma example_rnd_unit : rnd_unit example_oracle.
Proof. intro n. simpl. lra. Qed.

Lemma UFO_init_spec_witness :
  exists u st',
    UFO_init example_config example_oracle (0, 100) true (Some (480, 360))
      st_wave_due = Some (u, st') /\
    vlength (u_dir u) = 1.
Proof.
  destruct (UFO_init_spec example_config example_oracle (0, 100) true
              (Some (480, 360)) st_wave_due example_rnd_unit)
    as (u & st' & E & Hu & _).
  exists u, st'. split; assumption.
Defined.

(** ** The first part of a frame *)

Lemma remove_id_notin i l : ~ In i l -> remove_id i l = l.
Proof.
  intro H. unfold remove_id. induction l as [|j l IH]; simpl; [reflexivity | ].
  destruct (Nat.eqb_spec j i) as [-> | _]; simpl.
  - exfalso. apply H. now left.
  - f_equal. apply IH. intro X. apply H. now right.
Qed.

Lemma world_ok_class st g i :
  world_ok st -> In i (members g st) -> class_at st i = Some (group_class g).
Proof. intros (_ & _ & _ & Ht & _). apply Ht. Qed.

Lemma kill_bullet_groups i b st :
  world_ok st -> get_obj i st = Some (OBullet b) ->
  asteroids (kill i st) = asteroids st /\ ufos (kill i st) = ufos st.
Proof.
  intros Hok H. unfold kill. rewrite H. simpl.
  split; apply remove_id_notin; intro X.
  - apply (world_ok_class st GAsteroids) in X; [ | exact Hok].
    unfold class_at in X. rewrite H in X. discriminate.
  - apply (world_ok_class st GUfos) in X; [ | exact Hok].
    unfold class_at in X. rewrite H in X. discriminate.
Qed.

Lemma sprite_update_obj_frame C dt i st :
  world_ok st ->
  asteroids (sprite_update C dt (RObj i) st) = asteroids st /\
  ufos (sprite_update C dt (RObj i) st) = ufos st.
Proof.
  intro Hok. unfold sprite_update.
  destruct (get_obj i st) as [[b|a|u]|] eqn:E; try (split; reflexivity).
  unfold Bullet_update. cbv zeta.
  set (st1 := put_obj i (OBullet (Bullet_move C dt b)) st).
  destruct (Rleb _ 0); [ | split; reflexivity].
  assert (H1 : world_ok st1).
  { eapply step_world_ok; [ | exact Hok].
    eapply put_obj_step; [exact E | reflexivity]. }
  assert (E1 : get_obj i st1 = Some (OBullet (Bullet_move C dt b)))
    by (eapply get_obj_put_same; exact E).
  destruct (kill_bullet_groups i _ st1 H1 E1) as [Ha Hu].
  split; simpl; [rewrite Ha | rewrite Hu]; reflexivity.
Qed.

Lemma sprites_fold_frame C dt l st :
  world_ok st -> NoDup l ->
  let st' := fold_left (fun s r => sprite_update C dt r s) l st in
  asteroids st' = asteroids st /\ ufos st' = ufos st /\
  (In RShip l -> ship st' = Ship_update C dt (ship st)) /\
  (~ In RShip l -> ship st' = ship st) /\
  lives st' = lives st /\ wave st' = wave st /\
  wave_cool st' = wave_cool st /\ safe st' = safe st /\
  ufo_timer st' = ufo_timer st /\ score st' = score st.
Proof.
  intros Hok Hnd. revert st Hok.
  induction Hnd as [|r l Hr Hnd IH]; intros st Hok; cbv zeta in *.
  - simpl. repeat split; try reflexivity. intros [].
  - change (fold_left (fun s r => sprite_update C dt r s) (r :: l) st)
      with (fold_left (fun s r => sprite_update C dt r s) l
              (sprite_update C dt r st)).
    set (st1 := sprite_update C dt r st).
    destruct r as [|i].
    + assert (H1 : world_ok st1)
        by (revert Hok; apply world_ok_ext; reflexivity).
      destruct (IH st1 H1) as (A1 & A2 & _ & A4 & A5 & A6 & A7 & A8 & A9 & A10).
      rewrite A1, A2, (A4 Hr), A5, A6, A7, A8, A9, A10.
      repeat split; try reflexivity. intro X. exfalso. apply X. now left.
    + pose proof (sprite_update_evolves C dt i st) as Hev. fold st1 in Hev.
      assert (H1 : world_ok st1) by (eapply evolves_world_ok; eassumption).
      destruct (sprite_update_obj_frame C dt i st Hok) as [B1 B2].
      fold st1 in B1, B2.
      pose proof (evolves_core _ _ _ Hev) as Hc. unfold core in Hc.
      injection Hc as C1 C2 C3 C4 C5 C6.
      assert (Hs : score st1 = score st).
      { pose proof (sprite_update_counters C dt (RObj i) st) as X.
        unfold counters in X. fold st1 in X. now injection X. }
      destruct (IH st1 H1)
        as (A1 & A2 & A3 & A4 & A5 & A6 & A7 & A8 & A9 & A10).
      rewrite A1, A2, A5, A6, A7, A8, A9, A10.
      repeat split; try congruence.
      * intros [X | X]; [discriminate | ]. rewrite (A3 X). congruence.
      * intro X. rewrite A4; [congruence | ]. intro Y. apply X. now right.
Qed.

Lemma ufos_fire_frame C Src target snap st :
  bullets (ufos_fire C Src target snap st) = bullets st /\
  asteroids (ufos_fire C Src target snap st) = asteroids st /\
  ufos (ufos_fire C Src target snap st) = ufos st /\
  score (ufos_fire C Src target snap st) = score st.
Proof.
  revert st. induction snap as [|i rest IH]; intro st; simpl.
  - repeat split; reflexivity.
  - destruct (get_obj i st) as [[b|a|u]|]; try apply IH.
    unfold UFO_fire.
    destruct (Rltb 0 _); [ | destruct (u_small u), target as [t|]]; simpl;
      match goal with |- context [ufos_fire C Src _ rest ?s] =>
        destruct (IH s) as (A1 & A2 & A3 & A4) end;
      rewrite A1, A2, A3, A4; repeat split; reflexivity.
Qed.

Lemma spawn_ufo_frame C Src st st' :
  spawn_ufo C Src st = Some st' ->
  exists u,
    ufos st' = ufos st ++ [length (objs st)] /\
    objs st' = objs st ++ [OUfo u] /\
    asteroids st' = asteroids st /\ core st' = core st /\
    score st' = score st.
Proof.
  unfold spawn_ufo. simpl.
  match goal with |- context [UFO_init C Src ?p ?s ?t ?x] =>
    destruct (UFO_init C Src p s t x) as [[u st4]|] eqn:E; [ | discriminate];
    pose proof (UFO_init_frame _ _ _ _ _ _ _ _ E)
      as (F1 & F2 & F3 & F4 & F5 & F6 & F7 & F8) end.
  unfold core in F7. simpl in F1, F2, F3, F4, F5, F6, F7, F8.
  injection F7 as G1 G2 G3 G4 G5 G6.
  intro X; injection X as <-. exists u. unfold core. simpl.
  rewrite F3, F4, F6, F8, G1, G2, G3, G4, G5, G6.
  repeat split; reflexivity.
Qed.

Lemma update_begin_facts C Src dt keys st st1 :
  world_ok st ->
  update_begin C Src dt keys st = Some st1 ->
  ship st1
  = Ship_set_invuln
      (if Rltb 0 (safe st) then 0.5
       else Rmax (s_invuln (Ship_update C dt (Ship_control C keys dt (ship st)))
                  - dt) 0)
      (Ship_update C dt (Ship_control C keys dt (ship st))) /\
  safe st1 = (if Rltb 0 (safe st) then safe st - dt else safe st) /\
  ufo_timer st1
  = (if Rleb (ufo_timer st - dt) 0 then UFO_SPAWN_EVERY C
     else ufo_timer st - dt) /\
  lives st1 = lives st /\ wave st1 = wave st /\
  wave_cool st1 = wave_cool st /\ score st1 = score st /\
  asteroids st1 = asteroids st /\
  (if Rleb (ufo_timer st - dt) 0
   then exists iu u, ufos st1 = ufos st ++ [iu] /\
                     get_obj iu st1 = Some (OUfo u) /\ ~ In iu (ufos st)
   else ufos st1 = ufos st).
Proof.
  intros Hok. unfold update_begin. cbv zeta.
  set (st0 := set_ship (Ship_control C keys dt (ship st)) st).
  assert (H0 : world_ok st0) by (revert Hok; apply world_ok_ext; reflexivity).
  destruct (sprites_fold_frame C dt (all_sprites st0) st0 H0)
    as (A1 & A2 & A3 & _ & A5 & A6 & A7 & A8 & A9 & A10);
    [apply H0 | ].
  specialize (A3 (proj1 H0)).
  fold (sprites_update C dt st0) in *.
  set (st2 := sprites_update C dt st0) in *.
  assert (H2 : world_ok st2) by (apply sprites_fold_world_ok, H0).
  set (st3 := ufos_fire C Src _ (ufos st2) st2).
  pose proof (ufos_fire_evolves C Src
                (if s_alive (ship st2) then Some (s_pos (ship st2)) else None)
                (ufos st2) st2) as Hev.
  destruct (ufos_fire_frame C Src
              (if s_alive (ship st2) then Some (s_pos (ship st2)) else None)
              (ufos st2) st2) as (_ & B2 & B3 & B4).
  fold st3 in Hev, B2, B3, B4.
  assert (H3 : world_ok st3) by (eapply evolves_world_ok; eassumption).
  pose proof (evolves_core _ _ _ Hev) as Hc. unfold core in Hc.
  injection Hc as C1 C2 C3 C4 C5 C6.
  assert (E3 : ship st3 = Ship_update C dt (Ship_control C keys dt (ship st)))
    by (rewrite C1, A3; reflexivity).
  assert (S3 : safe st3 = safe st) by (rewrite C5, A8; reflexivity).
  assert (T3 : ufo_timer st3 = ufo_timer st) by (rewrite C6, A9; reflexivity).
  assert (L3 : lives st3 = lives st) by (rewrite C2, A5; reflexivity).
  assert (W3 : wave st3 = wave st) by (rewrite C3, A6; reflexivity).
  assert (K3 : wave_cool st3 = wave_cool st) by (rewrite C4, A7; reflexivity).
  assert (P3 : score st3 = score st) by (rewrite B4, A10; reflexivity).
  assert (X3 : asteroids st3 = asteroids st) by (rewrite B2, A1; reflexivity).
  assert (U3 : ufos st3 = ufos st) by (rewrite B3, A2; reflexivity).
  clearbody st3. clear Hev B2 B3 B4 C1 C2 C3 C4 C5 C6.
  rewrite S3, E3.
  set (sh := Ship_update C dt (Ship_control C keys dt (ship st))) in *.
  set (st4 := if Rltb 0 (safe st) then _ else _).
  assert (H4 : world_ok st4 /\ ship st4
               = Ship_set_invuln
                   (if Rltb 0 (safe st) then 0.5
                    else Rmax (s_invuln sh - dt) 0) sh /\
               safe st4 = (if Rltb 0 (safe st) then safe st - dt else safe st)
               /\ ufo_timer st4 = ufo_timer st /\ lives st4 = lives st /\
               wave st4 = wave st /\ wave_cool st4 = wave_cool st /\
               score st4 = score st /\ asteroids st4 = asteroids st /\
               ufos st4 = ufos st /\ objs st4 = objs st3).
  { unfold st4. destruct (Rltb 0 (safe st)); simpl;
      (split; [revert H3; apply world_ok_ext; reflexivity | ]);
      rewrite ?S3; repeat split; assumption. }
  clearbody st4.
  destruct H4 as (H4 & D1 & D2 & D3 & D4 & D5 & D6 & D7 & D8 & D9 & D10).
  simpl. rewrite D3.
  destruct (Rleb (ufo_timer st - dt) 0).
  - destruct (spawn_ufo C Src _) as [st6|] eqn:E6; [ | discriminate].
    intro X; injection X as <-.
    apply spawn_ufo_frame in E6.
    destruct E6 as (u & F1 & F2 & F3 & F4 & F5).
    unfold core in F4. simpl in F1, F2, F3, F4, F5.
    injection F4 as G1 G2 G3 G4 G5 G6.
    simpl. rewrite G1, G2, G3, G4, G5, F3, F5.
    repeat (split; [assumption | ]).
    split; [reflexivity | ].
    repeat (split; [assumption | ]).
    exists (length (objs st4)), u.
    split; [rewrite F1, D9; reflexivity | ].
    split.
    + unfold get_obj. simpl. rewrite F2. apply nth_error_snoc.
    + intro X. rewrite <- D9 in X.
      apply (world_ok_member_bound st4 GUfos) in X; [lia | exact H4].
  - intro X; injection X as <-. simpl.
    repeat (split; [assumption | ]).
    split; [reflexivity | ].
    repeat (split; [assumption | ]). assumption.
Qed.

Lemma spawn_ufo_total C Src st :
  rnd_unit Src -> exists st', spawn_ufo C Src st = Some st'.
Proof.
  intro Hr. unfold spawn_ufo. simpl.
  match goal with |- context [UFO_init C Src ?p ?s ?t ?x] =>
    destruct (UFO_init_facts C Src p s t x Hr) as (u & st4 & E & _);
    rewrite E end.
  eexists; reflexivity.
Qed.

Lemma update_begin_total C Src dt keys st :
  rnd_unit Src -> exists st1, update_begin C Src dt keys st = Some st1.
Proof.
  intro Hr. unfold update_begin. cbv zeta.
  destruct (Rleb _ 0); [ | eexists; reflexivity].
  match goal with |- context [spawn_ufo C Src ?s] =>
    destruct (spawn_ufo_total C Src s Hr) as [st6 E]; rewrite E end.
  eexists; reflexivity.
Qed.

(** X7: [spawn_ufo] never fails when the random numbers lie between 0 and
    1.  It adds exactly one UFO, as a new sprite at the end of [ufos] and
    of [all_sprites]; the UFO starts on the left or on the right edge of the
    arena, at a height within the arena, with a unit direction, and it is a
    small one exactly when the first number drawn is below one half.  The
    other groups, the score and the state of the game stay as they are, and
    no channel is stopped. *)
Theorem spawn_ufo_spec (C : Config) (Src : Oracle) (st : State) :
  rnd_unit Src -> 0 <= HEIGHT C ->
  exists u st',
    spawn_ufo C Src st = Some st' /\
    ufos st' = ufos st ++ [length (objs st)] /\
    all_sprites st' = all_sprites st ++ [RObj (length (objs st))] /\
    objs st' = objs st ++ [OUfo u] /\
    bullets st' = bullets st /\ enemy_bullets st' = enemy_bullets st /\
    asteroids st' = asteroids st /\
    core st' = core st /\ score st' = score st /\
    (fst (u_pos u) = 0 \/ fst (u_pos u) = WIDTH C) /\
    0 <= snd (u_pos u) <= HEIGHT C /\
    vlength (u_dir u) = 1 /\
    (u_small u = true <-> rnd Src (rnd_i st) < 0.5) /\
    (exists ext, audio st' = audio st ++ ext /\
                 forall ch, stops ch ext = 0%nat).
Proof.
  intros Hr Hh. unfold spawn_ufo.
  pose proof (uniform_range Src 0 (HEIGHT C)
                (set_rnd_i (S (rnd_i st)) st) Hr Hh) as Hy.
  unfold uniform in *. simpl in Hy. simpl.
  match goal with |- context [UFO_init C Src ?p ?s ?t ?x] =>
    destruct (UFO_init_facts C Src p s t x Hr)
      as (u & st4 & E & Hu & Hp & Hs & _ & _ & _ & _ & Hch & Ha & _);
    pose proof (UFO_init_frame _ _ _ _ _ _ _ _ E)
      as (F1 & F2 & F3 & F4 & F5 & F6 & F7 & F8);
    rewrite E end.
  unfold core in F7. simpl in F1, F2, F3, F4, F5, F6, F7, F8.
  injection F7 as G1 G2 G3 G4 G5 G6.
  exists u. eexists. split; [reflexivity | ]. unfold core. simpl.
  rewrite F1, F2, F3, F4, F5, F6, F8, G1, G2, G3, G4, G5, G6, Hp, Hs, Hu.
  simpl.
  repeat (split; [reflexivity | ]).
  split; [destruct (Rltb _ 0.5); [left | right]; reflexivity | ].
  split; [exact Hy | ].
  split; [reflexivity | ].
  split; [rewrite Rltb_spec; split; intro; lra | ].
  eexists. split; [exact Ha | ]. intro ch.
  destruct (chan Src _); reflexivity.
Qed.

Lemma example_height : 0 <= HEIGHT example_config.
Proof. simpl. lra. Qed.

Lemma spawn_ufo_spec_witness :
  exists st',
    spawn_ufo example_config example_oracle st_wave_due = Some st' /\
    ufos st' = [0%nat].
Proof.
  destruct (spawn_ufo_spec example_config example_oracle st_wave_due
              example_rnd_unit example_height) as (u & st' & E & Hu & _).
  exists st'. split; [exact E | exact Hu].
Defined.

(** X8: the UFO timer of [update].  In a world whose groups are in order,
    the part of [update] before the collisions takes [dt] from the timer;
    when that leaves zero or less, exactly one UFO joins [ufos], a sprite
    that was not there, and the timer starts again at [UFO_SPAWN_EVERY];
    otherwise [ufos] is as it was.  No asteroid comes or goes in this part
    of the frame, and it never fails when the random numbers lie between 0
    and 1. *)
Theorem ufo_spawn_timing (C : Config) (Src : Oracle) (dt : R) (keys : Keys)
  (st : State) :
  world_ok st -> rnd_unit Src ->
  exists st1,
    update_begin C Src dt keys st = Some st1 /\
    asteroids st1 = asteroids st /\
    (ufo_timer st - dt <= 0 ->
     ufo_timer st1 = UFO_SPAWN_EVERY C /\
     exists iu u, ufos st1 = ufos st ++ [iu] /\
                  get_obj iu st1 = Some (OUfo u) /\ ~ In iu (ufos st)) /\
    (0 < ufo_timer st - dt ->
     ufo_timer st1 = ufo_timer st - dt /\ ufos st1 = ufos st).
Proof.
  intros Hok Hr.
  destruct (update_begin_total C Src dt keys st Hr) as [st1 E].
  exists st1. split; [exact E | ].
  destruct (update_begin_facts C Src dt keys st st1 Hok E)
    as (_ & _ & Ht & _ & _ & _ & _ & Ha & Hu).
  split; [exact Ha | ]. split; intro H.
  - rewrite (Rleb_true _ _ H) in Ht, Hu. split; assumption.
  - rewrite (Rleb_false (ufo_timer st - dt) 0) in Ht, Hu by lra.
    split; assumption.
Qed.

Lemma ufo_spawn_timing_witness :
  exists st1,
    update_begin example_config example_oracle (1 / 8) no_keys st_wave_due
    = Some st1 /\
    ufo_timer st1 = 15 - 1 / 8 /\ ufos st1 = [].
Proof.
  destruct (ufo_spawn_timing example_config example_oracle (1 / 8) no_keys
              st_wave_due st_wave_due_ok example_rnd_unit)
    as (st1 & E & _ & _ & H).
  exists st1. split; [exact E | ]. apply H. simpl. lra.
Defined.

(** ** The protection of the ship *)

Lemma sprites_fold_scalars C dt l st :
  let st' := fold_left (fun s r => sprite_update C dt r s) l st in
  lives st' = lives st /\ safe st' = safe st /\
  s_alive (ship st') = s_alive (ship st).
Proof.
  revert st. induction l as [|r l IH]; intro st; cbv zeta in *.
  - simpl. repeat split; reflexivity.
  - change (fold_left (fun s r => sprite_update C dt r s) (r :: l) st)
      with (fold_left (fun s r => sprite_update C dt r s) l
              (sprite_update C dt r st)).
    set (st1 := sprite_update C dt r st).
    destruct (IH st1) as (A1 & A2 & A3).
    rewrite A1, A2, A3. destruct r as [|i].
    + repeat split; reflexivity.
    + pose proof (evolves_core _ _ _ (sprite_update_evolves C dt i st)) as Hc.
      fold st1 in Hc.
      unfold core in Hc. injection Hc as C1 C2 C3 C4 C5 C6.
      rewrite C1, C2, C5. repeat split; reflexivity.
Qed.

Lemma update_begin_safe C Src dt keys st st1 :
  update_begin C Src dt keys st = Some st1 ->
  lives st1 = lives st /\
  s_alive (ship st1) = s_alive (ship st) /\
  safe st1 = (if Rltb 0 (safe st) then safe st - dt else safe st) /\
  (0 < safe st -> s_invuln (ship st1) = 0.5) /\
  0 <= s_invuln (ship st1).
Proof.
  unfold update_begin. cbv zeta.
  set (st0 := set_ship (Ship_control C keys dt (ship st)) st).
  destruct (sprites_fold_scalars C dt (all_sprites st0) st0) as (A1 & A2 & A3).
  fold (sprites_update C dt st0) in *.
  set (st2 := sprites_update C dt st0) in *.
  set (st3 := ufos_fire C Src _ (ufos st2) st2).
  pose proof (evolves_core _ _ _
                (ufos_fire_evolves C Src
                   (if s_alive (ship st2) then Some (s_pos (ship st2))
                    else None) (ufos st2) st2)) as Hc.
  fold st3 in Hc. unfold core in Hc. injection Hc as C1 C2 C3 C4 C5 C6.
  assert (L3 : lives st3 = lives st) by (rewrite C2, A1; reflexivity).
  assert (S3 : safe st3 = safe st) by (rewrite C5, A2; reflexivity).
  assert (V3 : s_alive (ship st3) = s_alive (ship st))
    by (rewrite C1, A3; reflexivity).
  clearbody st3. clear C1 C2 C3 C4 C5 C6.
  rewrite S3.
  set (st4 := if Rltb 0 (safe st) then _ else _).
  assert (H4 : lives st4 = lives st /\
               s_alive (ship st4) = s_alive (ship st) /\
               safe st4 = (if Rltb 0 (safe st) then safe st - dt else safe st)
               /\ (0 < safe st -> s_invuln (ship st4) = 0.5) /\
               0 <= s_invuln (ship st4)).
  { unfold st4. destruct (Rltb 0 (safe st)) eqn:Es; simpl.
    - rewrite ?S3. repeat split; try assumption; lra.
    - repeat split; try assumption.
      + intro H. apply Rltb_true in H. congruence.
      + apply Rmax_r. }
  clearbody st4. destruct H4 as (D1 & D2 & D3 & D4 & D5).
  simpl. destruct (Rleb _ 0).
  - destruct (spawn_ufo C Src _) as [st6|] eqn:E6; [ | discriminate].
    intro X; injection X as <-.
    apply spawn_ufo_frame in E6. destruct E6 as (u & _ & _ & _ & F4 & _).
    unfold core in F4. simpl in F4. injection F4 as G1 G2 G3 G4 G5 G6.
    simpl. rewrite G1, G2, G5. repeat split; assumption.
  - intro X; injection X as <-. simpl. repeat split; assumption.
Qed.

Lemma handle_collisions_protected C Src fuel st st' :
  0 < s_invuln (ship st) \/ 0 < safe st ->
  handle_collisions C Src fuel st = Some st' ->
  core st' = core st /\
  st' = ufos_vs_asteroids C Src
          (bullets_vs_ufos C (bullets_vs_asteroids C Src st)).
Proof.
  intro H. unfold handle_collisions. cbv zeta.
  pose proof (evolves_core _ _ _ (bullets_vs_asteroids_evolves C Src st)) as H1.
  set (st1 := bullets_vs_asteroids C Src st) in *.
  assert (Hg : Rleb (s_invuln (ship st1)) 0 && Rleb (safe st1) 0 = false).
  { unfold core in H1. injection H1 as C1 C2 C3 C4 C5 C6. rewrite C1, C5.
    destruct H as [H | H].
    - rewrite (Rleb_false (s_invuln (ship st)) 0) by lra. reflexivity.
    - rewrite (Rleb_false (safe st) 0) by lra. apply andb_false_r. }
  unfold ship_collisions. rewrite Hg.
  intro X; injection X as <-. split; [ | reflexivity].
  rewrite (evolves_core _ _ _ (ufos_vs_asteroids_evolves C Src _)).
  rewrite (evolves_core _ _ _ (bullets_vs_ufos_evolves C _)).
  exact H1.
Qed.

Lemma wave_progress_frame C Src fuel dt st st' :
  wave_progress C Src fuel dt st = Some st' ->
  ship st' = ship st /\ lives st' = lives st /\ safe st' = safe st /\
  ufo_timer st' = ufo_timer st /\ score st' = score st.
Proof.
  unfold wave_progress. destruct (asteroids st).
  - destruct (Rleb _ 0).
    + destruct (start_wave C Src fuel st) as [st1|] eqn:E; [ | discriminate].
      intro X; injection X as <-. simpl.
      apply start_wave_adds in E. destruct E as (l & _ & Hc & Hs & _).
      unfold core in Hc. simpl in Hc. injection Hc as C1 C2 C3 C4 C5 C6.
      simpl in Hs. repeat split; assumption.
    + intro X; injection X as <-. repeat split; reflexivity.
  - intro X; injection X as <-. repeat split; reflexivity.
Qed.

(** ** [update] returns *)

Lemma ship_die_total C Src fuel st :
  far_within Src fuel (center C) ->
  exists st', ship_die C Src fuel st = Some st'.
Proof.
  intro Hf. unfold ship_die. destruct (negb _); [eexists; reflexivity | ].
  destruct (0 <=? _)%Z; [eexists; reflexivity | ].
  apply World_init_total, Hf.
Qed.

Lemma ship_vs_sprites_total C Src fuel snap st :
  far_within Src fuel (center C) ->
  exists st', ship_vs_sprites C Src fuel snap st = Some st'.
Proof.
  intro Hf. revert st. induction snap as [|i rest IH]; intro st; simpl.
  - eexists; reflexivity.
  - destruct (get_obj i st) as [o|]; [ | apply IH].
    destruct (touches _ o); [apply ship_die_total, Hf | apply IH].
Qed.

Lemma ship_collisions_total C Src fuel st :
  far_within Src fuel (center C) ->
  exists st', ship_collisions C Src fuel st = Some st'.
Proof.
  intro Hf. unfold ship_collisions.
  destruct (_ && _); [ | eexists; reflexivity].
  destruct (ship_vs_sprites_total C Src fuel (asteroids st) st Hf) as [st1 E1].
  rewrite E1.
  assert (H2 : exists st2,
             (if s_alive (ship st1)
              then ship_vs_sprites C Src fuel (ufos st1) st1
              else Some st1) = Some st2).
  { destruct (s_alive (ship st1)); [ | eexists; reflexivity].
    apply ship_vs_sprites_total, Hf. }
  destruct H2 as [st2 E2]. rewrite E2.
  destruct (s_alive (ship st2)); [ | eexists; reflexivity].
  unfold ship_vs_enemy_bullets.
  destruct (spritecollide_kill _ _ st2) as [hits st3].
  destruct hits; [eexists; reflexivity | apply ship_die_total, Hf].
Qed.

Lemma update_total C Src fuel dt keys st :
  rnd_unit Src -> (forall p, far_within Src fuel p) ->
  exists st', update C Src fuel dt keys st = Some st'.
Proof.
  intros Hr Hf. unfold update.
  destruct (update_begin_total C Src dt keys st Hr) as [st1 E1]. rewrite E1.
  unfold handle_collisions. cbv zeta.
  destruct (ship_collisions_total C Src fuel (bullets_vs_asteroids C Src st1)
              (Hf _)) as [st2 E2].
  rewrite E2. unfold wave_progress.
  destruct (asteroids _); [ | eexists; reflexivity].
  destruct (Rleb _ 0); [ | eexists; reflexivity].
  match goal with |- context [start_wave C Src fuel ?s] =>
    destruct (start_wave_total C Src fuel s (Hf _)) as [st3 E3]; rewrite E3 end.
  eexists; reflexivity.
Qed.

Lemma spread_rnd_unit : rnd_unit spread_oracle.
Proof. intro n. simpl. lra. Qed.

Lemma spread_far fuel p : far_within spread_oracle (S fuel) p.
Proof.
  intro i. destruct p as [x y].
  assert (Hcase : ~ vlength (vsub (0, 0) (x, y)) < 150 \/
                  ~ vlength (vsub (960, 720) (x, y)) < 150).
  { unfold vlength, vsub. simpl.
    destruct (Rle_dec (150 * 150) ((0 - x) * (0 - x) + (0 - y) * (0 - y)))
      as [H | H].
    - left. apply sqrt_not_lt; [lra | exact H].
    - right. apply sqrt_not_lt; [lra | ].
      assert (Hx : -150 < x < 150) by (split; nra).
      nra. }
  simpl. destruct (Nat.even i) eqn:Ei.
  - destruct Hcase as [H | H].
    + exists 0%nat. split; [lia | ]. now rewrite Nat.add_0_r, Ei.
    + exists 1%nat. split; [lia | ].
      rewrite Nat.add_1_r, Nat.even_succ, <- Nat.negb_even, Ei. exact H.
  - destruct Hcase as [H | H].
    + exists 1%nat. split; [lia | ].
      rewrite Nat.add_1_r, Nat.even_succ, <- Nat.negb_even, Ei. exact H.
    + exists 0%nat. split; [lia | ]. now rewrite Nat.add_0_r, Ei.
Qed.

(** X9: the calls on the world always return.  When the random numbers
    lie between 0 and 1, and the edge positions [rand_edge_pos] yields are
    such that the loop of [start_wave] finds one 150 or more away from any
    place within [fuel] rejections, no call of [update] fails, whatever the
    world, the time passed and the keys, and neither does any sequence of
    calls of [update], [try_fire] and [hyperspace]: no vector of length
    zero is normalised when a UFO is built, and every loop ends. *)
Theorem update_never_fails (C : Config) (Src : Oracle) (fuel : nat) :
  rnd_unit Src -> (forall p, far_within Src fuel p) ->
  (forall dt keys st, exists st', update C Src fuel dt keys st = Some st') /\
  (forall cs st, exists st', calls C Src fuel cs st = Some st').
Proof.
  intros Hr Hf.
  assert (Hu : forall dt keys st,
             exists st', update C Src fuel dt keys st = Some st')
    by (intros; apply update_total; assumption).
  split; [exact Hu | ].
  induction cs as [|c cs IH]; intro st; simpl.
  - eexists; reflexivity.
  - destruct c as [dt keys | | ]; simpl.
    + destruct (Hu dt keys st) as [st1 E]. rewrite E. apply IH.
    + apply IH.
    + apply IH.
Qed.

Lemma update_never_fails_witness :
  exists st',
    update example_config spread_oracle 1 (1 / 8) no_keys st_overlap
    = Some st'.
Proof.
  apply (proj1 (update_never_fails example_config spread_oracle 1
                  spread_rnd_unit (spread_far 0))).
Defined.

(** X10: while the safe time of the world is positive at the start of a
    frame, [update] cannot cost a life: it takes [dt] from the safe time
    and holds the invulnerability of the ship at 0.5, which switches the
    deadly collisions of the frame off; the ship stays alive and [lives] is
    unchanged. *)
Theorem safe_window_protects (C : Config) (Src : Oracle) (fuel : nat)
  (dt : R) (keys : Keys) (st st' : State) :
  0 < safe st ->
  update C Src fuel dt keys st = Some st' ->
  lives st' = lives st /\ s_alive (ship st') = s_alive (ship st) /\
  safe st' = safe st - dt /\ s_invuln (ship st') = 0.5.
Proof.
  intros Hs. unfold update.
  destruct (update_begin C Src dt keys st) as [st1|] eqn:E1; [ | discriminate].
  destruct (handle_collisions C Src fuel st1) as [st2|] eqn:E2;
    [ | discriminate].
  intro E3.
  apply update_begin_safe in E1. destruct E1 as (L1 & V1 & S1 & I1 & _).
  rewrite (Rltb_true _ _ Hs) in S1. specialize (I1 Hs).
  apply handle_collisions_protected in E2; [ | left; lra].
  destruct E2 as [Hc _]. unfold core in Hc.
  injection Hc as C1 C2 C3 C4 C5 C6.
  apply wave_progress_frame in E3. destruct E3 as (W1 & W2 & W3 & _).
  rewrite W1, W2, W3, C1, C2, C5. repeat split; assumption.
Qed.

Lemma safe_window_protects_witness :
  exists st',
    update example_config spread_oracle 1 (1 / 8) no_keys st_safe_crash
    = Some st' /\ lives st' = 3%Z.
Proof.
  destruct (update_total example_config spread_oracle 1 (1 / 8) no_keys
              st_safe_crash spread_rnd_unit (spread_far 0)) as [st' E].
  exists st'. split; [exact E | ].
  apply (safe_window_protects example_config spread_oracle 1 (1 / 8) no_keys
           st_safe_crash st' ltac:(simpl; lra) E).
Defined.

(** X11: outside the safe window the invulnerability of the ship runs out
    twice as fast as the clock.  In a world whose groups are in order and
    whose safe time is used up, [Ship.update] takes [dt] from a positive
    invulnerability and [World.update] takes [dt] again and clamps at zero:
    at the collisions of the frame the ship has [max(invuln - 2 * dt, 0)]
    left, and nothing when it had nothing.  A frame that starts with more
    than [2 * dt] of invulnerability costs no life and ends with
    [invuln - 2 * dt]. *)
Theorem invulnerability_runs_out_twice_as_fast (C : Config) (Src : Oracle)
  (fuel : nat) (dt : R) (keys : Keys) (st : State) :
  world_ok st -> 0 <= dt -> safe st <= 0 ->
  (forall st1,
     update_begin C Src dt keys st = Some st1 ->
     (0 < s_invuln (ship st) ->
      s_invuln (ship st1) = Rmax (s_invuln (ship st) - 2 * dt) 0) /\
     (s_invuln (ship st) <= 0 -> s_invuln (ship st1) = 0)) /\
  (forall st',
     update C Src fuel dt keys st = Some st' ->
     2 * dt < s_invuln (ship st) ->
     lives st' = lives st /\
     s_invuln (ship st') = s_invuln (ship st) - 2 * dt).
Proof.
  intros Hok Hdt Hs.
  assert (Hb : forall st1,
             update_begin C Src dt keys st = Some st1 ->
             lives st1 = lives st /\
             (0 < s_invuln (ship st) ->
              s_invuln (ship st1) = Rmax (s_invuln (ship st) - 2 * dt) 0) /\
             (s_invuln (ship st) <= 0 -> s_invuln (ship st1) = 0)).
  { intros st1 E1.
    destruct (update_begin_facts C Src dt keys st st1 Hok E1)
      as (Hship & _ & _ & Hl & _).
    split; [exact Hl | ].
    rewrite Hship, (Rltb_false 0 (safe st)) by lra. simpl.
    split; intro H.
    - rewrite (Rltb_true _ _ H). f_equal. lra.
    - rewrite (Rltb_false 0 (s_invuln (ship st))) by lra.
      apply Rmax_right. lra. }
  split.
  - intros st1 E1. apply Hb, E1.
  - intros st'. unfold update.
    destruct (update_begin C Src dt keys st) as [st1|] eqn:E1;
      [ | discriminate].
    destruct (handle_collisions C Src fuel st1) as [st2|] eqn:E2;
      [ | discriminate].
    intros E3 H.
    destruct (Hb st1 eq_refl) as (L1 & I1 & _).
    assert (I1' : s_invuln (ship st1) = s_invuln (ship st) - 2 * dt).
    { rewrite I1 by lra. apply Rmax_left. lra. }
    apply handle_collisions_protected in E2; [ | left; lra].
    destruct E2 as [Hc _]. unfold core in Hc.
    injection Hc as C1 C2 C3 C4 C5 C6.
    apply wave_progress_frame in E3. destruct E3 as (W1 & W2 & _).
    rewrite W1, W2, C1, C2. split; assumption.
Qed.

Lemma st_invulnerable_ok t : world_ok (st_invulnerable t).
Proof.
  generalize st_wave_due_ok. apply world_ok_ext; reflexivity.
Qed.

Lemma invulnerability_runs_out_twice_as_fast_witness :
  exists st',
    update example_config spread_oracle 1 (1 / 8) no_keys (st_invulnerable 1)
    = Some st' /\
    s_invuln (ship st') = 1 - 2 * (1 / 8).
Proof.
  destruct (update_total example_config spread_oracle 1 (1 / 8) no_keys
              (st_invulnerable 1) spread_rnd_unit (spread_far 0)) as [st' E].
  exists st'. split; [exact E | ].
  apply (invulnerability_runs_out_twice_as_fast example_config spread_oracle
           1 (1 / 8) no_keys (st_invulnerable 1) (st_invulnerable_ok 1)
           ltac:(lra) ltac:(simpl; lra)).
  - exact E.
  - simpl. lra.
Defined.

(** ** Player bullets against UFOs *)

Lemma shot_at_objs st st' u ib :
  objs st' = objs st -> shot_at st' u ib = shot_at st u ib.
Proof. intro H. unfold shot_at, get_obj. now rewrite H. Qed.

Lemma filter_shot_at_objs st st' u l :
  objs st' = objs st -> filter (shot_at st' u) l = filter (shot_at st u) l.
Proof.
  intro H. apply filter_ext. intro ib. apply shot_at_objs, H.
Qed.

Lemma stops_snoc_stop ch log :
  stops ch (log ++ [ChannelStop ch]) = S (stops ch log).
Proof.
  rewrite stops_app. unfold stops at 2. simpl. rewrite Nat.eqb_refl.
  simpl. lia.
Qed.

Lemma ufo_vs_bullets_facts C iu u snap st :
  score (ufo_vs_bullets C iu u snap st)
  = (score st
     + ufo_score C u * Z.of_nat (length (filter (shot_at st u) snap)))%Z /\
  objs (ufo_vs_bullets C iu u snap st) = objs st /\
  core (ufo_vs_bullets C iu u snap st) = core st /\
  (forall ch, u_channel u = Some ch ->
     stops ch (audio (ufo_vs_bullets C iu u snap st))
     = (stops ch (audio st) + length (filter (shot_at st u) snap))%nat) /\
  (forall g j,
     In j (members g (ufo_vs_bullets C iu u snap st)) <->
     In j (members g st) /\
     forall ib, In ib snap -> shot_at st u ib = true -> j <> ib /\ j <> iu) /\
  (forall r,
     In r (all_sprites (ufo_vs_bullets C iu u snap st)) <->
     In r (all_sprites st) /\
     forall ib, In ib snap -> shot_at st u ib = true ->
                r <> RObj ib /\ r <> RObj iu).
Proof.
  revert st. induction snap as [|ib rest IH]; intro st.
  - simpl. refine (conj _ (conj eq_refl (conj eq_refl (conj _ (conj _ _))))).
    + lia.
    + intros ch _. lia.
    + intros g j. split; [intro H; split; [exact H | intros ib []] | tauto].
    + intros r. split; [intro H; split; [exact H | intros ib []] | tauto].
  - assert (Hmiss : shot_at st u ib = false ->
                     forall P : nat -> Prop,
                       (forall ib', In ib' (ib :: rest) ->
                                    shot_at st u ib' = true -> P ib') <->
                       (forall ib', In ib' rest ->
                                    shot_at st u ib' = true -> P ib')).
    { intros Hm P. split; intros H ib' Hin Hs.
      - apply H; [now right | exact Hs].
      - destruct Hin as [<- | Hin]; [congruence | now apply H]. }
    simpl ufo_vs_bullets. simpl filter.
    destruct (get_obj ib st) as [[b|a|u']|] eqn:E.
    2-4: (assert (Hs0 : shot_at st u ib = false)
            by (unfold shot_at; rewrite E; reflexivity);
          rewrite Hs0;
          destruct (IH st) as (A1 & A2 & A3 & A4 & A5 & A6);
          refine (conj A1 (conj A2 (conj A3 (conj A4 (conj _ _)))));
          [ intros g j;
            rewrite A5, (Hmiss Hs0 (fun ib' => j <> ib' /\ j <> iu));
            reflexivity
          | intros r; rewrite A6,
              (Hmiss Hs0 (fun ib' => r <> RObj ib' /\ r <> RObj iu));
            reflexivity ]).
    assert (Hs0 : shot_at st u ib
                  = Rltb (vlength (vsub (u_pos u) (b_pos b))) (u_r u + b_r b))
      by (unfold shot_at; rewrite E; reflexivity).
    rewrite Hs0.
    destruct (Rltb (vlength (vsub (u_pos u) (b_pos b))) (u_r u + b_r b)) eqn:Eh.
    + set (st1 := set_score _ st).
      set (st2 := UFO_kill iu u st1).
      set (st3 := kill ib st2).
      assert (Ho : objs st3 = objs st)
        by (unfold st3; rewrite kill_objs; unfold st2, UFO_kill;
            destruct (u_channel u); reflexivity).
      assert (Hk : st3 = Sprite_kill ib st2).
      { unfold st3, kill.
        replace (get_obj ib st2) with (get_obj ib st); [now rewrite E | ].
        unfold st2, UFO_kill, get_obj. destruct (u_channel u); reflexivity. }
      destruct (IH st3) as (A1 & A2 & A3 & A4 & A5 & A6).
      rewrite (filter_shot_at_objs st st3 u rest Ho) in *.
      assert (Hsh : forall ib', shot_at st3 u ib' = shot_at st u ib')
        by (intro; apply shot_at_objs, Ho).
      refine (conj _ (conj _ (conj _ (conj _ (conj _ _))))).
      * rewrite A1. simpl length. rewrite Nat2Z.inj_succ.
        replace (score st3) with (score st + ufo_score C u)%Z; [lia | ].
        rewrite Hk. unfold st2, UFO_kill.
        destruct (u_channel u); reflexivity.
      * congruence.
      * rewrite A3, Hk. unfold st2, UFO_kill.
        destruct (u_channel u); reflexivity.
      * intros ch Hch. rewrite (A4 ch Hch). simpl length.
        replace (audio st3) with (audio st ++ [ChannelStop ch]).
        -- rewrite stops_snoc_stop. lia.
        -- rewrite Hk. unfold st2, UFO_kill. rewrite Hch. reflexivity.
      * intros g j. rewrite A5.
        assert (Hm : In j (members g st3) <->
                     In j (members g st) /\ j <> ib /\ j <> iu).
        { rewrite Hk.
          transitivity (In j (remove_id ib (remove_id iu (members g st)))).
          - unfold st2, UFO_kill.
            destruct g, (u_channel u); reflexivity.
          - rewrite !In_remove_id. tauto. }
        rewrite Hm. split.
        -- intros [(H1 & H2 & H3) H4]. split; [exact H1 | ].
           intros ib' [<- | Hin] Hs; [split; assumption | ].
           apply H4; [exact Hin | now rewrite Hsh].
        -- intros [H1 H2]. split.
           ++ split; [exact H1 | ]. apply (H2 ib); [now left | ].
              unfold shot_at. rewrite E. exact Eh.
           ++ intros ib' Hin Hs. apply H2; [now right | now rewrite <- Hsh].
      * intros r. rewrite A6.
        assert (Hm : In r (all_sprites st3) <->
                     In r (all_sprites st) /\ r <> RObj ib /\ r <> RObj iu).
        { rewrite Hk.
          transitivity (In r (remove_ref ib (remove_ref iu (all_sprites st)))).
          - unfold st2, UFO_kill. destruct (u_channel u); reflexivity.
          - rewrite !In_remove_ref. tauto. }
        rewrite Hm. split.
        -- intros [(H1 & H2 & H3) H4]. split; [exact H1 | ].
           intros ib' [<- | Hin] Hs; [split; assumption | ].
           apply H4; [exact Hin | now rewrite Hsh].
        -- intros [H1 H2]. split.
           ++ split; [exact H1 | ]. apply (H2 ib); [now left | ].
              unfold shot_at. rewrite E. exact Eh.
           ++ intros ib' Hin Hs. apply H2; [now right | now rewrite <- Hsh].
    + destruct (IH st) as (A1 & A2 & A3 & A4 & A5 & A6).
      refine (conj A1 (conj A2 (conj A3 (conj A4 (conj _ _))))).
      * intros g j.
        rewrite A5, (Hmiss Hs0 (fun ib' => j <> ib' /\ j <> iu)). reflexivity.
      * intros r.
        rewrite A6, (Hmiss Hs0 (fun ib' => r <> RObj ib' /\ r <> RObj iu)).
        reflexivity.
Qed.

Lemma ufo_vs_bullets_none C iu u snap st :
  filter (shot_at st u) snap = [] -> ufo_vs_bullets C iu u snap st = st.
Proof.
  induction snap as [|ib rest IH]; simpl; [reflexivity | ].
  unfold shot_at at 1.
  destruct (get_obj ib st) as [[b|a|u']|]; try exact IH.
  simpl. destruct (Rltb _ _); [discriminate | exact IH].
Qed.

(** X12: the third collision pass has no [break].  For a UFO, the loop
    over the player bullets adds the score of the UFO once for every bullet
    within reach of it, not once for the UFO: two bullets that reach it in
    the same frame pay twice, and stop its engine channel twice.  Every
    such bullet leaves [bullets] and [all_sprites], and so does the UFO as
    soon as one bullet reaches it; nothing else leaves a group, and the
    lives and the ship are not touched.  With no bullet within reach the
    world stays as it is. *)
Theorem ufo_pays_per_bullet (C : Config) (st : State) (iu : nat) (u : UFO) :
  score (ufo_vs_bullets C iu u (bullets st) st)
  = (score st + ufo_score C u * Z.of_nat (length (shots_on st u)))%Z /\
  (forall ch, u_channel u = Some ch ->
     stops ch (audio (ufo_vs_bullets C iu u (bullets st) st))
     = (stops ch (audio st) + length (shots_on st u))%nat) /\
  (forall g j,
     In j (members g (ufo_vs_bullets C iu u (bullets st) st)) <->
     In j (members g st) /\
     forall ib, In ib (shots_on st u) -> j <> ib /\ j <> iu) /\
  (forall r,
     In r (all_sprites (ufo_vs_bullets C iu u (bullets st) st)) <->
     In r (all_sprites st) /\
     forall ib, In ib (shots_on st u) -> r <> RObj ib /\ r <> RObj iu) /\
  core (ufo_vs_bullets C iu u (bullets st) st) = core st /\
  (shots_on st u = [] -> ufo_vs_bullets C iu u (bullets st) st = st) /\
  (ufos st = [iu] -> get_obj iu st = Some (OUfo u) ->
   bullets_vs_ufos C st = ufo_vs_bullets C iu u (bullets st) st).
Proof.
  destruct (ufo_vs_bullets_facts C iu u (bullets st) st)
    as (A1 & _ & A3 & A4 & A5 & A6).
  unfold shots_on.
  assert (Hin : forall P : nat -> Prop,
             (forall ib, In ib (bullets st) -> shot_at st u ib = true -> P ib)
             <-> (forall ib, In ib (filter (shot_at st u) (bullets st)) ->
                             P ib)).
  { intro P. split; intros H ib.
    - intro X. apply filter_In in X. destruct X. now apply H.
    - intros X Y. apply H, filter_In. now split. }
  refine (conj A1 (conj A4 (conj _ (conj _ (conj A3 (conj _ _)))))).
  - intros g j. rewrite A5. rewrite (Hin (fun ib => j <> ib /\ j <> iu)).
    reflexivity.
  - intros r. rewrite A6.
    rewrite (Hin (fun ib => r <> RObj ib /\ r <> RObj iu)). reflexivity.
  - apply ufo_vs_bullets_none.
  - intros Hu Hg. unfold bullets_vs_ufos. rewrite Hu. simpl. rewrite Hg.
    reflexivity.
Qed.

Lemma st_two_shots_reach :
  shots_on st_two_shots (example_ufo (100, 100) 1 7) = [1%nat; 2%nat].
Proof.
  unfold shots_on. simpl bullets.
  assert (H : forall ib b,
             get_obj ib st_two_shots = Some (OBullet b) ->
             b_pos b = (100, 100) -> b_r b = 2 ->
             shot_at st_two_shots (example_ufo (100, 100) 1 7) ib = true).
  { intros ib b E Hp Hr. unfold shot_at. rewrite E. simpl.
    apply Rltb_true. rewrite vlength_zero by (rewrite Hp; reflexivity).
    rewrite Hr. lra. }
  unfold filter.
  rewrite (H 1%nat _ eq_refl eq_refl eq_refl).
  rewrite (H 2%nat _ eq_refl eq_refl eq_refl).
  reflexivity.
Qed.

Lemma ufo_pays_per_bullet_witness :
  score (bullets_vs_ufos example_config st_two_shots) = 400%Z.
Proof.
  destruct (ufo_pays_per_bullet example_config st_two_shots 0
              (example_ufo (100, 100) 1 7))
    as (H1 & _ & _ & _ & _ & _ & H7).
  rewrite (H7 eq_refl eq_refl), H1, st_two_shots_reach. reflexivity.
Defined.

(** ** The asteroids of a wave *)

Lemma vlength_cos_sin a : vlength (cos a, sin a) = 1.
Proof.
  unfold vlength. simpl.
  pose proof (sin2_cos2 a) as H. unfold Rsqr in H.
  replace (_ + _) with 1 by lra. apply sqrt_1.
Qed.

Lemma reject_near_frame Src fuel pos st pos' st' :
  reject_near Src fuel pos st = Some (pos', st') ->
  objs st' = objs st /\ asteroids st' = asteroids st /\
  ship st' = ship st /\ rnd_i st' = rnd_i st.
Proof.
  revert pos st. induction fuel as [|fuel IH]; intros pos st; simpl.
  - destruct (Rltb _ 150); [discriminate | ].
    intro X; injection X as _ <-. repeat split; reflexivity.
  - destruct (Rltb _ 150).
    + intro X. apply IH in X. exact X.
    + intro X; injection X as _ <-. repeat split; reflexivity.
Qed.

Lemma start_wave_step_spawn C Src fuel st st' :
  start_wave_step C Src fuel st = Some st' ->
  exists a,
    objs st' = objs st ++ [OAsteroid a] /\
    asteroids st' = asteroids st ++ [length (objs st)] /\
    ship st' = ship st /\
    wave_asteroid C Src (s_pos (ship st)) a.
Proof.
  unfold start_wave_step. simpl.
  destruct (reject_near Src fuel _ _) as [[pos st1]|] eqn:E; [ | discriminate].
  pose proof (reject_near_frame _ _ _ _ _ _ E) as (F1 & F2 & F3 & F4).
  apply reject_near_adds in E. destruct E as [_ Hfar].
  simpl in F1, F2, F3, F4, Hfar.
  intro X; injection X as <-.
  match goal with |- context [spawn_asteroid C Src ?p ?v ?s ?x] =>
    destruct (spawn_asteroid_eq C Src p v s x) as (a & Ea & P1 & P2 & P3 & P4)
  end.
  exists a. rewrite Ea. simpl. rewrite F1, F2, F3.
  repeat split; try reflexivity; try assumption.
  - rewrite P1. apply Rnot_lt_le, Hfar.
  - rewrite P2, vlength_scale, vlength_cos_sin, Rmult_1_l.
    pose proof (H (S (rnd_i st1))). rewrite Rabs_right; nra.
  - rewrite P2, vlength_scale, vlength_cos_sin, Rmult_1_l.
    pose proof (H (S (rnd_i st1))). rewrite Rabs_right; nra.
Qed.

Lemma repeat_step_spawn C Src fuel n st st' :
  repeat_step n (start_wave_step C Src fuel) st = Some st' ->
  exists l,
    length l = n /\ asteroids st' = asteroids st ++ l /\
    ship st' = ship st /\ (exists ext, objs st' = objs st ++ ext) /\
    Forall (fun i => exists a, get_obj i st' = Some (OAsteroid a) /\
                               wave_asteroid C Src (s_pos (ship st)) a) l.
Proof.
  revert st. induction n as [|n IH]; intro st; simpl.
  - intro X; injection X as <-. exists []. rewrite !app_nil_r.
    repeat split; try reflexivity; [ | constructor].
    exists []. now rewrite app_nil_r.
  - destruct (start_wave_step C Src fuel st) as [st1|] eqn:E; [ | discriminate].
    intro X. apply IH in X. destruct X as (l & Hl & Ha & Hs & [ext Ho] & Hall).
    apply start_wave_step_spawn in E.
    destruct E as (a & E1 & E2 & E3 & E4).
    exists (length (objs st) :: l).
    split; [simpl; lia | ].
    split; [rewrite Ha, E2, <- app_assoc; reflexivity | ].
    split; [congruence | ].
    split; [exists ([OAsteroid a] ++ ext); rewrite Ho, E1, <- app_assoc;
            reflexivity | ].
    constructor.
    + exists a. split; [ | exact E4].
      apply (get_obj_app _ st1 st' ext); [exact Ho | ].
      unfold get_obj. rewrite E1. apply nth_error_snoc.
    + rewrite E3 in Hall. exact Hall.
Qed.

(** X13: every asteroid [start_wave] adds is a large one that starts 150
    or more away from the ship; with random numbers between 0 and 1 and
    [0 <= AST_VEL_MIN <= AST_VEL_MAX] its speed lies between the two.  The
    new asteroids are new sprites at the end of [asteroids], 3 plus the new
    wave number of them.  So every asteroid of the world [World.__init__]
    builds is a large one, 150 or more away from the center of the arena,
    where the ship is. *)
Theorem start_wave_spawns_far (C : Config) (Src : Oracle) (fuel : nat) :
  (forall st st',
     start_wave C Src fuel st = Some st' ->
     exists l,
       asteroids st' = asteroids st ++ l /\
       length l = Z.to_nat (3 + (wave st + 1)) /\
       wave st' = (wave st + 1)%Z /\
       Forall (fun i => exists a, get_obj i st' = Some (OAsteroid a) /\
                                  wave_asteroid C Src (s_pos (ship st)) a) l) /\
  (forall st st',
     World_init C Src fuel st = Some st' ->
     s_pos (ship st') = center C /\
     Forall (fun i => exists a, get_obj i st' = Some (OAsteroid a) /\
                                wave_asteroid C Src (center C) a)
            (asteroids st')).
Proof.
  assert (Hw : forall st st',
             start_wave C Src fuel st = Some st' ->
             exists l,
               asteroids st' = asteroids st ++ l /\
               length l = Z.to_nat (3 + (wave st + 1)) /\
               wave st' = (wave st + 1)%Z /\
               Forall (fun i => exists a,
                         get_obj i st' = Some (OAsteroid a) /\
                         wave_asteroid C Src (s_pos (ship st)) a) l).
  { intros st st'. unfold start_wave. cbv zeta. intro E.
    pose proof (repeat_step_adds _ _ _ _ _ _ E) as (l0 & _ & Hc & _).
    apply repeat_step_spawn in E.
    destruct E as (l & Hl & Ha & _ & _ & Hall).
    exists l. split; [exact Ha | ]. split; [exact Hl | ].
    split; [ | exact Hall].
    unfold core in Hc. simpl in Hc. now injection Hc. }
  split; [exact Hw | ].
  intros st st' E.
  pose proof (World_init_fresh _ _ _ _ _ E) as ((_ & _ & _ & Hs & _) & _).
  split; [rewrite Hs; reflexivity | ].
  unfold World_init in E. apply Hw in E.
  destruct E as (l & Ha & _ & _ & Hall). simpl in Ha, Hall.
  rewrite Ha. exact Hall.
Qed.

Lemma start_wave_spawns_far_witness :
  exists st' l,
    start_wave example_config spread_oracle 1 st_wave_due = Some st' /\
    asteroids st' = l /\ length l = 6%nat.
Proof.
  destruct (start_wave_total example_config spread_oracle 1 st_wave_due
              (spread_far 0 _)) as [st' E].
  destruct (proj1 (start_wave_spawns_far example_config spread_oracle 1)
              st_wave_due st' E) as (l & Ha & Hl & _).
  exists st', l. split; [exact E | ]. split; [exact Ha | exact Hl].
Defined.

(** ** The pieces of an asteroid *)

Lemma split_children_spawn C Src parent sizes st :
  exists l,
    asteroids
      (fold_left
         (fun s size =>
            let (dirv, s1) := rand_unit_vec Src s in
            let (u, s2) := uniform Src (AST_VEL_MIN C) (AST_VEL_MAX C) s1 in
            spawn_asteroid C Src (a_pos parent) (vscale dirv (u * 1.2)) size s2)
         sizes st)
    = asteroids st ++ l /\
    (exists ext,
       objs
         (fold_left
            (fun s size =>
               let (dirv, s1) := rand_unit_vec Src s in
               let (u, s2) := uniform Src (AST_VEL_MIN C) (AST_VEL_MAX C) s1 in
               spawn_asteroid C Src (a_pos parent) (vscale dirv (u * 1.2))
                 size s2)
            sizes st)
       = objs st ++ ext) /\
    Forall (fun j => (length (objs st) <= j)%nat) l /\
    Forall2
      (fun j size =>
         exists a,
           get_obj j
             (fold_left
                (fun s size =>
                   let (dirv, s1) := rand_unit_vec Src s in
                   let (u, s2) :=
                     uniform Src (AST_VEL_MIN C) (AST_VEL_MAX C) s1 in
                   spawn_asteroid C Src (a_pos parent) (vscale dirv (u * 1.2))
                     size s2)
                sizes st)
           = Some (OAsteroid a) /\
           piece_of C Src parent size a)
      l sizes.
Proof.
  match goal with |- context [fold_left ?f _ _] => set (F := f) end.
  revert st. induction sizes as [|size sizes IH]; intro st.
  - simpl. exists []. rewrite app_nil_r.
    repeat split; try constructor. exists []. now rewrite app_nil_r.
  - simpl fold_left.
    assert (EF : F st size
                 = spawn_asteroid C Src (a_pos parent)
                     (vscale (unitv Src (unit_i st))
                        ((AST_VEL_MIN C
                          + (AST_VEL_MAX C - AST_VEL_MIN C)
                            * rnd Src (rnd_i st)) * 1.2))
                     size
                     (set_rnd_i (S (rnd_i st))
                        (set_unit_i (S (unit_i st)) st)))
      by reflexivity.
    rewrite EF. clear EF.
    match goal with |- context [spawn_asteroid C Src ?p ?v ?s ?x] =>
      destruct (spawn_asteroid_eq C Src p v s x)
        as (a & Ea & P1 & P2 & P3 & P4);
      set (st1 := spawn_asteroid C Src p v s x) in *
    end.
    assert (E1 : objs st1 = objs st ++ [OAsteroid a])
      by (rewrite Ea; reflexivity).
    assert (E2 : asteroids st1 = asteroids st ++ [length (objs st)])
      by (rewrite Ea; reflexivity).
    clearbody st1.
    destruct (IH st1) as (l & Ha & [ext Ho] & Hb & Hall).
    exists (length (objs st) :: l).
    split; [rewrite Ha, E2, <- app_assoc; reflexivity | ].
    split; [exists ([OAsteroid a] ++ ext); rewrite Ho, E1, <- app_assoc;
            reflexivity | ].
    split.
    + constructor; [lia | ].
      eapply Forall_impl; [ | exact Hb].
      intros j Hj. rewrite E1, length_app in Hj. simpl in Hj. lia.
    + constructor; [ | exact Hall].
      exists a. split.
      * eapply (get_obj_app _ st1); [exact Ho | ].
        unfold get_obj. rewrite E1. apply nth_error_snoc.
      * unfold piece_of. repeat split; try assumption.
        -- rewrite P2, vlength_scale. simpl. rewrite H0.
           pose proof (H (rnd_i st)). rewrite Rabs_right; nra.
        -- rewrite P2, vlength_scale. simpl. rewrite H0.
           pose proof (H (rnd_i st)). rewrite Rabs_right; nra.
Qed.

(** X14: [split_asteroid] takes the asteroid out of [asteroids] and puts
    one new asteroid per entry of the "split" table of its size at the end
    of the group, in the order of the table.  Each piece has the size the
    table names and the radius of that size, and starts at the place of its
    parent; when [rand_unit_vec] yields unit vectors, the random numbers lie
    between 0 and 1 and [0 <= AST_VEL_MIN <= AST_VEL_MAX], its speed is 1.2
    times a speed between the two. *)
Theorem split_asteroid_pieces (C : Config) (Src : Oracle) (i : nat)
  (a : Asteroid) (st : State) :
  get_obj i st = Some (OAsteroid a) ->
  exists l,
    asteroids (split_asteroid C Src i a st)
    = remove_id i (asteroids st) ++ l /\
    ~ In i (asteroids (split_asteroid C Src i a st)) /\
    Forall2
      (fun j size =>
         exists a', get_obj j (split_asteroid C Src i a st)
                    = Some (OAsteroid a') /\
                    piece_of C Src a size a')
      l (AST_split C (a_size a)).
Proof.
  intro H. unfold split_asteroid. cbv zeta.
  match goal with |- context [fold_left _ _ ?s] =>
    destruct (split_children_spawn C Src a (AST_split C (a_size a)) s)
      as (l & Ha & _ & Hb & Hall);
    assert (Hk : asteroids s = remove_id i (asteroids st) /\
                 objs s = objs st)
  end.
  { rewrite kill_objs. split; [ | destruct (a_size a); reflexivity].
    unfold kill.
    replace (get_obj i _) with (Some (OAsteroid a))
      by (destruct (a_size a); symmetry; exact H).
    destruct (a_size a); reflexivity. }
  destruct Hk as [Hk Ho].
  exists l. rewrite Ha, Hk. split; [reflexivity | ].
  split; [ | exact Hall].
  rewrite in_app_iff. intros [X | X].
  - apply In_remove_id in X. destruct X as [_ X]. now apply X.
  - rewrite Forall_forall in Hb. apply Hb in X. rewrite Ho in X.
    assert (i < length (objs st))%nat; [ | lia].
    apply nth_error_Some. unfold get_obj in H. congruence.
Qed.

Lemma split_asteroid_pieces_witness :
  exists l,
    asteroids
      (split_asteroid example_config example_oracle 0
         (example_asteroid (200, 100) (40, 0) Large) st_shot)
    = l /\ length l = 2%nat.
Proof.
  destruct (split_asteroid_pieces example_config example_oracle 0
              (example_asteroid (200, 100) (40, 0) Large) st_shot eq_refl)
    as (l & Ha & _ & Hall).
  exists l. split; [exact Ha | ].
  apply Forall2_length in Hall. exact Hall.
Defined.

(** ** Steering *)

Lemma vlength_sqr v : vlength v * vlength v = fst v * fst v + snd v * snd v.
Proof. unfold vlength. apply sqrt_sqrt. nra. Qed.

Lemma vlength_triangle a b : vlength (vadd a b) <= vlength a + vlength b.
Proof.
  pose proof (vlength_nonneg a) as Ha. pose proof (vlength_nonneg b) as Hb.
  pose proof (vlength_nonneg (vadd a b)) as Hab.
  pose proof (vlength_sqr a) as Sa. pose proof (vlength_sqr b) as Sb.
  pose proof (vlength_sqr (vadd a b)) as Sab.
  destruct a as [a1 a2], b as [b1 b2]. unfold vadd in *. simpl in *.
  set (la := vlength (a1, a2)) in *. set (lb := vlength (b1, b2)) in *.
  set (lab := vlength (a1 + b1, a2 + b2)) in *.
  clearbody la lb lab.
  assert (Hcs : a1 * b1 + a2 * b2 <= la * lb).
  { destruct (Rle_dec (a1 * b1 + a2 * b2) 0) as [Hn | Hp]; [nra | ].
    apply Rnot_le_lt in Hp.
    assert (Hsq : (a1 * b1 + a2 * b2) * (a1 * b1 + a2 * b2)
                  <= (la * lb) * (la * lb)).
    { replace ((la * lb) * (la * lb)) with ((la * la) * (lb * lb)) by ring.
      rewrite Sa, Sb.
      pose proof (Rle_0_sqr (a1 * b2 - a2 * b1)) as Hd. unfold Rsqr in Hd.
      lra. }
    assert (H0 : 0 <= la * lb) by nra.
    nra. }
  assert (Hs : lab * lab <= (la + lb) * (la + lb)) by nra.
  nra.
Qed.

(** X15: [Ship.control] only turns the ship and changes its velocity.
    LEFT and RIGHT turn by [SHIP_TURN_SPEED * dt] and cancel each other; UP
    adds [SHIP_THRUST * dt] along the heading after the turn; then the
    velocity is multiplied by [SHIP_FRICTION].  Without UP the speed is the
    old speed times the friction, and with a friction between 0 and 1 a
    frame adds at most [SHIP_THRUST * dt] to the speed. *)
Theorem Ship_control_spec (C : Config) (keys : Keys) (dt : R) (s : Ship) :
  s_pos (Ship_control C keys dt s) = s_pos s /\
  s_cool (Ship_control C keys dt s) = s_cool s /\
  s_invuln (Ship_control C keys dt s) = s_invuln s /\
  s_alive (Ship_control C keys dt s) = s_alive s /\
  s_r (Ship_control C keys dt s) = s_r s /\
  s_rect (Ship_control C keys dt s) = s_rect s /\
  s_angle (Ship_control C keys dt s)
  = s_angle s - (if K_LEFT keys then SHIP_TURN_SPEED C * dt else 0)
    + (if K_RIGHT keys then SHIP_TURN_SPEED C * dt else 0) /\
  (K_LEFT keys = K_RIGHT keys ->
   s_angle (Ship_control C keys dt s) = s_angle s) /\
  s_vel (Ship_control C keys dt s)
  = vscale
      (if K_UP keys
       then vadd (s_vel s)
              (vscale
                 (vscale (angle_to_vec (s_angle (Ship_control C keys dt s)))
                    (SHIP_THRUST C)) dt)
       else s_vel s)
      (SHIP_FRICTION C) /\
  (K_UP keys = false ->
   vlength (s_vel (Ship_control C keys dt s))
   = vlength (s_vel s) * Rabs (SHIP_FRICTION C)) /\
  (0 <= SHIP_FRICTION C <= 1 -> 0 <= SHIP_THRUST C -> 0 <= dt ->
   vlength (s_vel (Ship_control C keys dt s))
   <= vlength (s_vel s) + SHIP_THRUST C * dt).
Proof.
  unfold Ship_control. cbv zeta. simpl.
  repeat (split; [reflexivity | ]).
  split; [destruct (K_LEFT keys), (K_RIGHT keys); ring | ].
  split; [intro H; rewrite H; destruct (K_RIGHT keys); ring | ].
  split; [reflexivity | ].
  split.
  - intro H. rewrite H. apply vlength_scale.
  - intros Hf Ht Hdt. rewrite vlength_scale, (Rabs_right (SHIP_FRICTION C))
      by lra.
    pose proof (vlength_nonneg (s_vel s)) as Hv.
    set (a := if K_RIGHT keys then _ else _).
    set (v := if K_UP keys then _ else _).
    assert (Hb : vlength v <= vlength (s_vel s) + SHIP_THRUST C * dt).
    { unfold v. destruct (K_UP keys); [ | nra].
      eapply Rle_trans; [apply vlength_triangle | ].
      rewrite !vlength_scale, vlength_angle, !Rabs_right by lra. lra. }
    pose proof (vlength_nonneg v) as H0. nra.
Qed.

Lemma Ship_control_spec_witness :
  vlength (s_vel (Ship_control example_config no_keys (1 / 8) (ship_at_rest 0)))
  = vlength (s_vel (ship_at_rest 0)) * Rabs (SHIP_FRICTION example_config).
Proof.
  apply (Ship_control_spec example_config no_keys (1 / 8) (ship_at_rest 0)).
  reflexivity.
Defined.

(** ** The outline of an asteroid *)

Lemma poly_points_facts Src r steps range st :
  length (fst (poly_points Src r steps range st)) = length range /\
  (rnd_unit Src -> 0 <= r ->
   Forall (fun p => 0.75 * r <= vlength p <= 1.2 * r)
          (fst (poly_points Src r steps range st))).
Proof.
  revert st. induction range as [|i rest IH]; intro st; simpl.
  - split; [reflexivity | constructor].
  - destruct (IH (set_rnd_i (S (rnd_i st)) st)) as [A1 A2].
    destruct (poly_points Src r steps rest _) as [pts st2]. simpl in *.
    split; [now rewrite A1 | ].
    intros Hr H0. constructor; [ | apply A2; assumption].
    rewrite vlength_scale.
    change (cos (radians (INR i * (360 / INR steps))),
            sin (radians (INR i * (360 / INR steps))))
      with (angle_to_vec (INR i * (360 / INR steps))).
    rewrite vlength_angle, Rmult_1_l.
    pose proof (Hr (rnd_i st)). rewrite Rabs_right; nra.
Qed.

(** X16: the outline [Asteroid._make_poly] draws has 12 points for a large
    asteroid, 10 for a medium and 8 for a small one, and uses one random
    number for each.  With random numbers between 0 and 1 every point lies
    between 0.75 and 1.2 radii from the center of the asteroid, while the
    collisions of the world test the radius itself. *)
Theorem make_poly_spec (Src : Oracle) (size : Size) (r : R) (st : State) :
  length (fst (make_poly Src size r st))
  = match size with Large => 12 | Medium => 10 | Small => 8 end%nat /\
  snd (make_poly Src size r st)
  = set_rnd_i (length (fst (make_poly Src size r st)) + rnd_i st) st /\
  (rnd_unit Src -> 0 <= r ->
   Forall (fun p => 0.75 * r <= vlength p <= 1.2 * r)
          (fst (make_poly Src size r st))).
Proof.
  unfold make_poly.
  destruct (poly_points_facts Src r (poly_steps size)
              (seq 0 (poly_steps size)) st) as [A1 A2].
  rewrite A1, length_seq.
  split; [destruct size; reflexivity | ].
  split; [ | exact A2].
  rewrite poly_points_snd, length_seq. reflexivity.
Qed.

Lemma make_poly_spec_witness :
  Forall (fun p => 0.75 * 46 <= vlength p <= 1.2 * 46) (example_poly Large).
Proof.
  apply (make_poly_spec example_oracle Large 46 st_wave_due).
  - exact example_rnd_unit.
  - lra.
Defined.

(** ** The shots of the UFOs *)

Lemma UFO_fire_cases C Src target u st :
  (Rltb 0 (u_shoot_timer u) = true /\
   UFO_fire C Src target u st = (None, u, st)) \/
  (Rltb 0 (u_shoot_timer u) = false /\
   exists b u1 st1,
     UFO_fire C Src target u st = (Some b, u1, st1) /\
     objs st1 = objs st /\ enemy_bullets st1 = enemy_bullets st /\
     all_sprites st1 = all_sprites st /\
     u_shoot_timer u1 = u_shoot_delay u /\ unplaced_bullet C b).
Proof.
  unfold UFO_fire. destruct (Rltb 0 (u_shoot_timer u)); [left; auto | right].
  split; [reflexivity | ].
  destruct (u_small u), target as [t|]; simpl;
    eexists; eexists; eexists; (split; [reflexivity | ]);
    repeat split; reflexivity.
Qed.

Lemma ufos_fire_step C Src target i u st :
  get_obj i st = Some (OUfo u) ->
  exists u1 st3,
    (forall rest,
       ufos_fire C Src target (i :: rest) st
       = ufos_fire C Src target rest st3) /\
    get_obj i st3 = Some (OUfo u1) /\
    u_shoot_timer u1
    = (if Rltb 0 (u_shoot_timer u) then u_shoot_timer u
       else u_shoot_delay u) /\
    (forall j, j <> i -> (j < length (objs st))%nat ->
               get_obj j st3 = get_obj j st) /\
    ((ufo_ready st i = false /\ objs st3 = list_put i (OUfo u1) (objs st) /\
      enemy_bullets st3 = enemy_bullets st /\
      all_sprites st3 = all_sprites st) \/
     (ufo_ready st i = true /\
      exists b,
        objs st3 = list_put i (OUfo u1) (objs st) ++ [OBullet b] /\
        enemy_bullets st3 = enemy_bullets st ++ [length (objs st)] /\
        all_sprites st3 = all_sprites st ++ [RObj (length (objs st))] /\
        unplaced_bullet C b)).
Proof.
  intro E.
  assert (Hi : (i < length (objs st))%nat)
    by (apply nth_error_Some; unfold get_obj in E; congruence).
  destruct (UFO_fire_cases C Src target u st)
    as [[Ht Ef] | (Ht & b & u1 & st1 & Ef & F1 & F2 & F3 & F4 & F5)].
  - exists u, (put_obj i (OUfo u) st).
    split; [intro rest; simpl; rewrite E, Ef; reflexivity | ].
    split; [eapply get_obj_put_same; exact E | ].
    split; [now rewrite Ht | ].
    split.
    + intros j Hj _. rewrite get_obj_put_obj.
      destruct (Nat.eqb_spec j i); [contradiction | reflexivity].
    + left. unfold ufo_ready. rewrite E, Ht. repeat split; reflexivity.
  - exists u1.
    exists (set_all_sprites
              (all_sprites (put_obj i (OUfo u1) st1)
               ++ [RObj (length (objs (put_obj i (OUfo u1) st1)))])
              (set_enemy_bullets
                 (enemy_bullets (put_obj i (OUfo u1) st1)
                  ++ [length (objs (put_obj i (OUfo u1) st1))])
                 (set_objs (objs (put_obj i (OUfo u1) st1) ++ [OBullet b])
                    (put_obj i (OUfo u1) st1)))).
    assert (Hlen : length (objs (put_obj i (OUfo u1) st1)) = length (objs st))
      by (simpl; rewrite length_list_put, F1; reflexivity).
    split; [intro rest; simpl; rewrite E, Ef; reflexivity | ].
    split.
    { unfold get_obj. simpl. rewrite nth_error_app1
        by (rewrite length_list_put, F1; exact Hi).
      rewrite nth_error_list_put, Nat.eqb_refl, F1.
      unfold get_obj in E. now rewrite E. }
    split; [now rewrite Ht | ].
    split.
    { intros j Hj Hlt. unfold get_obj. simpl.
      rewrite nth_error_app1 by (rewrite length_list_put, F1; exact Hlt).
      rewrite nth_error_list_put, F1.
      destruct (Nat.eqb_spec j i); [contradiction | reflexivity]. }
    right. split; [unfold ufo_ready; rewrite E, Ht; reflexivity | ].
    exists b. simpl. rewrite length_list_put, F1, F2, F3.
    repeat split; try reflexivity; apply F5.
Qed.

Lemma ufos_fire_skip C Src target i rest st :
  (forall u, get_obj i st <> Some (OUfo u)) ->
  ufos_fire C Src target (i :: rest) st = ufos_fire C Src target rest st /\
  ufo_ready st i = false.
Proof.
  intro H. unfold ufo_ready. simpl.
  destruct (get_obj i st) as [[b|a|u]|]; try (split; reflexivity).
  exfalso. now apply (H u).
Qed.

Lemma ufos_fire_keeps C Src target snap st j o :
  get_obj j st = Some o -> ~ In j snap \/ class_of o <> KUfo ->
  get_obj j (ufos_fire C Src target snap st) = Some o.
Proof.
  revert st. induction snap as [|i rest IH]; intros st E H; [exact E | ].
  assert (Hj : (j < length (objs st))%nat)
    by (apply nth_error_Some; unfold get_obj in E; congruence).
  destruct (get_obj i st) as [[b|a|u]|] eqn:Ei.
  4:{ destruct (ufos_fire_skip C Src target i rest st) as [-> _];
        [intro u; rewrite Ei; discriminate | ].
      apply IH; [exact E | ]. destruct H as [H | H]; [left | now right].
      intro X. apply H. now right. }
  1-2: (destruct (ufos_fire_skip C Src target i rest st) as [-> _];
        [intro u; rewrite Ei; discriminate | ];
        apply IH; [exact E | ]; destruct H as [H | H]; [left | now right];
        intro X; apply H; now right).
  destruct (ufos_fire_step C Src target i u st Ei)
    as (u1 & st3 & Hs & _ & _ & Hk & _).
  rewrite Hs.
  assert (Hne : j <> i).
  { intros ->. rewrite Ei in E. injection E as <-.
    destruct H as [H | H]; [apply H; now left | now apply H]. }
  apply IH.
  - rewrite (Hk j Hne Hj). exact E.
  - destruct H as [H | H]; [left | now right]. intro X. apply H. now right.
Qed.

Lemma ufos_fire_facts C Src target snap st :
  NoDup snap ->
  exists l,
    enemy_bullets (ufos_fire C Src target snap st) = enemy_bullets st ++ l /\
    all_sprites (ufos_fire C Src target snap st)
    = all_sprites st ++ map RObj l /\
    length l = length (filter (ufo_ready st) snap) /\
    (length (objs st) <= length (objs (ufos_fire C Src target snap st)))%nat /\
    Forall (fun ib =>
              (length (objs st) <= ib)%nat /\
              exists b, get_obj ib (ufos_fire C Src target snap st)
                        = Some (OBullet b) /\ unplaced_bullet C b) l /\
    (forall i u, In i snap -> get_obj i st = Some (OUfo u) ->
       exists u', get_obj i (ufos_fire C Src target snap st) = Some (OUfo u') /\
                  u_shoot_timer u'
                  = (if Rltb 0 (u_shoot_timer u) then u_shoot_timer u
                     else u_shoot_delay u)).
Proof.
  intro Hnd. revert st. induction Hnd as [|i rest Hi Hnd IH]; intro st.
  - exists []. simpl. rewrite !app_nil_r.
    repeat split; try reflexivity; try constructor. intros i u [].
  - destruct (get_obj i st) as [[b|a|u]|] eqn:Ei.
    4:{ destruct (ufos_fire_skip C Src target i rest st) as [-> Hr];
          [intro u; rewrite Ei; discriminate | ].
        destruct (IH st) as (l & A1 & A2 & A3 & A4 & A5 & A6).
        exists l. simpl filter. rewrite Hr.
        repeat split; try assumption.
        intros i' u [<- | Hin] E; [congruence | now apply A6]. }
    1-2: (destruct (ufos_fire_skip C Src target i rest st) as [-> Hr];
          [intro u; rewrite Ei; discriminate | ];
          destruct (IH st) as (l & A1 & A2 & A3 & A4 & A5 & A6);
          exists l; simpl filter; rewrite Hr;
          repeat split; try assumption;
          intros i' u [<- | Hin] E; [congruence | now apply A6]).
    assert (Hlt : (i < length (objs st))%nat)
      by (apply nth_error_Some; unfold get_obj in Ei; congruence).
    destruct (ufos_fire_step C Src target i u st Ei)
      as (u1 & st3 & Hs & E3 & Ht & Hk & Hcase).
    rewrite Hs.
    destruct (IH st3) as (l & A1 & A2 & A3 & A4 & A5 & A6).
    assert (Hready : filter (ufo_ready st3) rest = filter (ufo_ready st) rest).
    { apply filter_ext_in. intros j Hj.
      assert (Hne : j <> i) by (intros ->; contradiction).
      unfold ufo_ready.
      destruct (Nat.lt_ge_cases j (length (objs st))) as [Hl | Hl].
      - now rewrite (Hk j Hne Hl).
      - assert (En : get_obj j st = None)
          by (apply nth_error_None; exact Hl).
        rewrite En.
        destruct Hcase as [(_ & Ho & _) | (_ & b & Ho & _)];
          unfold get_obj; rewrite Ho.
        + replace (nth_error _ j) with (@None Obj); [reflexivity | ].
          symmetry. apply nth_error_None. now rewrite length_list_put.
        + destruct (Nat.eq_dec j (length (objs st))) as [-> | Hd].
          * rewrite <- (length_list_put i (OUfo u1) (objs st)) at 1.
            now rewrite nth_error_snoc.
          * replace (nth_error _ j) with (@None Obj); [reflexivity | ].
            symmetry. apply nth_error_None.
            rewrite length_app, length_list_put. simpl. lia. }
    assert (Hi3 : get_obj i (ufos_fire C Src target rest st3)
                  = Some (OUfo u1))
      by (apply ufos_fire_keeps; [exact E3 | now left]).
    assert (Hold : forall i' u', In i' rest ->
                     get_obj i' st = Some (OUfo u') ->
                     exists u'', get_obj i' (ufos_fire C Src target rest st3)
                                 = Some (OUfo u'') /\
                                 u_shoot_timer u''
                                 = (if Rltb 0 (u_shoot_timer u')
                                    then u_shoot_timer u'
                                    else u_shoot_delay u')).
    { intros i' u' Hin E'. apply A6; [exact Hin | ].
      assert (Hne : i' <> i) by (intros ->; contradiction).
      rewrite Hk; [exact E' | exact Hne | ].
      apply nth_error_Some. unfold get_obj in E'. congruence. }
    assert (Hall : forall i' u', In i' (i :: rest) ->
                     get_obj i' st = Some (OUfo u') ->
                     exists u'', get_obj i' (ufos_fire C Src target rest st3)
                                 = Some (OUfo u'') /\
                                 u_shoot_timer u''
                                 = (if Rltb 0 (u_shoot_timer u')
                                    then u_shoot_timer u'
                                    else u_shoot_delay u')).
    { intros i' u' [<- | Hin] E'; [ | now apply Hold].
      rewrite Ei in E'. injection E' as <-. exists u1. now split. }
    simpl filter. rewrite Hready in A3.
    destruct Hcase as [(Hr & Ho & He & Hsp) | (Hr & b & Ho & He & Hsp & Hb)];
      rewrite Hr.
    + assert (Hlen : length (objs st3) = length (objs st))
        by (rewrite Ho; apply length_list_put).
      exists l. rewrite A1, A2, He, Hsp.
      repeat split; try reflexivity; try assumption.
      * lia.
      * rewrite Hlen in A5. exact A5.
    + assert (Hlen : length (objs st3) = S (length (objs st)))
        by (rewrite Ho, length_app, length_list_put; simpl; lia).
      exists (length (objs st) :: l). rewrite A1, A2, He, Hsp.
      rewrite <- !app_assoc. simpl.
      repeat split; try reflexivity; try assumption.
      * now rewrite A3.
      * lia.
      * constructor.
        -- split; [lia | ]. exists b. split; [ | exact Hb].
           apply ufos_fire_keeps; [ | right; discriminate].
           unfold get_obj. rewrite Ho.
           rewrite <- (length_list_put i (OUfo u1) (objs st)) at 1.
           apply nth_error_snoc.
        -- eapply Forall_impl; [ | exact A5].
           intros ib [Hb1 Hb2]. split; [lia | exact Hb2].
Qed.

(** X17: the loop of [update] over the UFOs.  Every UFO of the snapshot
    whose shoot timer is not positive fires once, and its timer is set to
    its shoot delay; the others keep their timers.  The bullets are new
    sprites at the end of [enemy_bullets] and of [all_sprites], one for each
    UFO that was ready.  Each is as its constructor leaves it: when the loop
    ends its rect is still at the origin, wherever the bullet is.  The other
    groups, the score, the lives and the ship are not touched. *)
Theorem ufos_fire_spec (C : Config) (Src : Oracle) (target : option Vec)
  (snap : list nat) (st : State) :
  NoDup snap ->
  exists l,
    enemy_bullets (ufos_fire C Src target snap st) = enemy_bullets st ++ l /\
    all_sprites (ufos_fire C Src target snap st)
    = all_sprites st ++ map RObj l /\
    length l = length (filter (ufo_ready st) snap) /\
    Forall (fun ib =>
              (length (objs st) <= ib)%nat /\
              exists b, get_obj ib (ufos_fire C Src target snap st)
                        = Some (OBullet b) /\ unplaced_bullet C b) l /\
    (forall i u, In i snap -> get_obj i st = Some (OUfo u) ->
       exists u', get_obj i (ufos_fire C Src target snap st) = Some (OUfo u') /\
                  u_shoot_timer u'
                  = (if Rltb 0 (u_shoot_timer u) then u_shoot_timer u
                     else u_shoot_delay u)) /\
    bullets (ufos_fire C Src target snap st) = bullets st /\
    asteroids (ufos_fire C Src target snap st) = asteroids st /\
    ufos (ufos_fire C Src target snap st) = ufos st /\
    score (ufos_fire C Src target snap st) = score st /\
    core (ufos_fire C Src target snap st) = core st.
Proof.
  intro Hnd.
  destruct (ufos_fire_facts C Src target snap st Hnd)
    as (l & A1 & A2 & A3 & _ & A5 & A6).
  destruct (ufos_fire_frame C Src target snap st) as (B1 & B2 & B3 & B4).
  exists l.
  refine (conj A1 (conj A2 (conj A3 (conj A5 (conj A6
            (conj B1 (conj B2 (conj B3 (conj B4 _))))))))).
  eapply evolves_core, ufos_fire_evolves.
Qed.

Lemma ufos_fire_spec_witness :
  exists l,
    enemy_bullets (ufos_fire example_config example_oracle None [1%nat]
                     st_overlap)
    = enemy_bullets st_overlap ++ l.
Proof.
  destruct (ufos_fire_spec example_config example_oracle None [1%nat]
              st_overlap) as (l & H & _).
  - constructor; [intros [] | constructor].
  - exists l. exact H.
Defined.

(** ** The arena *)

Lemma fmod_range x m : 0 < m -> 0 <= fmod x m < m.
Proof.
  intro Hm. unfold fmod.
  destruct (base_Int_part (x / m)) as [H1 H2].
  set (q := IZR (Int_part (x / m))) in *.
  assert (Hx : x = m * (x / m)) by (field; lra).
  assert (Hq1 : m * q <= m * (x / m)) by (apply Rmult_le_compat_l; lra).
  assert (Hq2 : m * (x / m) < m * (q + 1))
    by (apply Rmult_lt_compat_l; lra).
  lra.
Qed.

Lemma wrap_pos_in_arena C p :
  0 < WIDTH C -> 0 < HEIGHT C -> in_arena C (wrap_pos C p).
Proof.
  intros Hw Hh. unfold in_arena, wrap_pos. simpl.
  split; apply fmod_range; assumption.
Qed.

Lemma sprite_update_obj_arena C dt i st o :
  0 < WIDTH C -> 0 < HEIGHT C ->
  get_obj i st = Some o ->
  exists o', get_obj i (sprite_update C dt (RObj i) st) = Some o' /\
             class_of o' = class_of o /\ in_arena C (obj_pos o').
Proof.
  intros Hw Hh E. unfold sprite_update. rewrite E.
  destruct o as [b|a|u].
  - exists (OBullet (Bullet_set_rect (Bullet_move C dt b))).
    split; [ | split; [reflexivity | apply wrap_pos_in_arena; assumption]].
    unfold Bullet_update. cbv zeta.
    assert (H1 : get_obj i (put_obj i (OBullet (Bullet_move C dt b)) st)
                 = Some (OBullet (Bullet_move C dt b)))
      by (eapply get_obj_put_same; exact E).
    destruct (Rleb _ 0); eapply get_obj_put_same.
    + rewrite get_obj_kill. exact H1.
    + exact H1.
  - exists (OAsteroid (Asteroid_update C dt a)).
    split; [eapply get_obj_put_same; exact E | ].
    split; [reflexivity | apply wrap_pos_in_arena; assumption].
  - exists (OUfo (UFO_update C dt u)).
    split; [eapply get_obj_put_same; exact E | ].
    split; [reflexivity | apply wrap_pos_in_arena; assumption].
Qed.

Lemma sprite_update_other C dt r j st :
  r <> RObj j -> get_obj j (sprite_update C dt r st) = get_obj j st.
Proof.
  intro Hr. destruct r as [|i]; [reflexivity | ].
  assert (Hne : j <> i) by congruence.
  assert (Hp : forall o s, get_obj j (put_obj i o s) = get_obj j s).
  { intros o s. rewrite get_obj_put_obj.
    destruct (Nat.eqb_spec j i); [contradiction | reflexivity]. }
  unfold sprite_update.
  destruct (get_obj i st) as [[b|a|u]|]; try apply Hp; [ | reflexivity].
  unfold Bullet_update. cbv zeta. rewrite Hp.
  destruct (Rleb _ 0); [rewrite get_obj_kill | ]; apply Hp.
Qed.

Lemma sprite_update_ship C dt i st :
  ship (sprite_update C dt (RObj i) st) = ship st.
Proof.
  pose proof (evolves_core _ _ _ (sprite_update_evolves C dt i st)) as Hc.
  unfold core in Hc. now injection Hc.
Qed.

Lemma sprites_fold_arena C dt l st :
  0 < WIDTH C -> 0 < HEIGHT C ->
  (In RShip l \/ in_arena C (s_pos (ship st)) ->
   in_arena C
     (s_pos (ship (fold_left (fun s r => sprite_update C dt r s) l st)))) /\
  (forall j o,
     get_obj j st = Some o ->
     In (RObj j) l \/ in_arena C (obj_pos o) ->
     exists o',
       get_obj j (fold_left (fun s r => sprite_update C dt r s) l st)
       = Some o' /\
       class_of o' = class_of o /\ in_arena C (obj_pos o')).
Proof.
  intros Hw Hh. revert st. induction l as [|r l IH]; intro st.
  - simpl. split.
    + intros [[] | H]; exact H.
    + intros j o E [[] | H]. exists o. auto.
  - change (fold_left (fun s r => sprite_update C dt r s) (r :: l) st)
      with (fold_left (fun s r => sprite_update C dt r s) l
              (sprite_update C dt r st)).
    destruct (IH (sprite_update C dt r st)) as [IH1 IH2].
    split.
    + intro H. apply IH1. destruct r as [|i].
      * right. apply wrap_pos_in_arena; assumption.
      * rewrite sprite_update_ship.
        destruct H as [[X | X] | X]; [discriminate | now left | now right].
    + intros j o E H.
      destruct r as [|i].
      * apply IH2; [exact E | ].
        destruct H as [[X | X] | X]; [discriminate | now left | now right].
      * destruct (Nat.eq_dec i j) as [-> | Hne].
        -- destruct (sprite_update_obj_arena C dt j st o Hw Hh E)
             as (o1 & E1 & C1 & A1).
           destruct (IH2 j o1 E1 (or_intror A1)) as (o' & E' & C' & A').
           exists o'. split; [exact E' | ]. split; [congruence | exact A'].
        -- apply IH2.
           ++ rewrite sprite_update_other by congruence. exact E.
           ++ destruct H as [[X | X] | X];
                [congruence | now left | now right].
Qed.

(** X18: [all_sprites.update(dt)] brings every sprite into the arena.  With
    [wrap_pos] the true modulo of the spec and a positive width and height,
    after the call the ship, when it is in [all_sprites], and every stored
    sprite of [all_sprites] have [0 <= x < WIDTH] and [0 <= y < HEIGHT],
    whatever their positions, their velocities and [dt] were; a sprite stays
    of its class, and a bullet that runs out of time in the call is moved
    like the others. *)
Theorem sprites_update_in_arena (C : Config) (dt : R) (st : State) :
  0 < WIDTH C -> 0 < HEIGHT C ->
  (In RShip (all_sprites st) ->
   in_arena C (s_pos (ship (sprites_update C dt st)))) /\
  (forall i o,
     In (RObj i) (all_sprites st) -> get_obj i st = Some o ->
     exists o', get_obj i (sprites_update C dt st) = Some o' /\
                class_of o' = class_of o /\ in_arena C (obj_pos o')).
Proof.
  intros Hw Hh. unfold sprites_update.
  destruct (sprites_fold_arena C dt (all_sprites st) st Hw Hh) as [H1 H2].
  split.
  - intro H. apply H1. now left.
  - intros i o Hin E. apply (H2 i o E). now left.
Qed.

Lemma sprites_update_in_arena_witness :
  in_arena example_config
    (s_pos (ship (sprites_update example_config (1 / 8) st_overlap))).
Proof.
  apply (sprites_update_in_arena example_config (1 / 8) st_overlap).
  - simpl. lra.
  - simpl. lra.
  - simpl. now left.
Defined.

(** ** The collisions that kill the ship *)

(** X19: a loop of the second collision pass calls [ship_die] once, on
    the world as it is, when some sprite of the group is nearer to the ship
    than the sum of the two radii, however many are; the [break] ends the
    loop.  When none is, the loop changes nothing. *)
Theorem ship_vs_sprites_spec (C : Config) (Src : Oracle) (fuel : nat)
  (snap : list nat) (st : State) :
  ship_vs_sprites C Src fuel snap st
  = (if existsb (touched st) snap then ship_die C Src fuel st else Some st) /\
  (forall i o,
     get_obj i st = Some o ->
     (touched st i = true <->
      vlength (vsub (obj_pos o) (s_pos (ship st))) < obj_r o + s_r (ship st))).
Proof.
  split.
  - induction snap as [|i rest IH]; simpl; [reflexivity | ].
    unfold touched at 1.
    destruct (get_obj i st) as [o|]; [ | exact IH].
    destruct (touches (ship st) o); [reflexivity | exact IH].
  - intros i o E. unfold touched, touches. rewrite E. apply Rltb_spec.
Qed.

Lemma ship_vs_sprites_spec_witness :
  touched st_overlap 0 = true.
Proof.
  apply (proj2 (ship_vs_sprites_spec example_config example_oracle 0 []
                  st_overlap) 0%nat _ eq_refl).
  unfold vlength, vsub. simpl.
  replace ((475 - 480) * (475 - 480) + (360 - 360) * (360 - 360))
    with (5 * 5) by ring.
  rewrite sqrt_square by lra. lra.
Defined.

Lemma spritecollide_kill_members f snap st :
  (forall g j,
     In j (members g (snd (spritecollide_kill f snap st))) <->
     In j (members g st) /\ ~ In j (fst (spritecollide_kill f snap st))) /\
  (forall r,
     In r (all_sprites (snd (spritecollide_kill f snap st))) <->
     In r (all_sprites st) /\
     forall j, In j (fst (spritecollide_kill f snap st)) -> r <> RObj j).
Proof.
  revert st. induction snap as [|i rest IH]; intro st; simpl.
  - split; [intros g j | intros r]; tauto.
  - destruct (get_obj i st) as [o|] eqn:E; [ | apply IH].
    destruct (f o); [ | apply IH].
    specialize (IH (kill i st)).
    destruct (spritecollide_kill f rest (kill i st)) as [cr st1].
    simpl in *. destruct IH as [I1 I2].
    assert (Hm : forall g, members g (kill i st) = remove_id i (members g st)).
    { intro g. unfold kill. rewrite E.
      destruct o as [b|a|u]; [destruct g; reflexivity ..| ].
      unfold UFO_kill. destruct g, (u_channel u); reflexivity. }
    assert (Ha : all_sprites (kill i st) = remove_ref i (all_sprites st)).
    { unfold kill. rewrite E.
      destruct o as [b|a|u]; try reflexivity.
      unfold UFO_kill. destruct (u_channel u); reflexivity. }
    split.
    + intros g j. rewrite I1, Hm, In_remove_id. intuition.
    + intros r. rewrite I2, Ha, In_remove_ref. split.
      * intros [[H1 H2] H3]. split; [exact H1 | ].
        intros j [<- | Hj]; [exact H2 | now apply H3].
      * intros [H1 H2]. split; [split; [exact H1 | ] | ].
        -- apply H2. now left.
        -- intros j Hj. apply H2. now right.
Qed.

Lemma spritecollide_kill_none f snap st :
  fst (spritecollide_kill f snap st) = [] ->
  snd (spritecollide_kill f snap st) = st.
Proof.
  revert st. induction snap as [|i rest IH]; intro st; simpl; [reflexivity | ].
  destruct (get_obj i st) as [o|]; [ | apply IH].
  destruct (f o); [ | apply IH].
  destruct (spritecollide_kill f rest (kill i st)). discriminate.
Qed.

(** X20: the ship against the enemy bullets.  The test is pygame's
    [collide_circle] on the rects of the two sprites.  Every enemy bullet
    whose circle meets the circle of the ship leaves [enemy_bullets] and
    [all_sprites]; the others stay, and so does every other sprite.  When
    there is such a bullet [ship_die] is called once, after the bullets
    were removed; when there is none the world stays as it is. *)
Theorem ship_vs_enemy_bullets_spec (C : Config) (Src : Oracle) (fuel : nat)
  (st : State) :
  (filter (circles_meet st) (enemy_bullets st) = [] ->
   ship_vs_enemy_bullets C Src fuel st = Some st) /\
  (filter (circles_meet st) (enemy_bullets st) <> [] ->
   exists st1,
     ship_vs_enemy_bullets C Src fuel st = ship_die C Src fuel st1 /\
     (forall g j,
        In j (members g st1) <->
        In j (members g st) /\
        ~ In j (filter (circles_meet st) (enemy_bullets st))) /\
     (forall r,
        In r (all_sprites st1) <->
        In r (all_sprites st) /\
        forall j, In j (filter (circles_meet st) (enemy_bullets st)) ->
                  r <> RObj j) /\
     core st1 = core st /\ score st1 = score st /\ objs st1 = objs st).
Proof.
  unfold ship_vs_enemy_bullets.
  pose proof (spritecollide_kill_spec
                (fun o => collide_circle (s_rect (ship st)) (obj_rect o))
                (enemy_bullets st) st) as (Hf & _).
  pose proof (spritecollide_kill_members
                (fun o => collide_circle (s_rect (ship st)) (obj_rect o))
                (enemy_bullets st) st) as (Hm & Ha).
  pose proof (spritecollide_kill_none
                (fun o => collide_circle (s_rect (ship st)) (obj_rect o))
                (enemy_bullets st) st) as Hn.
  pose proof (spritecollide_kill_frame
                (fun o => collide_circle (s_rect (ship st)) (obj_rect o))
                (enemy_bullets st) st) as (Hc & Hs & Ho).
  destruct (spritecollide_kill _ (enemy_bullets st) st) as [hits st1].
  simpl in *.
  change (filter _ (enemy_bullets st))
    with (filter (circles_meet st) (enemy_bullets st)) in Hf.
  rewrite <- Hf. split.
  - intros ->. now rewrite Hn.
  - intro Hne. exists st1. destruct hits as [|h hits]; [contradiction | ].
    exact (conj eq_refl (conj Hm (conj Ha (conj Hc (conj Hs Ho))))).
Qed.

Lemma ship_vs_enemy_bullets_spec_witness :
  ship_vs_enemy_bullets example_config example_oracle 0 st_overlap
  = Some st_overlap.
Proof.
  apply (ship_vs_enemy_bullets_spec example_config example_oracle 0
           st_overlap).
  reflexivity.
Defined.

(** ** UFOs against asteroids *)

Lemma sumZ_app l1 l2 : sumZ (l1 ++ l2) = (sumZ l1 + sumZ l2)%Z.
Proof.
  induction l1 as [|x l1 IH]; [reflexivity | ].
  change ((x :: l1) ++ l2) with (x :: (l1 ++ l2)).
  rewrite !sumZ_cons, IH. lia.
Qed.

Lemma sumZ_concat {A} (f : A -> Z) (ls : list (list A)) :
  sumZ (map f (concat ls)) = sumZ (map (fun l => sumZ (map f l)) ls).
Proof.
  induction ls as [|l ls IH]; [reflexivity | ].
  change (concat (l :: ls)) with (l ++ concat ls).
  change (map (fun l => sumZ (map f l)) (l :: ls))
    with (sumZ (map f l) :: map (fun l => sumZ (map f l)) ls).
  rewrite map_app, sumZ_app, sumZ_cons, IH. reflexivity.
Qed.

Lemma keep_stable f st st' :
  asteroids st' = asteroids st -> objs st' = objs st ->
  spritecollide_keep f (asteroids st') st'
  = spritecollide_keep f (asteroids st) st.
Proof.
  intros Ha Ho. unfold spritecollide_keep, get_obj. now rewrite Ha, Ho.
Qed.

Lemma crashed_by_stable st st' iu :
  asteroids st' = asteroids st -> objs st' = objs st ->
  crashed_by st' iu = crashed_by st iu.
Proof.
  intros Ha Ho. unfold crashed_by.
  replace (get_obj iu st') with (get_obj iu st)
    by (unfold get_obj; now rewrite Ho).
  destruct (get_obj iu st); [ | reflexivity]. now apply keep_stable.
Qed.

Lemma groupcollide_crashes snap st :
  (forall iu, In iu snap -> ~ In iu (asteroids st)) ->
  asteroids (snd (groupcollide crashes_into asteroids true false snap st))
  = asteroids st /\
  objs (snd (groupcollide crashes_into asteroids true false snap st))
  = objs st /\
  score (snd (groupcollide crashes_into asteroids true false snap st))
  = score st /\
  concat (map snd (fst (groupcollide crashes_into asteroids true false
                          snap st)))
  = concat (map (crashed_by st) snap) /\
  (forall iu hits,
     In (iu, hits) (fst (groupcollide crashes_into asteroids true false
                           snap st)) ->
     forall ia, In ia hits -> get_obj ia st <> None).
Proof.
  revert st. induction snap as [|iu rest IH]; intros st Hd.
  - simpl. repeat split; try reflexivity. intros iu hits [].
  - simpl groupcollide. simpl map. simpl concat. unfold crashed_by at 1.
    assert (Hrest : forall i, In i rest -> ~ In i (asteroids st))
      by (intros i Hi; apply Hd; now right).
    destruct (get_obj iu st) as [ou|] eqn:E; [ | apply IH, Hrest].
    destruct (spritecollide_keep (crashes_into ou) (asteroids st) st)
      as [|c cs] eqn:Ek.
    + apply IH, Hrest.
    + assert (Ha : asteroids (kill iu st) = asteroids st).
      { destruct (kill_groups iu ou st E) as (_ & K2 & _). rewrite K2.
        apply remove_id_notin, Hd. now left. }
      assert (Ho : objs (kill iu st) = objs st) by apply kill_objs.
      assert (Hrest' : forall i, In i rest -> ~ In i (asteroids (kill iu st)))
        by (intros i Hi; rewrite Ha; now apply Hrest).
      destruct (IH (kill iu st) Hrest') as (A1 & A2 & A3 & A4 & A5).
      destruct (groupcollide crashes_into asteroids true false rest
                  (kill iu st)) as [crashed st3].
      simpl in *.
      rewrite A1, A2, A3, A4, Ha, Ho, kill_score.
      repeat split; try reflexivity.
      * replace (map (crashed_by (kill iu st)) rest)
          with (map (crashed_by st) rest); [reflexivity | ].
        apply map_ext. intro i. symmetry.
        apply crashed_by_stable; assumption.
      * intros iu' hits [X | X] ia Hia.
        -- injection X as <- <-. rewrite <- Ek in Hia.
           unfold spritecollide_keep in Hia. apply filter_In in Hia.
           destruct Hia as [_ Hia]. destruct (get_obj ia st); [ | discriminate].
           discriminate.
        -- specialize (A5 iu' hits X ia Hia).
           unfold get_obj in *. now rewrite Ho in A5.
Qed.

Lemma ast_score_at_app C st st' ext i :
  objs st' = objs st ++ ext -> get_obj i st <> None ->
  ast_score_at C st' i = ast_score_at C st i.
Proof.
  intros Ho H. unfold ast_score_at.
  destruct (get_obj i st) as [o|] eqn:E; [ | contradiction].
  now rewrite (get_obj_app i st st' ext o Ho E).
Qed.

Lemma crash_loop_score_sum C Src crashes st :
  (forall iu hits, In (iu, hits) crashes ->
     forall ia, In ia hits -> get_obj ia st <> None) ->
  score (crash_loop C Src crashes st)
  = (score st + sumZ (map (ast_score_at C st) (concat (map snd crashes))))%Z.
Proof.
  revert st. induction crashes as [|[iu hits] rest IH]; intros st H.
  - simpl. unfold sumZ. simpl. lia.
  - simpl crash_loop. simpl map. simpl concat.
    set (st1 := match get_obj iu st with
                | Some (OUfo ufo) =>
                    match u_channel ufo with
                    | Some ch => channel_stop ch st
                    | None => st
                    end
                | _ => st
                end).
    assert (H1 : objs st1 = objs st /\ score st1 = score st).
    { unfold st1. destruct (get_obj iu st) as [[b|a|u]|];
        try (split; reflexivity).
      destruct (u_channel u); split; reflexivity. }
    destruct H1 as [Ho1 Hs1].
    assert (Hg1 : forall i, get_obj i st1 = get_obj i st)
      by (intro i; unfold get_obj; now rewrite Ho1).
    assert (Hhits : forall i, In i hits -> get_obj i st1 <> None).
    { intros i Hi. rewrite Hg1. apply (H iu hits); [now left | exact Hi]. }
    destruct (split_all_spec C Src hits st1 Hhits)
      as (_ & [ext Hext] & _ & Hsc).
    rewrite Ho1 in Hext.
    rewrite IH.
    + rewrite Hsc, Hs1, map_app, sumZ_app.
      replace (map (ast_score_at C st1) hits)
        with (map (ast_score_at C st) hits)
        by (apply map_ext; intro i; unfold ast_score_at; now rewrite Hg1).
      replace (map (ast_score_at C (split_all C Src hits st1))
                 (concat (map snd rest)))
        with (map (ast_score_at C st) (concat (map snd rest))); [lia | ].
      apply map_ext_in. intros i Hi. symmetry.
      apply (ast_score_at_app C st _ ext); [exact Hext | ].
      apply in_concat in Hi. destruct Hi as (l & Hl & Hi).
      apply in_map_iff in Hl. destruct Hl as ([iu' hits'] & <- & Hl).
      apply (H iu' hits'); [now right | exact Hi].
    + intros iu' hits' Hin ia Hia.
      assert (Hx : get_obj ia st <> None)
        by (apply (H iu' hits'); [now right | exact Hia]).
      destruct (get_obj ia st) as [o|] eqn:E; [ | contradiction].
      rewrite (get_obj_app ia st _ ext o Hext E). discriminate.
Qed.

(** X21: the fourth collision pass scores by pairs.  In a world whose
    groups are in order, [groupcollide] reports for every UFO the asteroids
    it overlaps, without removing them, and the loop over its result calls
    [split_asteroid] for every asteroid of every UFO: the score grows by the
    score of an asteroid once for each UFO that overlaps it.  An asteroid
    under two UFOs is split twice in the frame. *)
Theorem ufos_vs_asteroids_scores_by_pairs (C : Config) (Src : Oracle)
  (st : State) :
  world_ok st ->
  score (ufos_vs_asteroids C Src st)
  = (score st
     + sumZ (map (fun iu => sumZ (map (ast_score_at C st) (crashed_by st iu)))
               (ufos st)))%Z /\
  (forall iu ia,
     In ia (crashed_by st iu) <->
     exists ou oa,
       get_obj iu st = Some ou /\ get_obj ia st = Some oa /\
       In ia (asteroids st) /\
       vlength (vsub (obj_pos ou) (obj_pos oa)) < obj_r ou + obj_r oa).
Proof.
  intro Hok. split.
  - unfold ufos_vs_asteroids.
    assert (Hd : forall iu, In iu (ufos st) -> ~ In iu (asteroids st)).
    { intros iu Hu Ha.
      destruct Hok as (_ & _ & _ & _ & _ & Hdis).
      specialize (Hdis GUfos GAsteroids iu Hu Ha). discriminate. }
    destruct (groupcollide_crashes (ufos st) st Hd)
      as (A1 & A2 & A3 & A4 & A5).
    destruct (groupcollide crashes_into asteroids true false (ufos st) st)
      as [crashes st1].
    simpl in *.
    rewrite crash_loop_score_sum.
    + rewrite A3, A4.
      replace (map (ast_score_at C st1)
                 (concat (map (crashed_by st) (ufos st))))
        with (map (ast_score_at C st)
                (concat (map (crashed_by st) (ufos st))));
        [rewrite sumZ_concat, map_map; reflexivity | ].
      apply map_ext_in. intros i Hi. symmetry.
      apply (ast_score_at_app C st st1 []); [now rewrite app_nil_r | ].
      apply in_concat in Hi. destruct Hi as (l & Hl & Hi).
      apply in_map_iff in Hl. destruct Hl as (iu & <- & Hl).
      unfold crashed_by in Hi. destruct (get_obj iu st); [ | destruct Hi].
      unfold spritecollide_keep in Hi. apply filter_In in Hi.
      destruct Hi as [_ Hi]. destruct (get_obj i st); discriminate.
    + intros iu hits Hin ia Hia. specialize (A5 iu hits Hin ia Hia).
      unfold get_obj in *. now rewrite A2.
  - intros iu ia. unfold crashed_by. split.
    + destruct (get_obj iu st) as [ou|]; [ | intros []].
      unfold spritecollide_keep. intro H. apply filter_In in H.
      destruct H as [Ha H].
      destruct (get_obj ia st) as [oa|]; [ | discriminate].
      exists ou, oa. repeat split; try assumption.
      apply Rltb_spec. exact H.
    + intros (ou & oa & -> & E & Ha & H).
      unfold spritecollide_keep. apply filter_In. split; [exact Ha | ].
      rewrite E. apply Rltb_spec. exact H.
Qed.

Lemma st_overlap_ok : world_ok st_overlap.
Proof.
  apply world_ok_members. simpl.
  refine (conj _ (conj _ (conj _ (conj _ (conj _ _))))).
  - now left.
  - repeat constructor; simpl; intuition discriminate.
  - intro i. split.
    + intros [X | [X | [X | []]]]; [discriminate | | ]; injection X as <-;
        [exists GAsteroids | exists GUfos]; now left.
    + intros [g H]. destruct g; simpl in H;
        repeat (destruct H as [<- | H]); try contradiction; auto.
  - intros g i H. destruct g; simpl in H;
      repeat (destruct H as [<- | H]); try contradiction; reflexivity.
  - intros []; repeat constructor; simpl; intuition discriminate.
  - intros g g' i H H'. destruct g, g'; simpl in H, H'; try reflexivity;
      repeat (destruct H as [<- | H]); try contradiction;
      repeat (destruct H' as [H' | H']); try contradiction; discriminate.
Qed.

Lemma st_overlap_crash : crashed_by st_overlap 1 = [0%nat].
Proof.
  assert (H : crashes_into (OUfo (example_ufo (470, 360) (1 / 2) 7))
                (OAsteroid (example_asteroid (475, 360) (40, 0) Large))
              = true).
  { unfold crashes_into. apply Rltb_true.
    unfold vlength, vsub. simpl.
    replace ((470 - 475) * (470 - 475) + (360 - 360) * (360 - 360))
      with (5 * 5) by ring.
    rewrite sqrt_square by lra. lra. }
  unfold crashed_by, spritecollide_keep.
  change (asteroids st_overlap) with [0%nat]. unfold filter.
  change (get_obj 1 st_overlap)
    with (Some (OUfo (example_ufo (470, 360) (1 / 2) 7))).
  change (get_obj 0 st_overlap)
    with (Some (OAsteroid (example_asteroid (475, 360) (40, 0) Large))).
  cbv iota. rewrite H. reflexivity.
Qed.

Lemma ufos_vs_asteroids_scores_by_pairs_witness :
  score (ufos_vs_asteroids example_config example_oracle st_overlap)
  = (1560 + 20)%Z.
Proof.
  destruct (ufos_vs_asteroids_scores_by_pairs example_config example_oracle
              st_overlap st_overlap_ok) as [H _].
  rewrite H. simpl ufos. simpl map. rewrite st_overlap_crash. reflexivity.
Defined.

(** ** The cap on the player bullets *)

Lemma length_remove_id i l : (length (remove_id i l) <= length l)%nat.
Proof.
  unfold remove_id. induction l as [|j l IH]; simpl; [lia | ].
  destruct (negb _); simpl; lia.
Qed.

Lemma step_bullets st st' :
  step_in not_bullets st st' ->
  (length (bullets st') <= length (bullets st))%nat.
Proof.
  intros [Hm _ _ _ | i Hm _ _ _ | i o o' _ _ Hm _ _ _ | g o Hg _ _ Hm _ _ _].
  - specialize (Hm GBullets). simpl in Hm. rewrite Hm. lia.
  - specialize (Hm GBullets). simpl in Hm. rewrite Hm.
    apply length_remove_id.
  - specialize (Hm GBullets). simpl in Hm. rewrite Hm. lia.
  - assert (Hne : GBullets <> g) by (intro X; apply Hg; now subst).
    specialize (Hm GBullets Hne). simpl in Hm. rewrite Hm. lia.
Qed.

Lemma evolves_bullets st st' :
  evolves_in not_bullets st st' ->
  (length (bullets st') <= length (bullets st))%nat.
Proof.
  induction 1 as [st | st sta stb Hs _ IH]; [lia | ].
  apply step_bullets in Hs. lia.
Qed.

Lemma sprites_fold_bullets C dt l st :
  (length (bullets (fold_left (fun s r => sprite_update C dt r s) l st))
   <= length (bullets st))%nat.
Proof.
  revert st. induction l as [|r l IH]; intro st; [simpl; lia | ].
  change (fold_left (fun s r => sprite_update C dt r s) (r :: l) st)
    with (fold_left (fun s r => sprite_update C dt r s) l
            (sprite_update C dt r st)).
  specialize (IH (sprite_update C dt r st)).
  assert (H : (length (bullets (sprite_update C dt r st))
               <= length (bullets st))%nat).
  { destruct r as [|i]; [simpl; lia | ].
    apply evolves_bullets, sprite_update_evolves. }
  lia.
Qed.

Lemma update_begin_bullets C Src dt keys st st' :
  update_begin C Src dt keys st = Some st' ->
  (length (bullets st') <= length (bullets st))%nat.
Proof.
  unfold update_begin. cbv zeta.
  set (st0 := set_ship (Ship_control C keys dt (ship st)) st).
  pose proof (sprites_fold_bullets C dt (all_sprites st0) st0) as H2.
  fold (sprites_update C dt st0) in H2.
  set (st2 := sprites_update C dt st0) in *.
  set (st3 := ufos_fire C Src _ (ufos st2) st2).
  assert (H3 : (length (bullets st3) <= length (bullets st))%nat).
  { pose proof (evolves_bullets _ _
                  (ufos_fire_evolves C Src
                     (if s_alive (ship st2) then Some (s_pos (ship st2))
                      else None) (ufos st2) st2)) as X.
    fold st3 in X. change (bullets st0) with (bullets st) in H2. lia. }
  clearbody st3.
  match goal with |- context [if Rleb (ufo_timer ?s) 0 then _ else _] =>
    assert (H5 : (length (bullets s) <= length (bullets st))%nat)
      by (destruct (Rltb 0 (safe st3)); exact H3);
    generalize dependent s end.
  intros st5 H5. destruct (Rleb _ 0).
  - destruct (spawn_ufo C Src st5) as [st6|] eqn:E6; [ | discriminate].
    intro X; injection X as <-.
    apply spawn_ufo_evolves, evolves_bullets in E6. simpl. lia.
  - intro X; injection X as <-. exact H5.
Qed.

Lemma ship_die_bullets C Src fuel st st' :
  ship_die C Src fuel st = Some st' ->
  (length (bullets st') <= length (bullets st))%nat.
Proof.
  unfold ship_die. destruct (negb _).
  - intro X; injection X as <-. lia.
  - destruct (0 <=? _)%Z.
    + intro X; injection X as <-. simpl. lia.
    + intro X. apply World_init_fresh in X.
      destruct X as ((_ & _ & _ & _ & Hb & _) & _). rewrite Hb. simpl. lia.
Qed.

Lemma ship_vs_sprites_bullets C Src fuel snap st st' :
  ship_vs_sprites C Src fuel snap st = Some st' ->
  (length (bullets st') <= length (bullets st))%nat.
Proof.
  revert st. induction snap as [|i rest IH]; intro st; simpl.
  - intro X; injection X as <-. lia.
  - destruct (get_obj i st) as [o|]; [ | apply IH].
    destruct (touches _ o); [apply ship_die_bullets | apply IH].
Qed.

Lemma ship_collisions_bullets C Src fuel st st' :
  ship_collisions C Src fuel st = Some st' ->
  (length (bullets st') <= length (bullets st))%nat.
Proof.
  unfold ship_collisions. destruct (_ && _).
  2:{ intro X; injection X as <-. lia. }
  destruct (ship_vs_sprites C Src fuel (asteroids st) st) as [st1|] eqn:E1;
    [ | discriminate].
  destruct (if s_alive (ship st1) then _ else _) as [st2|] eqn:E2;
    [ | discriminate].
  intros E3.
  apply ship_vs_sprites_bullets in E1.
  assert (H2 : (length (bullets st2) <= length (bullets st1))%nat).
  { destruct (s_alive (ship st1)).
    - eapply ship_vs_sprites_bullets; eassumption.
    - injection E2 as <-. lia. }
  assert (H3 : (length (bullets st') <= length (bullets st2))%nat).
  { destruct (s_alive (ship st2)).
    - unfold ship_vs_enemy_bullets in E3.
      match type of E3 with context [spritecollide_kill ?f ?l st2] =>
        pose proof (evolves_bullets _ _ (spritecollide_kill_evolves f l st2))
          as H;
        destruct (spritecollide_kill f l st2) as [hits st3] end.
      simpl in H. destruct hits.
      + injection E3 as <-. exact H.
      + apply ship_die_bullets in E3. lia.
    - injection E3 as <-. lia. }
  lia.
Qed.

Lemma update_bullets C Src fuel dt keys st st' :
  update C Src fuel dt keys st = Some st' ->
  (length (bullets st') <= length (bullets st))%nat.
Proof.
  unfold update.
  destruct (update_begin C Src dt keys st) as [st1|] eqn:E1; [ | discriminate].
  apply update_begin_bullets in E1.
  unfold handle_collisions. cbv zeta.
  pose proof (evolves_bullets _ _ (bullets_vs_asteroids_evolves C Src st1))
    as H1.
  destruct (ship_collisions C Src fuel _) as [st2|] eqn:E2; [ | discriminate].
  apply ship_collisions_bullets in E2.
  pose proof (evolves_bullets _ _ (bullets_vs_ufos_evolves C st2)) as H3.
  pose proof (evolves_bullets _ _
                (ufos_vs_asteroids_evolves C Src (bullets_vs_ufos C st2)))
    as H4.
  unfold wave_progress. destruct (asteroids _).
  - destruct (Rleb _ 0).
    + destruct (start_wave C Src fuel _) as [st5|] eqn:E5; [ | discriminate].
      intro X; injection X as <-.
      apply start_wave_adds in E5. destruct E5 as (l & _ & _ & _ & Hb & _).
      simpl in *. rewrite Hb. lia.
    + intro X; injection X as <-. simpl. lia.
  - intro X; injection X as <-. lia.
Qed.

Lemma try_fire_capped C st : capped C st -> capped C (try_fire C st).
Proof.
  unfold capped, try_fire.
  destruct (Z.leb_spec (MAX_BULLETS C) (Z.of_nat (length (bullets st))));
    [auto | ].
  unfold Ship_fire. destruct (Rltb 0 _); [auto | ].
  intros _. simpl. rewrite length_app. simpl. lia.
Qed.

(** X22: the world never holds more player bullets than [MAX_BULLETS].
    [update] adds none: after it the group has as many bullets as before or
    fewer, and none after a reset.  [try_fire] adds one only below the cap
    and [hyperspace] none, so a world that is within the cap stays within
    it through any sequence of calls; the world [World.__init__] builds has
    no bullet. *)
Theorem bullet_cap_holds (C : Config) (Src : Oracle) (fuel : nat) :
  (forall st st', World_init C Src fuel st = Some st' -> bullets st' = []) /\
  (forall dt keys st st',
     update C Src fuel dt keys st = Some st' ->
     (length (bullets st') <= length (bullets st))%nat) /\
  (forall cs st st',
     capped C st -> calls C Src fuel cs st = Some st' -> capped C st').
Proof.
  split; [ | split].
  - intros st st' E. apply World_init_fresh in E. apply E.
  - intros dt keys st st'. apply update_bullets.
  - induction cs as [|c cs IH]; intros st st' H; simpl.
    + intro X; injection X as <-. exact H.
    + destruct (call C Src fuel c st) as [st1|] eqn:E; [ | discriminate].
      apply IH. destruct c as [dt keys | | ]; simpl in E.
      * apply update_bullets in E. unfold capped in *. lia.
      * injection E as <-. apply try_fire_capped, H.
      * injection E as <-. revert H. unfold capped, hyperspace.
        destruct (negb _); [auto | ]. simpl. auto.
Qed.

Lemma bullet_cap_holds_witness :
  capped example_config
    (try_fire example_config (try_fire example_config st_wave_due)).
Proof.
  apply (proj2 (proj2 (bullet_cap_holds example_config example_oracle 0))
           [CallTryFire; CallTryFire] st_wave_due).
  - unfold capped. simpl. lia.
  - reflexivity.
Defined.
